(** * BestMan simulation layer: base navigation and arm trajectory control

    A shallow embedding of the control code of
    [RoboticsToolBox/Bestman_sim.py] (class [Bestman_sim]) and of the PID
    controller it drives.

    Numbers.  For the statements about structure (which calls are made,
    in which order, with which arguments) Python's [float] is read as a
    real number: [+], [-], [*], [/], [abs], [math.sqrt], [math.sin],
    [math.cos] and comparisons are the operations of [R], and [%] is the
    floored remainder.  The angle arithmetic of [sim_rotate_base], on
    which termination depends, is also written over an interface of float
    operations ([PyArith]) and read in binary64 and in the reals with a
    rounding after each operation.  Overflow is outside both readings:
    the statements about rounded arithmetic bound the magnitudes, and the
    statements about [sim_move_base_to_waypoint] are about runs that
    return.

    Effects.  The object's attributes and the state of the physics engine
    are threaded explicitly; every call that leaves the object (engine
    resets, engine ticks, motor commands, printed lines) is appended to a
    log, newest entry last. *)

From Stdlib Require Import Reals Lra Lia List Bool ZArith.
Import ListNotations.

#[local] Open Scope R_scope.

(* ================================================================== *)
(** ** Python numerics *)

Module PyFloat.

(** [x % m] on floats: the remainder takes the sign of the divisor,
    [x % m = x - m * floor (x / m)].  (Python raises [ZeroDivisionError]
    for [m = 0]; every divisor in this development is [2 * math.pi].) *)
Definition py_mod (x m : R) : R := x - m * IZR (Zfloor (x / m)).

(** [math.atan2 y x], by quadrant. *)
Definition atan2 (y x : R) : R :=
  if Rlt_dec 0 x then atan (y / x)
  else if Rlt_dec x 0 then
         if Rle_dec 0 y then atan (y / x) + PI else atan (y / x) - PI
  else if Rlt_dec 0 y then PI / 2
  else if Rlt_dec y 0 then - (PI / 2)
  else 0.

(** Boolean comparisons, as the conditions of [if] and [while]. *)
Definition ltb (x y : R) : bool := if Rlt_dec x y then true else false.
Definition leb (x y : R) : bool := if Rle_dec x y then true else false.

End PyFloat.

(* ================================================================== *)
(** ** Python sequences *)

Module PySeq.

(** [l[i]] with Python's negative indices; [None] stands for [IndexError]. *)
Definition index {A : Type} (l : list A) (i : Z) : option A :=
  let n := Z.of_nat (length l) in
  if (0 <=? i)%Z then nth_error l (Z.to_nat i)
  else if (0 <=? n + i)%Z then nth_error l (Z.to_nat (n + i))
  else None.

(** [zip a b] stops at the shorter argument; this is [List.combine]. *)
Definition zip {A B : Type} (a : list A) (b : list B) : list (A * B) :=
  combine a b.

(** [numpy.linspace start stop num] (endpoint included): [num] samples
    [i * step + start] with [step = (stop - start) / (num - 1)], the last
    one overwritten by [stop] when [num > 1]. *)
Definition linspace (start stop : R) (num : nat) : list R :=
  let div := (num - 1)%nat in
  let step := (stop - start) / INR div in
  let y := map (fun i => INR i * step + start) (seq 0 num) in
  if (1 <? num)%nat then removelast y ++ [stop] else y.

End PySeq.

(* ================================================================== *)
(** ** Geometry values *)

Record Vec3 : Type := mkVec3 { v0 : R; v1 : R; v2 : R }.
Record Quat : Type := mkQuat { q0 : R; q1 : R; q2 : R; q3 : R }.

(** [(1 - t) * np.array(a) + t * np.array(b)], componentwise. *)
Definition lerp (a b : Vec3) (t : R) : Vec3 :=
  mkVec3 ((1 - t) * v0 a + t * v0 b)
         ((1 - t) * v1 a + t * v1 b)
         ((1 - t) * v2 a + t * v2 b).

(** [np.linalg.norm(np.array(a) - np.array(b))]. *)
Definition norm_diff (a b : Vec3) : R :=
  sqrt ((v0 a - v0 b) * (v0 a - v0 b) + (v1 a - v1 b) * (v1 a - v1 b)
        + (v2 a - v2 b) * (v2 a - v2 b)).

(** Modelled from the spec: the class [Pose] of [RoboticsToolBox/Pose.py],
    which is not among the sources.  The spec gives it a position in R^3
    and an orientation quaternion in R^4, with accessors in several angular
    representations; the Euler accessor is [get_orientation_euler] below,
    which goes through the engine's conversion. *)
Record Pose : Type := mkPose { position : Vec3; orientation : Quat }.

Definition get_position (p : Pose) : Vec3 := position p.
Definition get_orientation (p : Pose) : Quat := orientation p.
Definition pose_x (p : Pose) : R := v0 (position p).
Definition pose_y (p : Pose) : R := v1 (position p).

(* ================================================================== *)
(** ** PID controller *)

Module PIDController.

(** Modelled from the spec: the class [PIDController] of the [Controller]
    package, which is not among the sources.  Section 3 of the spec lists
    the state, section 4.1 the two operations. *)
Record t : Type := mk {
  Kp : R; Ki : R; Kd : R;
  setpoint : R;
  integral : R;
  previous_error : R
}.

(** A controller as its constructor leaves it: empty history. *)
Definition init (kp ki kd sp : R) : t := mk kp ki kd sp 0 0.

(** [set_goal] overwrites the setpoint and keeps the history. *)
Definition set_goal (c : t) (new_setpoint : R) : t :=
  mk (Kp c) (Ki c) (Kd c) new_setpoint (integral c) (previous_error c).

(** [calculate measurement]: returns the output and the updated controller. *)
Definition calculate (c : t) (measurement : R) : R * t :=
  let error := setpoint c - measurement in
  let integral' := integral c + error in
  let derivative := error - previous_error c in
  let output := Kp c * error + Ki c * integral' + Kd c * derivative in
  (output, mk (Kp c) (Ki c) (Kd c) (setpoint c) integral' error).

End PIDController.

(* ================================================================== *)
(** ** The physics engine and the client *)

Inductive body : Type := BaseBody | ArmBody.

(** What the engine holds about the robot: the pose of the two bodies, the
    angle of every arm joint (by joint index) and the targets of the last
    position-control command. *)
Record World : Type := mkWorld {
  base_position : Vec3;
  base_orientation : Quat;
  arm_position : Vec3;
  arm_orientation : Quat;
  joint_angle : nat -> R;
  motor_targets : list R
}.

(** The lines the methods print. *)
Inductive message : Type :=
  | NavWarning (ik_error : R)
  | NavDone
  | ArmWarning (ik_error : R)
  | ArmDone
  | TrajectoryWarning (greater_num : nat)
  | TrajectoryDone.

(** The calls that leave the object, in the order they are made.  The last
    constructor marks an entry into [sim_rotate_base]; it is bookkeeping of
    the embedding, the others are calls of the source. *)
Inductive event : Type :=
  | ResetBasePositionAndOrientation (b : body) (pos : Vec3) (orn : Quat)
  | ClientRun (ticks : option nat)
  | SetJointMotorControlArray (indices : list nat) (targets : list R)
  | AddUserDebugLine (from_point to_point : Vec3)
  | Print (m : message)
  | EnterRotateBase (target_yaw : R) (gradual : bool).

(** The collaborators whose code is outside the repository's control
    core: pure engine queries and the client's tick.  [client_run n w] is
    the world after [self.client.run(n)]; [None] is the call without an
    argument. *)
Class Engine : Type := {
  getEulerFromQuaternion : Quat -> Vec3;
  getQuaternionSlerp : Quat -> Quat -> R -> Quat;
  getLinkState : World -> Pose;
  calculateInverseKinematics : World -> Pose -> list R;
  client_run : option nat -> World -> World
}.

(** [pose.get_orientation("euler")]. *)
Definition get_orientation_euler `{Engine} (p : Pose) : Vec3 :=
  getEulerFromQuaternion (orientation p).

(* ================================================================== *)
(** ** The robot object *)

Record Sim : Type := mkSim {
  world : World;
  arm_id : option nat;
  arm_joints_idx : list nat;
  arm_place_height : R;
  target_distance : R;
  distance_controller : PIDController.t;
  base_rotated : bool;
  current_base_yaw : R;
  next_waypoint : Pose;
  log : list event
}.

Definition set_world (w : World) (s : Sim) : Sim :=
  mkSim w (arm_id s) (arm_joints_idx s) (arm_place_height s)
        (target_distance s) (distance_controller s) (base_rotated s)
        (current_base_yaw s) (next_waypoint s) (log s).

Definition set_target_distance (d : R) (s : Sim) : Sim :=
  mkSim (world s) (arm_id s) (arm_joints_idx s) (arm_place_height s)
        d (distance_controller s) (base_rotated s)
        (current_base_yaw s) (next_waypoint s) (log s).

Definition set_distance_controller (c : PIDController.t) (s : Sim) : Sim :=
  mkSim (world s) (arm_id s) (arm_joints_idx s) (arm_place_height s)
        (target_distance s) c (base_rotated s)
        (current_base_yaw s) (next_waypoint s) (log s).

Definition set_base_rotated (b : bool) (s : Sim) : Sim :=
  mkSim (world s) (arm_id s) (arm_joints_idx s) (arm_place_height s)
        (target_distance s) (distance_controller s) b
        (current_base_yaw s) (next_waypoint s) (log s).

Definition set_current_base_yaw (yaw : R) (s : Sim) : Sim :=
  mkSim (world s) (arm_id s) (arm_joints_idx s) (arm_place_height s)
        (target_distance s) (distance_controller s) (base_rotated s)
        yaw (next_waypoint s) (log s).

Definition set_next_waypoint (p : Pose) (s : Sim) : Sim :=
  mkSim (world s) (arm_id s) (arm_joints_idx s) (arm_place_height s)
        (target_distance s) (distance_controller s) (base_rotated s)
        (current_base_yaw s) p (log s).

Definition emit (e : event) (s : Sim) : Sim :=
  mkSim (world s) (arm_id s) (arm_joints_idx s) (arm_place_height s)
        (target_distance s) (distance_controller s) (base_rotated s)
        (current_base_yaw s) (next_waypoint s) (log s ++ [e]).

(** Results of the methods that can raise or loop. *)
Inductive exn : Type := IndexError | UnboundLocalError.

Inductive outcome : Type :=
  | Returned (s : Sim)
  | Raised (e : exn) (s : Sim)
  | OutOfFuel.

Definition bind (o : outcome) (k : Sim -> outcome) : outcome :=
  match o with
  | Returned s => k s
  | Raised e s => Raised e s
  | OutOfFuel => OutOfFuel
  end.

Definition of_option (o : option Sim) : outcome :=
  match o with Some s => Returned s | None => OutOfFuel end.

Notation "s <- o ;; k" := (bind o (fun s => k))
  (at level 61, o at next level, right associativity).

(* ================================================================== *)
(** ** Methods of [Bestman_sim] *)

Section Bestman_sim.

Context `{Engine}.

Import PyFloat.

(** *** Engine calls made through the object *)

Definition resetBasePositionAndOrientation
    (b : body) (pos : Vec3) (orn : Quat) (s : Sim) : Sim :=
  let w := world s in
  let w' :=
    match b with
    | BaseBody => mkWorld pos orn (arm_position w) (arm_orientation w)
                          (joint_angle w) (motor_targets w)
    | ArmBody => mkWorld (base_position w) (base_orientation w) pos orn
                         (joint_angle w) (motor_targets w)
    end in
  emit (ResetBasePositionAndOrientation b pos orn) (set_world w' s).

Definition run (ticks : option nat) (s : Sim) : Sim :=
  emit (ClientRun ticks) (set_world (client_run ticks (world s)) s).

(** The engine refuses a command whose targets are not one per joint
    index; that refusal is not part of this definition, and a statement
    that depends on it carries the lengths as a hypothesis. *)
Definition setJointMotorControlArray (targets : list R) (s : Sim) : Sim :=
  let w := world s in
  emit (SetJointMotorControlArray (arm_joints_idx s) targets)
       (set_world (mkWorld (base_position w) (base_orientation w)
                           (arm_position w) (arm_orientation w)
                           (joint_angle w) targets) s).

(** *** Base *)

Definition sim_get_current_base_pose (s : Sim) : Pose :=
  mkPose (base_position (world s)) (base_orientation (world s)).

Definition sim_sync_base_arm_pose (s : Sim) : Sim :=
  let position := base_position (world s) in
  let orientation := base_orientation (world s) in
  match arm_id s with
  | Some _ =>
      resetBasePositionAndOrientation ArmBody
        (mkVec3 (v0 position) (v1 position) (arm_place_height s))
        orientation s
  | None => s
  end.

Definition angle_to_quaternion (yaw : R) : Quat :=
  mkQuat 0 0 (sin (yaw / 2)) (cos (yaw / 2)).

Definition shortest_angular_distance (from_angle to_angle : R) : R :=
  py_mod (to_angle - from_angle + PI) (2 * PI) - PI.

(** The three statements both branches of [sim_rotate_base] use to apply
    an orientation: read the base position, reset the base with it and the
    new orientation, bring the arm along. *)
Definition apply_base_orientation (orientation : Quat) (s : Sim) : Sim :=
  let position := base_position (world s) in
  sim_sync_base_arm_pose
    (resetBasePositionAndOrientation BaseBody position orientation s).

(** One pass through the body of the [while] of the gradual branch;
    returns the recomputed [angle_diff] with the state. *)
Definition rotate_step (target_yaw step_size angle_diff : R) (s : Sim)
  : R * Sim :=
  let s1 :=
    if ltb 0 angle_diff
    then set_current_base_yaw (current_base_yaw s + step_size) s
    else set_current_base_yaw (current_base_yaw s - step_size) s in
  let s2 :=
    set_current_base_yaw
      (py_mod (current_base_yaw s1 + PI) (2 * PI) - PI) s1 in
  let angle_diff' :=
    shortest_angular_distance (current_base_yaw s2) target_yaw in
  let orientation := angle_to_quaternion (current_base_yaw s2) in
  (angle_diff', run None (apply_base_orientation orientation s2)).

(** [while abs(angle_diff) > step_size: ...]; [None] when the fuel does
    not cover the iterations. *)
Fixpoint rotate_loop (fuel : nat) (target_yaw step_size angle_diff : R)
    (s : Sim) {struct fuel} : option Sim :=
  if ltb step_size (Rabs angle_diff) then
    match fuel with
    | O => None
    | S fuel' =>
        let '(angle_diff', s') :=
          rotate_step target_yaw step_size angle_diff s in
        rotate_loop fuel' target_yaw step_size angle_diff' s'
    end
  else Some s.

Definition sim_rotate_base (fuel : nat) (target_yaw : R) (gradual : bool)
    (step_size : R) (s : Sim) : option Sim :=
  let s := emit (EnterRotateBase target_yaw gradual) s in
  if gradual then
    let angle_diff :=
      shortest_angular_distance (current_base_yaw s) target_yaw in
    match rotate_loop fuel target_yaw step_size angle_diff s with
    | None => None
    | Some s1 =>
        let orientation := angle_to_quaternion target_yaw in
        let s2 := apply_base_orientation orientation s1 in
        let s3 := set_current_base_yaw target_yaw s2 in
        Some (run None s3)
    end
  else
    let orientation := angle_to_quaternion target_yaw in
    let s1 := apply_base_orientation orientation s in
    Some (run (Some 5%nat) s1).

(** Default [step_size] of [sim_rotate_base]. *)
Definition default_step_size : R := 2 / 100.

Definition sim_action (output : R) (s : Sim) : Sim :=
  let position := base_position (world s) in
  let orientation := base_orientation (world s) in
  let euler_angles := getEulerFromQuaternion orientation in
  sim_sync_base_arm_pose
    (resetBasePositionAndOrientation BaseBody
       (mkVec3 (v0 position + output * cos (v2 euler_angles))
               (v1 position + output * sin (v2 euler_angles))
               (v2 position))
       orientation s).

(** [distance] as the loop of [sim_move_base_to_waypoint] computes it.  On
    floats the squares raise [OverflowError] when they overflow; that path
    is not part of this definition. *)
Definition waypoint_distance (s : Sim) : R :=
  let pose := sim_get_current_base_pose s in
  let target := next_waypoint s in
  sqrt ((pose_y target - pose_y pose) ^ 2 + (pose_x target - pose_x pose) ^ 2).

(** One pass through the body of [while True] after the [break] test:
    iteration number [cnt], with [distance] already measured. *)
Definition waypoint_step (fuel : nat) (cnt : nat) (distance : R) (s : Sim)
  : option Sim :=
  let pose := sim_get_current_base_pose s in
  let target := next_waypoint s in
  let s1 := set_distance_controller
              (PIDController.set_goal (distance_controller s)
                                      (target_distance s)) s in
  let '(output, c) :=
    PIDController.calculate (distance_controller s1) distance in
  let s2 := set_distance_controller c s1 in
  let yaw := atan2 (pose_y target - pose_y pose)
                   (pose_x target - pose_x pose) in
  let rotated :=
    if negb (base_rotated s2) then
      option_map (set_base_rotated true)
                 (sim_rotate_base fuel yaw true default_step_size s2)
    else Some s2 in
  match rotated with
  | None => None
  | Some s3 =>
      let s4 := sim_action (- output) s3 in
      Some (if (cnt mod 20 =? 0)%nat then run None s4 else s4)
  end.

Fixpoint waypoint_loop (fuel : nat) (threshold : R) (cnt : nat) (s : Sim)
    {struct fuel} : option Sim :=
  let distance := waypoint_distance s in
  if ltb distance threshold then Some s
  else
    match fuel with
    | O => None
    | S fuel' =>
        match waypoint_step fuel' cnt distance s with
        | None => None
        | Some s' => waypoint_loop fuel' threshold (S cnt) s'
        end
    end.

(** The assignments of [sim_move_base_to_waypoint] before its loop. *)
Definition waypoint_entry (waypoint : Pose) (s : Sim) : Sim :=
  let s := set_next_waypoint waypoint s in
  let s := set_target_distance 0 s in
  set_base_rotated false s.

Definition sim_move_base_to_waypoint (fuel : nat) (waypoint : Pose)
    (threshold : R) (s : Sim) : option Sim :=
  let s := waypoint_entry waypoint s in
  option_map (run None) (waypoint_loop fuel threshold 1%nat s).

(** Default [threshold] of [sim_move_base_to_waypoint]. *)
Definition default_waypoint_threshold : R := 1 / 100.

Definition sim_calculate_nav_error (goal_pose : Pose) (s : Sim) : R :=
  let current_base_pose := sim_get_current_base_pose s in
  norm_diff (get_position current_base_pose) (get_position goal_pose).

(** Body of the [for] of [sim_navigate_base] for index [i]. *)
Definition navigate_step (fuel : nat) (goal_base_pose : Pose)
    (path : list (list R)) (enable_plot : bool) (i : nat) (s : Sim)
  : outcome :=
  match PySeq.index path (Z.of_nat i) with
  | None => Raised IndexError s
  | Some pt =>
    match PySeq.index pt 0, PySeq.index pt 1 with
    | Some px, Some py =>
        let next_point := mkVec3 px py 0 in
        s1 <- of_option
                (sim_move_base_to_waypoint fuel
                   (mkPose (mkVec3 px py 0) (get_orientation goal_base_pose))
                   default_waypoint_threshold s) ;;
        if negb (i =? 0)%nat && enable_plot then
          match PySeq.index path (Z.of_nat i - 1) with
          | None => Raised IndexError s1
          | Some prev =>
            match PySeq.index prev 0, PySeq.index prev 1 with
            | Some fx, Some fy =>
                Returned (emit (AddUserDebugLine (mkVec3 fx fy 0) next_point)
                               s1)
            | _, _ => Raised IndexError s1
            end
          end
        else Returned s1
    | _, _ => Raised IndexError s
    end
  end.

Fixpoint navigate_loop (fuel : nat) (goal_base_pose : Pose)
    (path : list (list R)) (enable_plot : bool) (range : list nat) (s : Sim)
  : outcome :=
  match range with
  | [] => Returned s
  | i :: range' =>
      s1 <- navigate_step fuel goal_base_pose path enable_plot i s ;;
      navigate_loop fuel goal_base_pose path enable_plot range' s1
  end.

(** The statements of [sim_navigate_base] after the final rotation. *)
Definition navigate_report (goal_base_pose : Pose) (threshold : R) (s : Sim)
  : Sim :=
  let s1 := run (Some 10%nat) s in
  let ik_error := sim_calculate_nav_error goal_base_pose s1 in
  let s2 := if leb threshold ik_error
            then emit (Print (NavWarning ik_error)) s1 else s1 in
  emit (Print NavDone) s2.

Definition sim_navigate_base (fuel : nat) (goal_base_pose : Pose)
    (path : list (list R)) (threshold : R) (enable_plot : bool) (s : Sim)
  : outcome :=
  s1 <- navigate_loop fuel goal_base_pose path enable_plot
          (seq 0 (length path)) s ;;
  s2 <- of_option
          (sim_rotate_base fuel (v2 (get_orientation_euler goal_base_pose))
                           true default_step_size s1) ;;
  Returned (navigate_report goal_base_pose threshold s2).

(** *** Arm *)

Definition sim_get_current_joint_values (s : Sim) : list R :=
  map (joint_angle (world s)) (arm_joints_idx s).

Definition sim_get_current_end_effector_pose (s : Sim) : Pose :=
  getLinkState (world s).

Definition sim_move_arm_to_joint_values (joint_values : list R) (s : Sim)
  : Sim :=
  run (Some 40%nat) (setJointMotorControlArray joint_values s).

Definition sim_cartesian_to_joints (pose : Pose) (s : Sim) : list R :=
  firstn (length (arm_joints_idx s))
         (calculateInverseKinematics (world s) pose).

Definition sim_calculate_IK_error (goal_pose : Pose) (s : Sim) : R :=
  let end_effector_pose := sim_get_current_end_effector_pose s in
  norm_diff (get_position end_effector_pose) (get_position goal_pose).

(** The pose the loop of [sim_move_end_effector_to_goal_pose] builds for
    the sample [t]. *)
Definition interpolated_pose (start_pose goal_pose : Pose) (t : R) : Pose :=
  let interpolated_position :=
    lerp (get_position start_pose) (get_position goal_pose) t in
  let interpolated_orientation :=
    getQuaternionSlerp (get_orientation start_pose)
                       (get_orientation goal_pose) t in
  mkPose interpolated_position interpolated_orientation.

Definition end_effector_step (start_pose goal_pose : Pose) (s : Sim) (t : R)
  : Sim :=
  let joint_values :=
    sim_cartesian_to_joints (interpolated_pose start_pose goal_pose t) s in
  sim_move_arm_to_joint_values joint_values s.

Definition sim_move_end_effector_to_goal_pose (end_effector_goal_pose : Pose)
    (steps : nat) (threshold : R) (s : Sim) : Sim :=
  let start_pose := sim_get_current_end_effector_pose s in
  let s1 := fold_left (end_effector_step start_pose end_effector_goal_pose)
                      (PySeq.linspace 0 1 steps) s in
  let ik_error := sim_calculate_IK_error end_effector_goal_pose s1 in
  let s2 := if leb threshold ik_error
            then emit (Print (ArmWarning ik_error)) s1 else s1 in
  emit (Print ArmDone) s2.

(** Body of the [for] of [sim_execute_trajectory] for index [i]; the
    local [front_point] is unbound until the first pass has run. *)
Definition trajectory_step (trajectory : list (list R)) (enable_plot : bool)
    (i : nat) (st : option Vec3 * Sim) : option Vec3 * outcome :=
  let '(front_point, s) := st in
  match PySeq.index trajectory (Z.of_nat i) with
  | None => (front_point, Raised IndexError s)
  | Some joint_values =>
      let s1 := sim_move_arm_to_joint_values joint_values s in
      let current_point :=
        get_position (sim_get_current_end_effector_pose s1) in
      if negb (i =? 0)%nat && enable_plot then
        match front_point with
        | None => (front_point, Raised UnboundLocalError s1)
        | Some fp =>
            (Some current_point,
             Returned (emit (AddUserDebugLine fp current_point) s1))
        end
      else (Some current_point, Returned s1)
  end.

Fixpoint trajectory_loop (trajectory : list (list R)) (enable_plot : bool)
    (range : list nat) (st : option Vec3 * Sim) : outcome :=
  match range with
  | [] => Returned (snd st)
  | i :: range' =>
      match trajectory_step trajectory enable_plot i st with
      | (front_point, Returned s1) =>
          trajectory_loop trajectory enable_plot range' (front_point, s1)
      | (_, o) => o
      end
  end.

Definition sim_execute_trajectory (trajectory : list (list R))
    (threshold : R) (enable_plot : bool) (s : Sim) : outcome :=
  s1 <- trajectory_loop trajectory enable_plot
          (seq 0 (length trajectory)) (None, s) ;;
  let s2 := run (Some 40%nat) s1 in
  let current_joint_values := sim_get_current_joint_values s2 in
  match PySeq.index trajectory (-1) with
  | None => Raised IndexError s2
  | Some last_values =>
      let diff_angles :=
        map (fun ab => Rabs (fst ab - snd ab))
            (PySeq.zip current_joint_values last_values) in
      let greater_than_threshold :=
        filter (fun diff => ltb threshold diff) diff_angles in
      let greater_num := length greater_than_threshold in
      let s3 := if (0 <? greater_num)%nat
                then emit (Print (TrajectoryWarning greater_num)) s2
                else s2 in
      Returned (emit (Print TrajectoryDone) s3)
  end.

(** *** Observations on the log, used in the statements *)

(** The log entries [sim_sync_base_arm_pose] appends: the arm reset, when
    there is an arm. *)
Definition sync_events (s : Sim) : list event :=
  match arm_id s with
  | Some _ =>
      [ResetBasePositionAndOrientation ArmBody
         (mkVec3 (v0 (base_position (world s))) (v1 (base_position (world s)))
                 (arm_place_height s))
         (base_orientation (world s))]
  | None => []
  end.

(** The orientation of the last reset of the base body in a log. *)
Fixpoint last_base_orientation (l : list event) : option Quat :=
  match l with
  | [] => None
  | e :: l' =>
      match last_base_orientation l' with
      | Some q => Some q
      | None =>
          match e with
          | ResetBasePositionAndOrientation BaseBody _ orn => Some orn
          | _ => None
          end
      end
  end.

(** Passes that cover a distance [d]: more than [|d| / step_size]. *)
Definition rotate_fuel (step d : R) : nat := Z.to_nat (up (Rabs d / step)).

(** How many times a log records an entry into [sim_rotate_base]. *)
Definition is_rotate_entry (e : event) : bool :=
  match e with EnterRotateBase _ _ => true | _ => false end.

Definition rotate_count (l : list event) : nat :=
  length (filter is_rotate_entry l).

(** The client tick calls in a log. *)
Definition is_client_run (e : event) : bool :=
  match e with ClientRun _ => true | _ => false end.

(** The tick the loop of [sim_move_base_to_waypoint] issues itself in the
    pass numbered [cnt]. *)
Definition tick_events (cnt : nat) : list event :=
  if (cnt mod 20 =? 0)%nat then [ClientRun None] else [].

(** The state in which a pass with the base already rotated hands over to
    the next one: controller updated, base translated, tick if due. *)
Definition translate_only (cnt : nat) (s : Sim) : Sim :=
  let c0 := PIDController.set_goal (distance_controller s)
                                   (target_distance s) in
  let r := PIDController.calculate c0 (waypoint_distance s) in
  let s4 := sim_action (- fst r) (set_distance_controller (snd r) s) in
  if (cnt mod 20 =? 0)%nat then run None s4 else s4.

End Bestman_sim.

(** A stand-in engine for evaluating the methods on concrete inputs: the
    bodies are fixed (a tick leaves the world as it is), the yaw of a
    rotation about the vertical axis is read off its quaternion, the end
    effector sits at the arm's origin, interpolation is componentwise and
    the solver returns no angles. *)
Definition planar_engine : Engine := {|
  getEulerFromQuaternion := fun q => mkVec3 0 0 (2 * PyFloat.atan2 (q2 q) (q3 q));
  getQuaternionSlerp := fun a b t =>
    mkQuat ((1 - t) * q0 a + t * q0 b) ((1 - t) * q1 a + t * q1 b)
           ((1 - t) * q2 a + t * q2 b) ((1 - t) * q3 a + t * q3 b);
  getLinkState := fun w => mkPose (arm_position w) (arm_orientation w);
  calculateInverseKinematics := fun _ _ => [];
  client_run := fun _ w => w
|}.

(** A robot at the origin, facing along x, controller gains (1, 0, 0). *)
Definition origin_world : World :=
  mkWorld (mkVec3 0 0 0) (mkQuat 0 0 0 1) (mkVec3 0 0 0) (mkQuat 0 0 0 1)
          (fun _ => 0) [].

Definition origin_sim : Sim :=
  mkSim origin_world (Some 1%nat) [0; 1; 2]%nat 0 0
        (PIDController.init 1 0 0 0) false 0
        (mkPose (mkVec3 0 0 0) (mkQuat 0 0 0 1)) [].

(** A waypoint one unit ahead of [origin_sim], and a goal five units ahead. *)
Definition east_waypoint : Pose := mkPose (mkVec3 1 0 0) (mkQuat 0 0 0 1).
Definition far_goal : Pose := mkPose (mkVec3 5 0 0) (mkQuat 0 0 0 1).

(** Two end-effector poses, a quarter turn about the vertical apart. *)
Definition tool_start_pose : Pose := mkPose (mkVec3 0 0 1) (mkQuat 0 0 0 1).
Definition tool_goal_pose : Pose := mkPose (mkVec3 1 2 3) (mkQuat 0 0 1 0).

(** The robot after walking, under the stand-in engine, the one-point path
    that ends where it stands. *)
Definition after_here_path : Sim :=
  @run planar_engine None
    (waypoint_entry (mkPose (mkVec3 0 0 0) (get_orientation far_goal))
                    origin_sim).

(* ================================================================== *)
(** ** Further methods and observations *)

Section Bestman_sim_arm.
Context `{Engine}.
Import PyFloat.

(** The arm sits above the base at its mounting height, facing the same
    way: what [sim_sync_base_arm_pose] establishes. *)
Definition arm_aligned (s : Sim) : Prop :=
  arm_position (world s)
  = mkVec3 (v0 (base_position (world s))) (v1 (base_position (world s)))
           (arm_place_height s)
  /\ arm_orientation (world s) = base_orientation (world s).

(** Base and arm are loaded with [fixed_base=True]: an engine honours that
    when its ticks leave the pose of both bodies as they are. *)
Definition fixed_bodies : Prop :=
  forall ticks w,
    base_position (client_run ticks w) = base_position w
    /\ base_orientation (client_run ticks w) = base_orientation w
    /\ arm_position (client_run ticks w) = arm_position w
    /\ arm_orientation (client_run ticks w) = arm_orientation w.

(** [p.resetJointState(self.arm_id, joint, value, targetVelocity=0)]. *)
Definition resetJointState (joint : nat) (value : R) (s : Sim) : Sim :=
  let w := world s in
  set_world (mkWorld (base_position w) (base_orientation w)
                     (arm_position w) (arm_orientation w)
                     (fun j => if (j =? joint)%nat then value
                               else joint_angle w j)
                     (motor_targets w)) s.

(** The [for] of [sim_set_arm_to_joint_values] over [zip(idx, values)]. *)
Definition reset_joints (pairs : list (nat * R)) (s : Sim) : Sim :=
  fold_left (fun s jv => resetJointState (fst jv) (snd jv) s) pairs s.

Definition sim_set_arm_to_joint_values (joint_values : list R) (s : Sim)
  : Sim :=
  run (Some 10%nat)
      (reset_joints (PySeq.zip (arm_joints_idx s) joint_values) s).

(** [all(abs(current[i] - target[i]) < 0.01 for i in range(len(idx)))];
    [None] stands for the [IndexError] of a list shorter than the range. *)
Fixpoint all_close (current target : list R) (range : list nat)
  : option bool :=
  match range with
  | [] => Some true
  | i :: range' =>
      match PySeq.index current (Z.of_nat i), PySeq.index target (Z.of_nat i)
      with
      | Some c, Some t =>
          if ltb (Rabs (c - t)) (1 / 100) then all_close current target range'
          else Some false
      | _, _ => None
      end
  end.

(** [target_joint_values[-1] += angle]. *)
Definition add_to_last (l : list R) (angle : R) : option (list R) :=
  match PySeq.index l (-1) with
  | Some x => Some (removelast l ++ [x + angle])
  | None => None
  end.

(** The polling loop of [sim_rotate_end_effector]. *)
Fixpoint rotate_end_effector_loop (fuel : nat) (target : list R) (s : Sim)
  : outcome :=
  let current_joint_values :=
    map (joint_angle (world s)) (arm_joints_idx s) in
  match all_close current_joint_values target
          (seq 0 (length (arm_joints_idx s))) with
  | None => Raised IndexError s
  | Some true => Returned s
  | Some false =>
      match fuel with
      | O => OutOfFuel
      | S fuel' => rotate_end_effector_loop fuel' target (run None s)
      end
  end.

(** The line [sim_rotate_end_effector] prints before it returns. *)
Inductive rotate_message : Type := RotateEndEffectorCompleted.

(** [sim_rotate_end_effector]: the outcome, and what it printed (the
    closing line, last statement of the method). *)
Definition sim_rotate_end_effector (fuel : nat) (angle : R) (s : Sim)
  : outcome * list rotate_message :=
  let target_joint_values :=
    map (joint_angle (world s)) (arm_joints_idx s) in
  match add_to_last target_joint_values angle with
  | None => (Raised IndexError s, [])
  | Some target_joint_values =>
      let s1 := sim_move_arm_to_joint_values target_joint_values s in
      match rotate_end_effector_loop fuel target_joint_values s1 with
      | Returned s2 => (Returned s2, [RotateEndEffectorCompleted])
      | o => (o, [])
      end
  end.

(** An engine reads back the yaw it was given: the Euler yaw of the
    quaternion of a yaw has the cosine and sine of that yaw. *)
Definition yaw_readback : Prop :=
  forall yaw,
    cos (v2 (getEulerFromQuaternion (angle_to_quaternion yaw))) = cos yaw
    /\ sin (v2 (getEulerFromQuaternion (angle_to_quaternion yaw))) = sin yaw.

(** The base faces the waypoint from [r] away: its orientation is the
    quaternion of [yaw] and the waypoint lies at distance [r] along that
    heading. *)
Definition heading_to_waypoint (yaw r : R) (s : Sim) : Prop :=
  base_orientation (world s) = angle_to_quaternion yaw
  /\ pose_x (next_waypoint s) - v0 (base_position (world s)) = r * cos yaw
  /\ pose_y (next_waypoint s) - v1 (base_position (world s)) = r * sin yaw
  /\ 0 <= r.

(** A purely proportional distance controller with gain [k], aimed at
    distance 0. *)
Definition proportional (k : R) (s : Sim) : Prop :=
  PIDController.Kp (distance_controller s) = k
  /\ PIDController.Ki (distance_controller s) = 0
  /\ PIDController.Kd (distance_controller s) = 0
  /\ target_distance s = 0.

(** The attributes a rotation of the base leaves alone. *)
Definition same_attributes (s s' : Sim) : Prop :=
  arm_id s' = arm_id s
  /\ arm_place_height s' = arm_place_height s
  /\ target_distance s' = target_distance s
  /\ distance_controller s' = distance_controller s
  /\ base_rotated s' = base_rotated s
  /\ next_waypoint s' = next_waypoint s.

(** The joint values the loop of [sim_move_end_effector_to_goal_pose]
    commands for the samples [samples], from the state [s] on. *)
Fixpoint end_effector_commands (start_pose goal_pose : Pose)
    (samples : list R) (s : Sim) : list (list R) :=
  match samples with
  | [] => []
  | t :: samples' =>
      sim_cartesian_to_joints (interpolated_pose start_pose goal_pose t) s
      :: end_effector_commands start_pose goal_pose samples'
           (end_effector_step start_pose goal_pose s t)
  end.

(** The number of passes the loop of [sim_move_base_to_waypoint] makes
    from pass number [cnt] on. *)
Fixpoint waypoint_passes (fuel : nat) (threshold : R) (cnt : nat) (s : Sim)
    {struct fuel} : nat :=
  if ltb (waypoint_distance s) threshold then 0%nat
  else
    match fuel with
    | O => 0%nat
    | S fuel' =>
        match waypoint_step fuel' cnt (waypoint_distance s) s with
        | None => 0%nat
        | Some s' => S (waypoint_passes fuel' threshold (S cnt) s')
        end
    end.

(** What consecutive passes, numbered from [cnt], log after the rotation:
    the calls [acts] of each translation, each followed by the loop's own
    [client.run()] when the pass number is a multiple of 20. *)
Definition passes_log (cnt : nat) (acts : list (list event)) : list event :=
  flat_map (fun pass =>
              snd pass ++ (if (fst pass mod 20 =? 0)%nat
                           then [ClientRun None] else []))
           (combine (seq cnt (length acts)) acts).

(** The motor commands a log records, oldest first. *)
Definition motor_commands (l : list event) : list (list R) :=
  flat_map (fun e => match e with
                     | SetJointMotorControlArray _ targets => [targets]
                     | _ => []
                     end) l.

End Bestman_sim_arm.

(** A goal pose above the origin, and the waypoint at the origin. *)
Definition raised_goal : Pose := mkPose (mkVec3 0 0 1) (mkQuat 0 0 0 1).
Definition here_waypoint : Pose := mkPose (mkVec3 0 0 0) (mkQuat 0 0 0 1).

(** The quaternion interpolation of the Bullet engine, which is what
    [pybullet.getQuaternionSlerp] returns; it is engine code, outside the
    repository.  Bullet interpolates along the shorter arc: with a negative
    dot product the second quaternion enters with the opposite sign, and
    two parallel quaternions give the first one back. *)
Definition bullet_slerp (a b : Quat) (t : R) : Quat :=
  let length2 (q : Quat) := q0 q * q0 q + q1 q * q1 q + q2 q * q2 q + q3 q * q3 q in
  let dot := q0 a * q0 b + q1 a * q1 b + q2 a * q2 b + q3 a * q3 b in
  let magnitude := sqrt (length2 a * length2 b) in
  let product := dot / magnitude in
  if PyFloat.ltb (Rabs product) 1 then
    let sign := if PyFloat.ltb product 0 then -1 else 1 in
    let theta := acos (sign * product) in
    let s1 := sin (sign * t * theta) in
    let d := 1 / sin theta in
    let s0 := sin ((1 - t) * theta) in
    mkQuat ((q0 a * s0 + q0 b * s1) * d) ((q1 a * s0 + q1 b * s1) * d)
           ((q2 a * s0 + q2 b * s1) * d) ((q3 a * s0 + q3 b * s1) * d)
  else a.

(** The stand-in engine with Bullet's interpolation. *)
Definition bullet_engine : Engine := {|
  getEulerFromQuaternion := @getEulerFromQuaternion planar_engine;
  getQuaternionSlerp := bullet_slerp;
  getLinkState := @getLinkState planar_engine;
  calculateInverseKinematics := @calculateInverseKinematics planar_engine;
  client_run := @client_run planar_engine
|}.

(** A goal whose orientation, a turn about the vertical, is given by the
    unit quaternion with negative scalar part. *)
Definition back_goal_pose : Pose :=
  mkPose (mkVec3 1 2 3) (mkQuat 0 0 (3 / 5) (- 4 / 5)).

(** [origin_sim] with a distance controller of proportional gain 1/10. *)
Definition slow_sim : Sim :=
  set_distance_controller (PIDController.init (1 / 10) 0 0 0) origin_sim.

(* ================================================================== *)
(** ** Kitchen fixtures ([utils/utils_Kitchen_object.py]) *)

From Stdlib Require String.

Module Kitchen.
Import String.

(** A Python dict with integer keys, in insertion order; [None] from
    [dict_get] stands for [KeyError]. *)
Fixpoint dict_get {V : Type} (d : list (Z * V)) (key : Z) : option V :=
  match d with
  | [] => None
  | (k, v) :: d' => if (k =? key)%Z then Some v else dict_get d' key
  end.

(** The bodies the constructor loads. *)
Inductive element : Type := ElementA | ElementB | ElementC | ElementD | ElementE.

Definition elementA_drawer_to_joint_id : list (Z * Z) :=
  [(1, 17); (2, 21); (3, 26); (4, 30); (5, 36); (6, 39); (7, 47); (8, 52);
   (9, 55); (10, 57); (11, 13)]%Z.

Definition elementA_drawer_to_joint_limits : list (Z * (R * R)) :=
  [(1%Z, (0, 15 / 10)); (2%Z, (0, - (15 / 10))); (3%Z, (0, - (15 / 10)));
   (4%Z, (0, 15 / 10)); (5%Z, (0, 4 / 10)); (6%Z, (0, 4 / 10));
   (7%Z, (0, 15 / 10)); (8%Z, (0, - (15 / 10))); (9%Z, (0, 4 / 10));
   (10%Z, (0, 4 / 10)); (11%Z, (0, 15 / 10))].

Definition elementC_drawer_to_joint_id : list (Z * Z) :=
  [(1, 1); (2, 2); (3, 3)]%Z.

Definition elementC_drawer_to_joint_limits : list (Z * (R * R)) :=
  [(1%Z, (0, 15 / 10)); (2%Z, (0, - (3 / 10))); (3%Z, (0, - (3 / 10)))].

Definition elementD_drawer_to_joint_id : list (Z * Z) := [(1, 1)]%Z.

Definition elementD_drawer_to_joint_limits : list (Z * (R * R)) :=
  [(1%Z, (0, - (15 / 10)))].

Definition elementE_drawer_to_joint_id : list (Z * Z) := [(1, 1); (2, 2)]%Z.

Definition elementE_drawer_to_joint_limits : list (Z * (R * R)) :=
  [(1%Z, (0, - (15 / 10))); (2%Z, (0, - (15 / 10)))].

(** The calls that leave the object: the printed line (its label, then the
    two numbers it formats), the motor command, the client's ticks. *)
Inductive event : Type :=
  | Print (label : string) (joint_id : Z) (angle : R)
  | SetJointMotorControl2 (bodyIndex : element) (jointIndex : Z)
                          (targetPosition maxVelocity : R)
  | Run (ticks : nat).

Inductive result : Type :=
  | Returned (log : list event)
  | KeyError (log : list event).

(** The statements every branch of [open_drawer] and [close_drawer]
    shares: the two table lookups, the optional print, the command.
    [side] picks the end of the limits ([1] to open, [0] to close). *)
Definition drive (body : element) (joint_ids : list (Z * Z))
    (joint_limits : list (Z * (R * R))) (side : R * R -> R)
    (label : option string) (drawer_id : Z) (log : list event) : result :=
  match dict_get joint_ids drawer_id with
  | None => KeyError log
  | Some joint_id =>
      match dict_get joint_limits drawer_id with
      | None => KeyError log
      | Some limits =>
          let angle := side limits in
          let log1 := match label with
                      | Some l => log ++ [Print l joint_id angle]
                      | None => log
                      end in
          Returned (log1 ++ [SetJointMotorControl2 body joint_id angle
                                                   (5 / 10)])
      end
  end.

Definition run (ticks : nat) (r : result) : result :=
  match r with
  | Returned log => Returned (log ++ [Run ticks])
  | KeyError log => KeyError log
  end.

Definition open_drawer (elementName : string) (drawer_id : Z)
    (log : list event) : result :=
  let branch :=
    if String.eqb elementName "elementA"%string then
      drive ElementA elementA_drawer_to_joint_id
            elementA_drawer_to_joint_limits snd (Some "elementA"%string)
            drawer_id log
    else if String.eqb elementName "elementC"%string then
      drive ElementC elementC_drawer_to_joint_id
            elementC_drawer_to_joint_limits snd (Some "elementC"%string)
            drawer_id log
    else if String.eqb elementName "elementD"%string then
      drive ElementD elementD_drawer_to_joint_id
            elementD_drawer_to_joint_limits snd (Some "elementD (open)"%string)
            drawer_id log
    else if String.eqb elementName "elementE"%string then
      drive ElementE elementE_drawer_to_joint_id
            elementE_drawer_to_joint_limits snd (Some "elementE"%string)
            drawer_id log
    else Returned log in
  run (240 * 5) branch.

Definition close_drawer (elementName : string) (drawer_id : Z)
    (log : list event) : result :=
  let branch :=
    if String.eqb elementName "elementA"%string then
      drive ElementA elementA_drawer_to_joint_id
            elementA_drawer_to_joint_limits fst None drawer_id log
    else if String.eqb elementName "elementC"%string then
      run (240 * 5)
          (drive ElementC elementC_drawer_to_joint_id
                 elementC_drawer_to_joint_limits fst None drawer_id log)
    else if String.eqb elementName "elementD"%string then
      drive ElementD elementD_drawer_to_joint_id
            elementD_drawer_to_joint_limits fst (Some "elementD (close)"%string)
            drawer_id log
    else if String.eqb elementName "elementE"%string then
      drive ElementE elementE_drawer_to_joint_id
            elementE_drawer_to_joint_limits fst None drawer_id log
    else Returned log in
  run (240 * 5) branch.

(** The drawers an element has, by name: the keys of its tables. *)
Definition has_drawer (elementName : string) (drawer_id : Z) : bool :=
  if String.eqb elementName "elementA"%string then (1 <=? drawer_id)%Z && (drawer_id <=? 11)%Z
  else if String.eqb elementName "elementC"%string then
    (1 <=? drawer_id)%Z && (drawer_id <=? 3)%Z
  else if String.eqb elementName "elementD"%string then (drawer_id =? 1)%Z
  else if String.eqb elementName "elementE"%string then
    (1 <=? drawer_id)%Z && (drawer_id <=? 2)%Z
  else false.

Definition known_element (elementName : string) : bool :=
  (String.eqb elementName "elementA"%string) || (String.eqb elementName "elementC"%string)
  || (String.eqb elementName "elementD"%string) || (String.eqb elementName "elementE"%string).

(** The body and the joint table [open_drawer] and [close_drawer] use for
    an element name. *)
Definition tables_of (elementName : string)
  : option (element * list (Z * Z)) :=
  if String.eqb elementName "elementA"%string
  then Some (ElementA, elementA_drawer_to_joint_id)
  else if String.eqb elementName "elementC"%string
  then Some (ElementC, elementC_drawer_to_joint_id)
  else if String.eqb elementName "elementD"%string
  then Some (ElementD, elementD_drawer_to_joint_id)
  else if String.eqb elementName "elementE"%string
  then Some (ElementE, elementE_drawer_to_joint_id)
  else None.

(** The motor commands and the ticks a log records. *)
Definition commands (log : list event) : list (element * Z * R) :=
  flat_map (fun e => match e with
                     | SetJointMotorControl2 b j t _ => [(b, j, t)]
                     | _ => []
                     end) log.

Definition ticks (log : list event) : nat :=
  fold_right (fun e n => match e with Run t => (t + n)%nat | _ => n end)
             0%nat log.

End Kitchen.

(* ================================================================== *)
(** ** Keyframe recorder ([Visualization/blender_render/pyBulletSimRecorder.py]) *)

Module PyBulletRecorder.
Import String.

(** A Python dict with string keys, in insertion order: assigning to a key
    that is present replaces its value in place, a new key goes last. *)
Fixpoint dict_get {V : Type} (d : list (string * V)) (key : string)
  : option V :=
  match d with
  | [] => None
  | (k, v) :: d' => if String.eqb k key then Some v else dict_get d' key
  end.

Fixpoint dict_set {V : Type} (d : list (string * V)) (key : string) (v : V)
  : list (string * V) :=
  match d with
  | [] => [(key, v)]
  | (k, v0) :: d' =>
      if String.eqb k key then (key, v) :: d'
      else (k, v0) :: dict_set d' key v
  end.

Definition dict_keys {V : Type} (d : list (string * V)) : list string :=
  map fst d.

(** The engine queries [get_keyframe] makes, on a simulation state of
    type [W]: the pose of a body's base, the world frame of a link (entries
    4 and 5 of [p.getLinkState]), and the composition of two transforms. *)
Class Bullet (W : Type) : Type := {
  getBasePositionAndOrientation : W -> Z -> Vec3 * Quat;
  getLinkState : W -> Z -> Z -> Vec3 * Quat;
  multiplyTransforms : Vec3 -> Quat -> Vec3 -> Quat -> Vec3 * Quat
}.

Record LinkTracker : Type := mkLinkTracker {
  type : string;
  name : string;
  body_id : Z;
  link_id : Z;
  link_pose : Vec3 * Quat;
  mesh_path : option string;
  mesh_scale : list R
}.

(** The dict [get_keyframe] returns, with the ["frame"] entry that
    [add_keyframe] adds to it. *)
Record Frame : Type := mkFrame {
  frame_position : Vec3;
  frame_orientation : Quat;
  frame : nat
}.

(** An entry of the dict [get_formatted_output] returns. *)
Record Entry : Type := mkEntry {
  entry_type : string;
  entry_mesh_path : option string;
  entry_mesh_scale : list R;
  frames : list Frame
}.

Record t : Type := mk {
  frame_cnt : nat;
  states : list (list (string * Frame));
  links : list LinkTracker
}.

(** [__init__]. *)
Definition init : t := mk 0 [] [].

Inductive event : Type :=
  | PrintPathIsNone
  | PrintSaving (path : string)
  | PrintFramesNum (n : nat)
  | PickleDump (path : string) (data : list (string * Entry)).

Section Methods.
Context {W : Type} `{Bullet W}.

Definition transform (l : LinkTracker) (position : Vec3) (orientation : Quat)
  : Vec3 * Quat :=
  multiplyTransforms position orientation (fst (link_pose l))
                     (snd (link_pose l)).

(** [get_keyframe], with the frame number [add_keyframe] then stores. *)
Definition get_keyframe (w : W) (l : LinkTracker) (frame_number : nat)
  : Frame :=
  let '(position, orientation) :=
    if (link_id l =? -1)%Z then
      let '(position, orientation) :=
        getBasePositionAndOrientation w (body_id l) in
      transform l position orientation
    else
      let '(position, orientation) := getLinkState w (body_id l) (link_id l) in
      transform l position orientation in
  mkFrame position orientation frame_number.

Definition add_keyframe (w : W) (r : t) : t :=
  let current_state :=
    fold_left (fun current_state link =>
                 dict_set current_state (name link)
                          (get_keyframe w link (frame_cnt r)))
              (links r) [] in
  mk (S (frame_cnt r)) (states r ++ [current_state]) (links r).

Definition reset (r : t) : t := mk (frame_cnt r) [] (links r).

(** The list comprehension
    [[state[link.name] for state in self.states if link.name in state]]. *)
Definition frames_of (link_name : string)
    (states : list (list (string * Frame))) : list Frame :=
  flat_map (fun state => match dict_get state link_name with
                         | Some f => [f]
                         | None => []
                         end) states.

(** [get_formatted_output]: the dict it returns and the line it prints. *)
Definition get_formatted_output (r : t)
  : list (string * Entry) * list event :=
  let retval :=
    fold_left (fun retval link =>
                 dict_set retval (name link)
                          (mkEntry (type link) (mesh_path link)
                                   (mesh_scale link)
                                   (frames_of (name link) (states r))))
              (links r) [] in
  (retval, [PrintFramesNum (List.length (states r))]).

(** [save]: what it prints and writes. *)
Definition save (path : option string) (r : t) : list event :=
  match path with
  | None => [PrintPathIsNone]
  | Some path =>
      let '(data, printed) := get_formatted_output r in
      [PrintSaving path] ++ printed ++ [PickleDump path data]
  end.

(** The recorder after keyframes taken at the simulation states [ws], in
    order. *)
Definition add_keyframes (ws : list W) (r : t) : t :=
  fold_left (fun r w => add_keyframe w r) ws r.

End Methods.

(** The frame numbers stored in the retained keyframes are consecutive and
    end just below the counter: the keyframe at position [k] carries the
    number [frame_cnt - length states + k] on each of its frames. *)
Definition numbered (r : t) : Prop :=
  (List.length (states r) <= frame_cnt r)%nat
  /\ forall k state link_name f,
       nth_error (states r) k = Some state ->
       dict_get state link_name = Some f ->
       frame f = (frame_cnt r - List.length (states r) + k)%nat.

(** The data [get_formatted_output] stores for a link. *)
Definition entry_of (states : list (list (string * Frame)))
    (l : LinkTracker) : Entry :=
  mkEntry (type l) (mesh_path l) (mesh_scale l) (frames_of (name l) states).

(** The last link registered under a name. *)
Definition last_named (link_name : string) (ls : list LinkTracker)
  : option LinkTracker :=
  find (fun l => String.eqb (name l) link_name) (rev ls).

(** A stand-in engine on a one-state simulation: every body and link sits
    at the origin, composing transforms returns the first. *)
Definition still_bullet : Bullet unit := {|
  getBasePositionAndOrientation := fun _ _ => (mkVec3 0 0 0, mkQuat 0 0 0 1);
  getLinkState := fun _ _ _ => (mkVec3 0 0 0, mkQuat 0 0 0 1);
  multiplyTransforms := fun p q _ _ => (p, q)
|}.

(** Two trackers, a base link and a child link, and a recorder that has
    them registered after five keyframes were taken and dropped. *)
Definition base_tracker : LinkTracker :=
  mkLinkTracker "mesh" "arm_1_base_0" 1 (-1)
                (mkVec3 0 0 0, mkQuat 0 0 0 1) (Some "base.obj"%string)
                [1; 1; 1].

Definition hand_tracker : LinkTracker :=
  mkLinkTracker "box" "arm_1_hand_0" 1 6
                (mkVec3 0 0 0, mkQuat 0 0 0 1) None [1; 2; 3].

Definition used_recorder : t := mk 5 [] [base_tracker; hand_tracker].

End PyBulletRecorder.

(* ================================================================== *)
(** ** The angle arithmetic of [sim_rotate_base] in floating point

    The angles of [sim_rotate_base] are Python floats.  Its arithmetic is
    written here once, over the operations it uses, and read in two ways:
    in binary64 itself, where it runs, and in the reals with a rounding
    after every operation that rounds, where it is reasoned about. *)

From Stdlib Require Floats.

Module PyArith.

(** The operations on [float] the rotation uses. *)
Record Arith (F : Type) : Type := mkArith {
  add : F -> F -> F;
  sub : F -> F -> F;
  mul : F -> F -> F;
  rem : F -> F -> F;          (* [x % y] *)
  abs : F -> F;
  ltb : F -> F -> bool;       (* [x < y] *)
  zero : F;
  two : F;
  math_pi : F
}.

Arguments add {F} _ _ _.
Arguments sub {F} _ _ _.
Arguments mul {F} _ _ _.
Arguments rem {F} _ _ _.
Arguments abs {F} _ _.
Arguments ltb {F} _ _ _.
Arguments zero {F} _.
Arguments two {F} _.
Arguments math_pi {F} _.

Section Rotation.
Context {F : Type} (A : Arith F).

(** [(angle + math.pi) % (2 * math.pi) - math.pi], the expression that
    both [shortest_angular_distance] and the pass of the loop end with. *)
Definition wrap (angle : F) : F :=
  sub A (rem A (add A angle (math_pi A)) (mul A (two A) (math_pi A)))
      (math_pi A).

(** [(to_angle - from_angle + math.pi) % (2 * math.pi) - math.pi] *)
Definition shortest_angular_distance (from_angle to_angle : F) : F :=
  sub A (rem A (add A (sub A to_angle from_angle) (math_pi A))
               (mul A (two A) (math_pi A)))
      (math_pi A).

(** The assignments to [current_base_yaw] and [angle_diff] in one pass of
    the [while] of the gradual branch; the engine calls of the pass read
    the new yaw and do not feed back into either. *)
Definition rotate_yaw_step (target_yaw step_size angle_diff yaw : F) : F * F :=
  let yaw1 :=
    if ltb A (zero A) angle_diff then add A yaw step_size
    else sub A yaw step_size in
  let yaw2 :=
    sub A (rem A (add A yaw1 (math_pi A)) (mul A (two A) (math_pi A)))
        (math_pi A) in
  (shortest_angular_distance yaw2 target_yaw, yaw2).

(** [while abs(angle_diff) > step_size: ...] on these two variables:
    the stored yaw at the exit, [None] when the fuel does not cover the
    passes. *)
Fixpoint rotate_yaw_loop (fuel : nat) (target_yaw step_size angle_diff yaw : F)
    {struct fuel} : option F :=
  if ltb A step_size (abs A angle_diff) then
    match fuel with
    | O => None
    | S fuel' =>
        let '(angle_diff', yaw') :=
          rotate_yaw_step target_yaw step_size angle_diff yaw in
        rotate_yaw_loop fuel' target_yaw step_size angle_diff' yaw'
    end
  else Some yaw.

End Rotation.

(** *** binary64 *)

Section Binary64.
Import Floats.

(** C's [fmod] on finite arguments: the remainder of the truncated
    division, which is exact.  Both numbers are brought to the smaller of
    their two exponents and divided as integers. *)
Definition fmod (x y : float) : float :=
  match Prim2SF x, Prim2SF y with
  | S754_finite sx mx ex, S754_finite _ my ey =>
      let e := Z.min ex ey in
      let X := (Zpos mx * 2 ^ (ex - e))%Z in
      let Y := (Zpos my * 2 ^ (ey - e))%Z in
      match (X mod Y)%Z with
      | Zpos r => SF2Prim (S754_finite sx r e)
      | _ => if sx then neg_zero else PrimFloat.zero
      end
  | S754_zero _, S754_finite _ _ _ => x
  | S754_zero _, S754_infinity _ => x
  | S754_finite _ _ _, S754_infinity _ => x
  | _, _ => nan
  end.

(** Python's [x % y] on floats, for [y] other than zero: [fmod], then
    the sign of the divisor is given to the result. *)
Definition float_rem (x y : float) : float :=
  let r := fmod x y in
  if PrimFloat.eqb r PrimFloat.zero then
    (if PrimFloat.ltb y PrimFloat.zero then neg_zero else PrimFloat.zero)
  else if xorb (PrimFloat.ltb y PrimFloat.zero) (PrimFloat.ltb r PrimFloat.zero)
       then PrimFloat.add r y
       else r.

(** [math.pi]. *)
Definition pi64 : float := 0x1.921fb54442d18p+1%float.

Definition binary64 : Arith float :=
  mkArith float PrimFloat.add PrimFloat.sub PrimFloat.mul float_rem
          PrimFloat.abs PrimFloat.ltb PrimFloat.zero 2%float pi64.

(** The steps [1e-17] and [0.02], as Python reads the literals. *)
Definition tiny_step : float := 0x1.70ef54646d497p-57%float.
Definition default_step : float := 0x1.47ae147ae147bp-6%float.

End Binary64.

(** *** Reals with rounding *)

Section Rounded.

(** [rnd] rounds a real to the nearest float; [pi_f] is [math.pi]. *)
Variable rnd : R -> R.
Variable pi_f : R.

Definition Ztrunc (x : R) : Z := if Rlt_dec x 0 then Zceil x else Zfloor x.

(** C's [fmod]: exact. *)
Definition fmod_exact (x y : R) : R := x - y * IZR (Ztrunc (x / y)).

(** Python's [x % y]: the sum that moves the remainder to the sign of the
    divisor is a float addition, and rounds. *)
Definition rem_rounded (x y : R) : R :=
  let r := fmod_exact x y in
  if Req_dec_T r 0 then 0
  else if xorb (PyFloat.ltb y 0) (PyFloat.ltb r 0) then rnd (r + y)
       else r.

Definition rounded : Arith R :=
  mkArith R (fun x y => rnd (x + y)) (fun x y => rnd (x - y))
          (fun x y => rnd (x * y)) rem_rounded Rabs PyFloat.ltb 0 2 pi_f.

End Rounded.

(** Exact arithmetic: nothing rounds, and [math.pi] is the number pi. *)
Definition exact : Arith R := rounded (fun x => x) PI.

(** What the statements ask of the rounding [rnd] and of [pi_f]: on the
    magnitudes up to [M], where nothing overflows, [rnd] is monotone and
    moves a number by at most [eta]; 0, [pi_f], its opposite and its double
    are floats; [pi_f] is positive and its double lies within [M].
    Rounding to the nearest binary64 number does this for the float
    [math.pi] with [eta = M / 2^53], up to the largest finite float. *)
Definition nearest (rnd : R -> R) (pi_f M eta : R) : Prop :=
  (forall x y, Rabs x <= M -> Rabs y <= M -> x <= y -> rnd x <= rnd y)
  /\ (forall x, Rabs x <= M -> Rabs (rnd x - x) <= eta)
  /\ rnd 0 = 0
  /\ rnd pi_f = pi_f
  /\ rnd (- pi_f) = - pi_f
  /\ rnd (2 * pi_f) = 2 * pi_f
  /\ 0 < pi_f
  /\ 2 * pi_f <= M.

(** A coarse format to run the statements on: the multiples of 1/1024,
    rounded to the nearest, with 3217/1024 in the place of [math.pi]. *)
Definition grid_round (x : R) : R := IZR (Zfloor (x * 1024 + 1 / 2)) / 1024.
Definition grid_pi : R := 3217 / 1024.

End PyArith.

(** [sim_rotate_base] over an arithmetic on the reals: the statements are
    those of [sim_rotate_base] above, with the operations on angles taken
    from [A]. *)
Module Rounded.

Section Methods.
Context `{Engine} (A : PyArith.Arith R).

Definition shortest_angular_distance (from_angle to_angle : R) : R :=
  PyArith.shortest_angular_distance A from_angle to_angle.

Definition rotate_step (target_yaw step_size angle_diff : R) (s : Sim)
  : R * Sim :=
  let s1 :=
    if PyArith.ltb A (PyArith.zero A) angle_diff
    then set_current_base_yaw
           (PyArith.add A (current_base_yaw s) step_size) s
    else set_current_base_yaw
           (PyArith.sub A (current_base_yaw s) step_size) s in
  let s2 :=
    set_current_base_yaw
      (PyArith.sub A
         (PyArith.rem A (PyArith.add A (current_base_yaw s1) (PyArith.math_pi A))
                        (PyArith.mul A (PyArith.two A) (PyArith.math_pi A)))
         (PyArith.math_pi A)) s1 in
  let angle_diff' :=
    shortest_angular_distance (current_base_yaw s2) target_yaw in
  let orientation := angle_to_quaternion (current_base_yaw s2) in
  (angle_diff', run None (apply_base_orientation orientation s2)).

Fixpoint rotate_loop (fuel : nat) (target_yaw step_size angle_diff : R)
    (s : Sim) {struct fuel} : option Sim :=
  if PyArith.ltb A step_size (PyArith.abs A angle_diff) then
    match fuel with
    | O => None
    | S fuel' =>
        let '(angle_diff', s') :=
          rotate_step target_yaw step_size angle_diff s in
        rotate_loop fuel' target_yaw step_size angle_diff' s'
    end
  else Some s.

Definition sim_rotate_base (fuel : nat) (target_yaw : R) (gradual : bool)
    (step_size : R) (s : Sim) : option Sim :=
  let s := emit (EnterRotateBase target_yaw gradual) s in
  if gradual then
    let angle_diff :=
      shortest_angular_distance (current_base_yaw s) target_yaw in
    match rotate_loop fuel target_yaw step_size angle_diff s with
    | None => None
    | Some s1 =>
        let orientation := angle_to_quaternion target_yaw in
        let s2 := apply_base_orientation orientation s1 in
        let s3 := set_current_base_yaw target_yaw s2 in
        Some (run None s3)
    end
  else
    let orientation := angle_to_quaternion target_yaw in
    let s1 := apply_base_orientation orientation s in
    Some (run (Some 5%nat) s1).

End Methods.

End Rounded.

(* ================================================================== *)
(** * Properties *)

(** ** Facts about the numerics *)

Module PyFloatFacts.
Import PyFloat.

Lemma ltb_true x y : ltb x y = true <-> x < y.
Proof. unfold ltb; destruct (Rlt_dec x y); split; intros; try easy. Qed.

Lemma ltb_false x y : ltb x y = false <-> y <= x.
Proof.
  unfold ltb; destruct (Rlt_dec x y); split; intros; try easy; lra.
Qed.

Lemma leb_true x y : leb x y = true <-> x <= y.
Proof. unfold leb; destruct (Rle_dec x y); split; intros; try easy. Qed.

Lemma leb_false x y : leb x y = false <-> y < x.
Proof.
  unfold leb; destruct (Rle_dec x y); split; intros; try easy; lra.
Qed.

(** *** Floored remainder *)

Lemma py_mod_bound x m : 0 < m -> 0 <= py_mod x m < m.
Proof.
  intros Hm. unfold py_mod.
  pose proof (Zfloor_bound (x / m)) as [Hlo Hhi].
  assert (Hx : x = m * (x / m)) by (field; lra).
  split.
  - assert (m * IZR (Zfloor (x / m)) <= m * (x / m)) by
      (apply Rmult_le_compat_l; lra).
    lra.
  - assert (m * (x / m) < m * (IZR (Zfloor (x / m)) + 1)) by
      (apply Rmult_lt_compat_l; lra).
    lra.
Qed.

(** Any representation [x = r + m * k] with [0 <= r < m] names the remainder. *)
Lemma py_mod_unique x m r (k : Z) :
  0 < m -> 0 <= r < m -> x = r + m * IZR k -> py_mod x m = r.
Proof.
  intros Hm Hr Hx. unfold py_mod.
  assert (Hq : x / m = r / m + IZR k) by (subst x; field; lra).
  assert (Hfl : Zfloor (x / m) = k).
  { apply Zfloor_eq. rewrite Hq.
    assert (0 <= r / m) by (apply Rmult_le_pos; [lra|];
                            left; apply Rinv_0_lt_compat; lra).
    assert (r / m < 1).
    { apply (Rmult_lt_reg_r m); [lra|].
      replace (r / m * m) with r by (field; lra). lra. }
    lra. }
  rewrite Hfl. lra.
Qed.

Lemma py_mod_small x m : 0 <= x < m -> py_mod x m = x.
Proof.
  intros Hx. apply (py_mod_unique x m x 0%Z); lra.
Qed.

Lemma py_mod_shift x m (k : Z) :
  0 < m -> py_mod (x + m * IZR k) m = py_mod x m.
Proof.
  intros Hm.
  apply (py_mod_unique _ m (py_mod x m) (Zfloor (x / m) + k)%Z).
  - exact Hm.
  - apply py_mod_bound; exact Hm.
  - rewrite plus_IZR. unfold py_mod. lra.
Qed.

Lemma py_mod_decomp x m : x = py_mod x m + m * IZR (Zfloor (x / m)).
Proof. unfold py_mod. lra. Qed.

Lemma two_PI_pos : 0 < 2 * PI.
Proof. pose proof PI_RGT_0. lra. Qed.

End PyFloatFacts.

(** ** Shortest angular distance *)

Section Angles.
Import PyFloat PyFloatFacts.

Lemma sad_range a b :
  - PI <= shortest_angular_distance a b < PI.
Proof.
  unfold shortest_angular_distance.
  pose proof (py_mod_bound (b - a + PI) (2 * PI) two_PI_pos). lra.
Qed.

(** The distance is the difference itself when that lies in [-PI, PI). *)
Lemma sad_small a b :
  - PI <= b - a < PI -> shortest_angular_distance a b = b - a.
Proof.
  intros Hd. unfold shortest_angular_distance.
  rewrite py_mod_small; lra.
Qed.

(** The distance only depends on the difference modulo a full turn. *)
Lemma sad_congr a b a' b' (k : Z) :
  b' - a' = b - a + 2 * PI * IZR k ->
  shortest_angular_distance a' b' = shortest_angular_distance a b.
Proof.
  intros Hk. unfold shortest_angular_distance.
  replace (b' - a' + PI) with (b - a + PI + 2 * PI * IZR k) by lra.
  rewrite py_mod_shift by apply two_PI_pos. reflexivity.
Qed.

Lemma sad_zero_PI : shortest_angular_distance 0 PI = - PI.
Proof.
  unfold shortest_angular_distance.
  rewrite (py_mod_unique (PI - 0 + PI) (2 * PI) 0 1%Z).
  - lra.
  - apply two_PI_pos.
  - pose proof two_PI_pos; lra.
  - lra.
Qed.

Lemma sad_PI_zero : shortest_angular_distance PI 0 = - PI.
Proof.
  unfold shortest_angular_distance.
  rewrite py_mod_small; pose proof two_PI_pos; lra.
Qed.

Lemma sad_refl a : shortest_angular_distance a a = 0.
Proof. apply eq_trans with (a - a); [apply sad_small|]; pose proof PI_RGT_0; lra. Qed.

End Angles.

(** ** PID controller *)

(** C8: [calculate] is a function of the six fields of the controller and
    the measurement, with error = setpoint - measurement and
    output = Kp*error + Ki*integral_accumulator + Kd*derivative; with gains
    (1, 0, 0), setpoint 0 and empty history, calculate(5) returns -5 and
    the following calculate(3) returns -3. *)
Theorem pid_calculate_output :
  (forall (c : PIDController.t) (measurement : R),
      let error := PIDController.setpoint c - measurement in
      fst (PIDController.calculate c measurement)
      = PIDController.Kp c * error
        + PIDController.Ki c * (PIDController.integral c + error)
        + PIDController.Kd c * (error - PIDController.previous_error c))
  /\ (let c0 := PIDController.init 1 0 0 0 in
      let r1 := PIDController.calculate c0 5 in
      let r2 := PIDController.calculate (snd r1) 3 in
      fst r1 = -5 /\ fst r2 = -3).
Proof.
  split.
  - intros c m. reflexivity.
  - cbn. split; lra.
Qed.

(** ** Translation of the base *)

Section Base.
Context `{Engine}.

Lemma world_sync s :
  base_position (world (sim_sync_base_arm_pose s)) = base_position (world s)
  /\ base_orientation (world (sim_sync_base_arm_pose s))
     = base_orientation (world s).
Proof.
  unfold sim_sync_base_arm_pose. destruct (arm_id s); split; reflexivity.
Qed.

Lemma log_sync s : log (sim_sync_base_arm_pose s) = log s ++ sync_events s.
Proof.
  unfold sim_sync_base_arm_pose, sync_events.
  destruct (arm_id s); cbn; [reflexivity | now rewrite app_nil_r].
Qed.

(** C10: [sim_action] resets the base to
    (x + output*cos(yaw), y + output*sin(yaw), z) with the orientation it
    read; afterwards the base's height and orientation are those from
    before the call. *)
Theorem sim_action_moves_xy_only (output : R) (s : Sim) :
  let position := base_position (world s) in
  let orientation := base_orientation (world s) in
  let yaw := v2 (getEulerFromQuaternion orientation) in
  let position' := mkVec3 (v0 position + output * cos yaw)
                          (v1 position + output * sin yaw)
                          (v2 position) in
  let s' := sim_action output s in
  base_position (world s') = position'
  /\ v2 (base_position (world s')) = v2 position
  /\ base_orientation (world s') = orientation
  /\ exists arm_events,
       log s' = log s
                ++ ResetBasePositionAndOrientation BaseBody position'
                     orientation :: arm_events
       /\ forall e, In e arm_events ->
            exists pos orn, e = ResetBasePositionAndOrientation ArmBody pos orn.
Proof.
  cbv zeta. unfold sim_action.
  set (s1 := resetBasePositionAndOrientation BaseBody _ _ s).
  destruct (world_sync s1) as [Hp Ho].
  rewrite Hp, Ho. repeat split; try reflexivity.
  exists (sync_events s1). split.
  - rewrite log_sync. unfold s1. cbn. now rewrite <- app_assoc.
  - unfold sync_events. destruct (arm_id s1); cbn; intros e He.
    + destruct He as [<- | []]. eauto.
    + destruct He.
Qed.

End Base.

(** ** Rotation of the base *)

Section Rotation.
Context `{Engine}.
Import PyFloat PyFloatFacts.

Lemma yaw_sync s :
  current_base_yaw (sim_sync_base_arm_pose s) = current_base_yaw s.
Proof. unfold sim_sync_base_arm_pose. destruct (arm_id s); reflexivity. Qed.

Lemma yaw_apply q s :
  current_base_yaw (apply_base_orientation q s) = current_base_yaw s.
Proof. unfold apply_base_orientation. now rewrite yaw_sync. Qed.

Lemma log_apply q s :
  exists arm_events,
    log (apply_base_orientation q s)
    = log s ++ ResetBasePositionAndOrientation BaseBody
                 (base_position (world s)) q :: arm_events
    /\ last_base_orientation arm_events = None
    /\ rotate_count arm_events = 0%nat.
Proof.
  unfold apply_base_orientation.
  set (s1 := resetBasePositionAndOrientation BaseBody _ _ s).
  exists (sync_events s1). rewrite log_sync. split.
  - unfold s1. cbn. now rewrite <- app_assoc.
  - unfold sync_events. destruct (arm_id s1); split; reflexivity.
Qed.

Lemma last_base_orientation_app l1 l2 :
  last_base_orientation (l1 ++ l2)
  = match last_base_orientation l2 with
    | Some q => Some q
    | None => last_base_orientation l1
    end.
Proof.
  induction l1 as [|e l1 IH]; cbn.
  - now destruct (last_base_orientation l2).
  - rewrite IH. now destruct (last_base_orientation l2).
Qed.

(** Normalising the stored yaw does not change its distance to a target. *)
Lemma sad_normalised y t :
  shortest_angular_distance (py_mod (y + PI) (2 * PI) - PI) t
  = shortest_angular_distance y t.
Proof.
  apply (sad_congr y t _ t (Zfloor ((y + PI) / (2 * PI)))).
  unfold py_mod. lra.
Qed.

(** Moving the yaw by [e] moves the distance by [-e] as long as the result
    stays inside [-PI, PI). *)
Lemma sad_shift y t e :
  - PI <= shortest_angular_distance y t - e < PI ->
  shortest_angular_distance (y + e) t = shortest_angular_distance y t - e.
Proof.
  intros Hr.
  set (d := shortest_angular_distance y t) in *.
  transitivity (shortest_angular_distance 0 (d - e)).
  - apply (sad_congr 0 (d - e) (y + e) t (Zfloor ((t - y + PI) / (2 * PI)))).
    unfold d, shortest_angular_distance, py_mod. lra.
  - rewrite sad_small; lra.
Qed.

Lemma rotate_step_spec target step d s :
  0 < step -> step < Rabs d ->
  d = shortest_angular_distance (current_base_yaw s) target ->
  let d' := fst (rotate_step target step d s) in
  let s' := snd (rotate_step target step d s) in
  d' = shortest_angular_distance (current_base_yaw s') target
  /\ Rabs d' = Rabs d - step.
Proof.
  intros Hstep Hbig Hd. cbv zeta.
  pose proof (sad_range (current_base_yaw s) target) as Hrange.
  rewrite <- Hd in Hrange.
  unfold rotate_step. cbn [fst snd].
  split.
  - unfold run. cbn. rewrite yaw_apply. reflexivity.
  - destruct (ltb 0 d) eqn:Hsign; cbn [current_base_yaw set_current_base_yaw];
      rewrite sad_normalised.
    + apply ltb_true in Hsign.
      rewrite Rabs_right in Hbig by lra.
      rewrite sad_shift; rewrite <- Hd; [|lra].
      rewrite !Rabs_right; lra.
    + apply ltb_false in Hsign.
      rewrite Rabs_left1 in Hbig by lra.
      replace (current_base_yaw s - step)
        with (current_base_yaw s + - step) by lra.
      rewrite sad_shift; rewrite <- Hd; [|lra].
      rewrite !Rabs_left1; lra.
Qed.

(** With [n] passes of fuel the loop covers every distance up to
    [(n + 1) * step_size], and leaves within [step_size] of the target. *)
Lemma rotate_loop_terminates n :
  forall target step d s,
    0 < step ->
    d = shortest_angular_distance (current_base_yaw s) target ->
    Rabs d <= step * (INR n + 1) ->
    exists s',
      rotate_loop n target step d s = Some s'
      /\ Rabs (shortest_angular_distance (current_base_yaw s') target) <= step.
Proof.
  induction n as [|n IH]; intros target step d s Hstep Hd Hle.
  - cbn in Hle. cbn.
    destruct (ltb step (Rabs d)) eqn:Hc.
    + apply ltb_true in Hc. lra.
    + apply ltb_false in Hc. exists s. split; [reflexivity|]. now rewrite <- Hd.
  - cbn [rotate_loop].
    destruct (ltb step (Rabs d)) eqn:Hc.
    + apply ltb_true in Hc.
      destruct (rotate_step_spec target step d s Hstep Hc Hd) as [Hd' Habs].
      destruct (rotate_step target step d s) as [d' s'] eqn:Hrs.
      cbn [fst snd] in Hd', Habs.
      apply IH; [exact Hstep | exact Hd' |].
      rewrite Habs. rewrite S_INR in Hle. lra.
    + apply ltb_false in Hc. exists s. split; [reflexivity|]. now rewrite <- Hd.
Qed.

Lemma rotate_fuel_enough step d n :
  0 < step -> (rotate_fuel step d <= n)%nat -> Rabs d <= step * (INR n + 1).
Proof.
  intros Hstep Hn. unfold rotate_fuel in Hn.
  pose proof (archimed (Rabs d / step)) as [Hup _].
  pose proof (Rabs_pos d) as Hpos.
  assert (Hq : 0 <= Rabs d / step).
  { apply Rmult_le_pos; [exact Hpos|]. left. now apply Rinv_0_lt_compat. }
  assert (Hz : (0 < up (Rabs d / step))%Z).
  { apply lt_IZR. lra. }
  assert (HN : IZR (up (Rabs d / step)) <= INR n).
  { rewrite INR_IZR_INZ. apply IZR_le. lia. }
  assert (Hd : Rabs d = step * (Rabs d / step)) by (field; lra).
  rewrite Hd at 1. apply Rmult_le_compat_l; lra.
Qed.

End Rotation.

Section RotationClaims.
Context `{Engine}.
Import PyFloat PyFloatFacts.

(** What the statements after the loop of the gradual branch leave. *)
Lemma gradual_tail target s1 :
  let s' := run None (set_current_base_yaw target
                        (apply_base_orientation (angle_to_quaternion target) s1)) in
  current_base_yaw s' = target
  /\ last_base_orientation (log s') = Some (angle_to_quaternion target).
Proof.
  cbv zeta. split; [reflexivity|].
  unfold run. cbn [log emit set_world set_current_base_yaw].
  destruct (log_apply (angle_to_quaternion target) s1) as (ev & -> & Hnone & _).
  rewrite !last_base_orientation_app. cbn. rewrite Hnone. reflexivity.
Qed.

Lemma sim_rotate_base_gradual_inv fuel target step s s' :
  sim_rotate_base fuel target true step s = Some s' ->
  current_base_yaw s' = target
  /\ last_base_orientation (log s') = Some (angle_to_quaternion target).
Proof.
  unfold sim_rotate_base.
  destruct (rotate_loop _ _ _ _ _) as [s1|]; [|discriminate].
  intros [= <-]. apply gradual_tail.
Qed.

Lemma sim_rotate_base_gradual_returns target step s fuel :
  0 < step ->
  (rotate_fuel step (shortest_angular_distance (current_base_yaw s) target)
   <= fuel)%nat ->
  exists s1,
    rotate_loop fuel target step
      (shortest_angular_distance (current_base_yaw s) target)
      (emit (EnterRotateBase target true) s) = Some s1
    /\ Rabs (shortest_angular_distance (current_base_yaw s1) target) <= step
    /\ sim_rotate_base fuel target true step s
       = Some (run None
                 (set_current_base_yaw target
                    (apply_base_orientation (angle_to_quaternion target) s1))).
Proof.
  intros Hstep Hfuel.
  destruct (rotate_loop_terminates fuel target step
              (shortest_angular_distance (current_base_yaw s) target)
              (emit (EnterRotateBase target true) s) Hstep eq_refl
              (rotate_fuel_enough _ _ _ Hstep Hfuel)) as (s1 & Hloop & Hclose).
  exists s1. repeat split; [exact Hloop | exact Hclose |].
  unfold sim_rotate_base. cbn [current_base_yaw emit]. now rewrite Hloop.
Qed.

(** C9: the instant branch returns with the target orientation applied to
    the base and the stored yaw as it was; a gradual rotation that follows
    starts its loop from the distance between that old stored yaw and its
    target; the gradual branch, when it returns, has stored its target. *)
Theorem sim_rotate_base_instant_keeps_stored_yaw
    (fuel : nat) (target_yaw step_size : R) (s : Sim) :
  (exists s',
      sim_rotate_base fuel target_yaw false step_size s = Some s'
      /\ last_base_orientation (log s') = Some (angle_to_quaternion target_yaw)
      /\ current_base_yaw s' = current_base_yaw s
      /\ forall fuel2 target2 step2,
           sim_rotate_base fuel2 target2 true step2 s'
           = option_map
               (fun s1 => run None
                            (set_current_base_yaw target2
                               (apply_base_orientation
                                  (angle_to_quaternion target2) s1)))
               (rotate_loop fuel2 target2 step2
                  (shortest_angular_distance (current_base_yaw s) target2)
                  (emit (EnterRotateBase target2 true) s')))
  /\ (forall s'',
        sim_rotate_base fuel target_yaw true step_size s = Some s'' ->
        current_base_yaw s'' = target_yaw).
Proof.
  split.
  - eexists. split; [reflexivity|].
    assert (Hyaw : current_base_yaw
                     (run (Some 5%nat)
                        (apply_base_orientation (angle_to_quaternion target_yaw)
                           (emit (EnterRotateBase target_yaw false) s)))
                   = current_base_yaw s).
    { unfold run. cbn. now rewrite yaw_apply. }
    repeat split.
    + unfold run. cbn [log emit set_world].
      destruct (log_apply (angle_to_quaternion target_yaw)
                  (emit (EnterRotateBase target_yaw false) s))
        as (ev & -> & Hnone & _).
      rewrite !last_base_orientation_app. cbn. rewrite Hnone. reflexivity.
    + exact Hyaw.
    + intros fuel2 target2 step2. unfold sim_rotate_base at 1.
      cbn [current_base_yaw emit]. fold (emit (EnterRotateBase target2 true)).
      rewrite Hyaw.
      now destruct (rotate_loop _ _ _ _ _).
  - intros s'' Hret. now apply (sim_rotate_base_gradual_inv _ _ _ _ _ Hret).
Qed.

End RotationClaims.

Section RotationWitnesses.
#[local] Existing Instance planar_engine.

Lemma sim_rotate_base_instant_keeps_stored_yaw_witness :
  exists fuel s'',
    sim_rotate_base fuel 1 true (1 / 2) origin_sim = Some s''
    /\ current_base_yaw s'' = 1.
Proof.
  assert (Hstep : 0 < 1 / 2) by lra.
  set (fuel := rotate_fuel (1 / 2)
                 (shortest_angular_distance (current_base_yaw origin_sim) 1)).
  destruct (sim_rotate_base_gradual_returns 1 (1 / 2) origin_sim fuel Hstep
              (le_n fuel)) as (s1 & _ & _ & Hret).
  exists fuel. eexists. split; [exact Hret|].
  exact (proj2 (sim_rotate_base_instant_keeps_stored_yaw fuel 1 (1 / 2)
                  origin_sim) _ Hret).
Defined.

End RotationWitnesses.

(** ** Moving the base to a waypoint *)

Section Waypoint.
Context `{Engine}.
Import PyFloat PyFloatFacts.

Lemma rotate_count_app l1 l2 :
  rotate_count (l1 ++ l2) = (rotate_count l1 + rotate_count l2)%nat.
Proof. unfold rotate_count. now rewrite filter_app, length_app. Qed.

Lemma base_rotated_sync s :
  base_rotated (sim_sync_base_arm_pose s) = base_rotated s.
Proof. unfold sim_sync_base_arm_pose. destruct (arm_id s); reflexivity. Qed.

Lemma base_rotated_apply q s :
  base_rotated (apply_base_orientation q s) = base_rotated s.
Proof. unfold apply_base_orientation. now rewrite base_rotated_sync. Qed.

Lemma rotate_step_log target step d s :
  exists evs,
    log (snd (rotate_step target step d s)) = log s ++ evs
    /\ rotate_count evs = 0%nat
    /\ base_rotated (snd (rotate_step target step d s)) = base_rotated s.
Proof.
  unfold rotate_step. cbn [snd].
  set (s2 := set_current_base_yaw _ _).
  assert (Hlog2 : log s2 = log s) by (unfold s2; destruct (ltb 0 d); reflexivity).
  assert (Hrot2 : base_rotated s2 = base_rotated s)
    by (unfold s2; destruct (ltb 0 d); reflexivity).
  destruct (log_apply (angle_to_quaternion (current_base_yaw s2)) s2)
    as (ev & Hlog & _ & Hcount).
  exists (ResetBasePositionAndOrientation BaseBody (base_position (world s2))
            (angle_to_quaternion (current_base_yaw s2)) :: ev ++ [ClientRun None]).
  repeat split.
  - unfold run. cbn [log emit set_world]. rewrite Hlog, Hlog2.
    rewrite <- app_assoc. reflexivity.
  - change (rotate_count (ev ++ [ClientRun None]) = 0%nat).
    rewrite rotate_count_app, Hcount. reflexivity.
  - unfold run. cbn [base_rotated emit set_world].
    now rewrite base_rotated_apply.
Qed.

Lemma rotate_loop_log fuel :
  forall target step d s s',
    rotate_loop fuel target step d s = Some s' ->
    exists evs,
      log s' = log s ++ evs /\ rotate_count evs = 0%nat
      /\ base_rotated s' = base_rotated s.
Proof.
  induction fuel as [|fuel IH]; intros target step d s s'; cbn [rotate_loop].
  - destruct (ltb step (Rabs d)); [discriminate|]. intros [= <-].
    exists []. now rewrite app_nil_r.
  - destruct (ltb step (Rabs d)).
    + destruct (rotate_step_log target step d s) as (ev1 & Hl1 & Hc1 & Hb1).
      destruct (rotate_step target step d s) as [d1 s1]. cbn [snd] in *.
      intros Hloop. destruct (IH _ _ _ _ _ Hloop) as (ev2 & Hl2 & Hc2 & Hb2).
      exists (ev1 ++ ev2). repeat split.
      * now rewrite Hl2, Hl1, app_assoc.
      * now rewrite rotate_count_app, Hc1, Hc2.
      * congruence.
    + intros [= <-]. exists []. now rewrite app_nil_r.
Qed.

Lemma sim_rotate_base_log fuel target gradual step s s' :
  sim_rotate_base fuel target gradual step s = Some s' ->
  exists evs,
    log s' = log s ++ EnterRotateBase target gradual :: evs
    /\ rotate_count evs = 0%nat
    /\ base_rotated s' = base_rotated s.
Proof.
  unfold sim_rotate_base. destruct gradual.
  - destruct (rotate_loop _ _ _ _ _) as [s1|] eqn:Hloop; [|discriminate].
    intros [= <-].
    destruct (rotate_loop_log _ _ _ _ _ _ Hloop) as (ev1 & Hl1 & Hc1 & Hb1).
    destruct (log_apply (angle_to_quaternion target) s1) as (ev2 & Hl2 & _ & Hc2).
    exists (ev1 ++ ResetBasePositionAndOrientation BaseBody
                     (base_position (world s1)) (angle_to_quaternion target)
                   :: ev2 ++ [ClientRun None]).
    repeat split.
    + unfold run. cbn [log emit set_world set_current_base_yaw].
      rewrite Hl2, Hl1. cbn [log emit]. rewrite <- !app_assoc. reflexivity.
    + rewrite rotate_count_app, Hc1.
      change (rotate_count (ev2 ++ [ClientRun None]) = 0%nat).
      now rewrite rotate_count_app, Hc2.
    + unfold run. cbn [base_rotated emit set_world set_current_base_yaw].
      now rewrite base_rotated_apply, Hb1.
  - intros [= <-].
    destruct (log_apply (angle_to_quaternion target)
                (emit (EnterRotateBase target false) s)) as (ev2 & Hl2 & _ & Hc2).
    exists (ResetBasePositionAndOrientation BaseBody
              (base_position (world (emit (EnterRotateBase target false) s)))
              (angle_to_quaternion target) :: ev2 ++ [ClientRun (Some 5%nat)]).
    repeat split.
    + unfold run. cbn [log emit set_world]. rewrite Hl2. cbn [log emit].
      rewrite <- !app_assoc. reflexivity.
    + change (rotate_count (ev2 ++ [ClientRun (Some 5%nat)]) = 0%nat).
      now rewrite rotate_count_app, Hc2.
    + unfold run. cbn [base_rotated emit set_world].
      now rewrite base_rotated_apply.
Qed.

Lemma sim_action_log output s :
  exists evs,
    log (sim_action output s) = log s ++ evs
    /\ rotate_count evs = 0%nat
    /\ filter is_client_run evs = []
    /\ base_rotated (sim_action output s) = base_rotated s
    /\ next_waypoint (sim_action output s) = next_waypoint s.
Proof.
  unfold sim_action.
  set (s1 := resetBasePositionAndOrientation BaseBody _ _ s).
  exists (ResetBasePositionAndOrientation BaseBody
            (mkVec3 (v0 (base_position (world s))
                     + output * cos (v2 (getEulerFromQuaternion
                                           (base_orientation (world s)))))
                    (v1 (base_position (world s))
                     + output * sin (v2 (getEulerFromQuaternion
                                           (base_orientation (world s)))))
                    (v2 (base_position (world s))))
            (base_orientation (world s)) :: sync_events s1).
  rewrite log_sync, base_rotated_sync.
  repeat split.
  - unfold s1. cbn. now rewrite <- app_assoc.
  - unfold sync_events. now destruct (arm_id s1).
  - unfold sync_events. now destruct (arm_id s1).
  - unfold sim_sync_base_arm_pose. now destruct (arm_id s1).
Qed.

End Waypoint.

Section WaypointClaims.
Context `{Engine}.
Import PyFloat PyFloatFacts.

Lemma next_waypoint_sync s :
  next_waypoint (sim_sync_base_arm_pose s) = next_waypoint s.
Proof. unfold sim_sync_base_arm_pose. destruct (arm_id s); reflexivity. Qed.

Lemma next_waypoint_rotate_step target step d s :
  next_waypoint (snd (rotate_step target step d s)) = next_waypoint s.
Proof.
  unfold rotate_step, run, apply_base_orientation. cbn.
  rewrite next_waypoint_sync. cbn. now destruct (ltb 0 d).
Qed.

Lemma next_waypoint_rotate_loop fuel :
  forall target step d s s',
    rotate_loop fuel target step d s = Some s' ->
    next_waypoint s' = next_waypoint s.
Proof.
  induction fuel as [|fuel IH]; intros target step d s s'; cbn [rotate_loop];
    destruct (ltb step (Rabs d)); try discriminate; try (now intros [= <-]).
  pose proof (next_waypoint_rotate_step target step d s) as Hw.
  destruct (rotate_step target step d s) as [d1 s1]. cbn [snd] in Hw.
  intros Hloop. now rewrite (IH _ _ _ _ _ Hloop).
Qed.

Lemma next_waypoint_rotate fuel target gradual step s s' :
  sim_rotate_base fuel target gradual step s = Some s' ->
  next_waypoint s' = next_waypoint s.
Proof.
  unfold sim_rotate_base. destruct gradual.
  - destruct (rotate_loop _ _ _ _ _) as [s1|] eqn:Hloop; [|discriminate].
    intros [= <-]. unfold run, apply_base_orientation. cbn.
    rewrite next_waypoint_sync. cbn.
    now rewrite (next_waypoint_rotate_loop _ _ _ _ _ _ Hloop).
  - intros [= <-]. unfold run, apply_base_orientation. cbn.
    now rewrite next_waypoint_sync.
Qed.

(** The log of one pass: the rotation (only with the base not yet rotated),
    the translation, then the loop's own tick when the pass number is a
    multiple of 20. *)
Lemma waypoint_step_log fuel cnt d s s' :
  waypoint_step fuel cnt d s = Some s' ->
  exists rot act,
    log s' = log s ++ rot ++ act ++ tick_events cnt
    /\ rotate_count rot = (if base_rotated s then 0 else 1)%nat
    /\ (base_rotated s = true -> rot = [])
    /\ rotate_count act = 0%nat
    /\ filter is_client_run act = []
    /\ base_rotated s' = true
    /\ next_waypoint s' = next_waypoint s.
Proof.
  unfold waypoint_step, tick_events.
  generalize (cnt mod 20 =? 0)%nat. intros due.
  destruct (PIDController.calculate _ d) as [output c].
  set (s2 := set_distance_controller c _).
  assert (Hl2 : log s2 = log s) by reflexivity.
  assert (Hb2 : base_rotated s2 = base_rotated s) by reflexivity.
  assert (Hw2 : next_waypoint s2 = next_waypoint s) by reflexivity.
  rewrite Hb2. set (yaw := atan2 _ _).
  assert (Htick : forall s4 pre evs,
             log s4 = pre ++ evs ->
             log (if due then run None s4 else s4)
             = pre ++ evs ++ (if due then [ClientRun None] else [])).
  { intros s4 pre evs Hl4. destruct due.
    - unfold run. cbn [log emit set_world]. now rewrite Hl4, <- app_assoc.
    - now rewrite app_nil_r. }
  assert (Hframe : forall s4,
             base_rotated (if due then run None s4 else s4) = base_rotated s4
             /\ next_waypoint (if due then run None s4 else s4)
                = next_waypoint s4).
  { intros s4. now destruct due. }
  destruct (base_rotated s) eqn:Hb; cbn [negb].
  - intros [= <-].
    destruct (sim_action_log (- output) s2) as (act & Hl & Hc & Hr & Hbr & Hw).
    destruct (Hframe (sim_action (- output) s2)) as [Hf1 Hf2].
    exists [], act. cbn [app]. rewrite Hf1, Hf2.
    repeat split; try assumption; try reflexivity; try congruence.
    apply Htick. now rewrite Hl, Hl2.
  - destruct (sim_rotate_base fuel yaw true default_step_size s2) as [sr|] eqn:Hrot;
      cbn [option_map]; [|discriminate].
    intros [= <-].
    destruct (sim_rotate_base_log _ _ _ _ _ _ Hrot) as (ev & Hlr & Hcr & Hbr).
    pose proof (next_waypoint_rotate _ _ _ _ _ _ Hrot) as Hwr.
    set (s3 := set_base_rotated true sr).
    destruct (sim_action_log (- output) s3) as (act & Hl & Hc & Hr & Hba & Hw).
    destruct (Hframe (sim_action (- output) s3)) as [Hf1 Hf2].
    exists (EnterRotateBase yaw true :: ev), act.
    assert (Hl3 : log s3 = log s ++ EnterRotateBase yaw true :: ev)
      by (unfold s3; cbn; now rewrite Hlr, Hl2).
    rewrite Hf1, Hf2.
    repeat split; try assumption; try discriminate.
    + rewrite app_assoc. apply Htick. now rewrite Hl, Hl3.
    + change (S (rotate_count ev) = 1%nat). now rewrite Hcr.
    + rewrite Hw. unfold s3. cbn. congruence.
Qed.

(** With the base already rotated a pass is the translation alone. *)
Lemma waypoint_step_rotated fuel cnt s :
  base_rotated s = true ->
  waypoint_step fuel cnt (waypoint_distance s) s = Some (translate_only cnt s).
Proof.
  intros Hb. unfold waypoint_step, translate_only.
  destruct (PIDController.calculate _ _) as [output c]. cbn [fst snd].
  cbn [base_rotated set_distance_controller]. rewrite Hb. reflexivity.
Qed.

Lemma waypoint_loop_exit fuel :
  forall threshold cnt s s',
    waypoint_loop fuel threshold cnt s = Some s' ->
    waypoint_distance s' < threshold /\ next_waypoint s' = next_waypoint s.
Proof.
  induction fuel as [|fuel IH]; intros threshold cnt s s'; cbn [waypoint_loop];
    destruct (ltb (waypoint_distance s) threshold) eqn:Hc.
  - intros [= <-]. now apply ltb_true in Hc.
  - discriminate.
  - intros [= <-]. now apply ltb_true in Hc.
  - destruct (waypoint_step fuel cnt (waypoint_distance s) s) as [s1|] eqn:Hs;
      [|discriminate].
    intros Hloop. destruct (IH _ _ _ _ Hloop) as [Hd Hw].
    destruct (waypoint_step_log _ _ _ _ _ Hs) as (? & ? & _ & _ & _ & _ & _ & _ & Hw1).
    split; [exact Hd | congruence].
Qed.

Lemma waypoint_loop_count fuel :
  forall threshold cnt s s',
    waypoint_loop fuel threshold cnt s = Some s' ->
    rotate_count (log s')
    = (rotate_count (log s)
       + (if base_rotated s || ltb (waypoint_distance s) threshold
          then 0 else 1))%nat.
Proof.
  induction fuel as [|fuel IH]; intros threshold cnt s s'; cbn [waypoint_loop];
    destruct (ltb (waypoint_distance s) threshold) eqn:Hc.
  - intros [= <-]. rewrite orb_true_r. lia.
  - discriminate.
  - intros [= <-]. rewrite orb_true_r. lia.
  - destruct (waypoint_step fuel cnt (waypoint_distance s) s) as [s1|] eqn:Hs;
      [|discriminate].
    intros Hloop. rewrite (IH _ _ _ _ Hloop).
    destruct (waypoint_step_log _ _ _ _ _ Hs)
      as (rot & act & Hl & Hcr & _ & Hca & _ & Hb1 & _).
    rewrite Hb1. cbn [orb]. rewrite Hl, !rotate_count_app, Hcr, Hca.
    assert (Ht : rotate_count (tick_events cnt) = 0%nat)
      by (unfold tick_events; now destruct (cnt mod 20 =? 0)%nat).
    rewrite Ht, orb_false_r. destruct (base_rotated s); lia.
Qed.

(** The gradual branch logs its entry, the calls of its passes and of the
    final snap, and ends with its own [client.run()]. *)
Lemma sim_rotate_base_gradual_log fuel target step s s' :
  sim_rotate_base fuel target true step s = Some s' ->
  exists ev,
    log s' = log s ++ EnterRotateBase target true :: ev ++ [ClientRun None].
Proof.
  unfold sim_rotate_base.
  destruct (rotate_loop _ _ _ _ _) as [s1|] eqn:Hloop; [|discriminate].
  intros [= <-].
  destruct (rotate_loop_log _ _ _ _ _ _ Hloop) as (ev1 & Hl1 & _ & _).
  destruct (log_apply (angle_to_quaternion target) s1) as (ev2 & Hl2 & _ & _).
  exists (ev1 ++ ResetBasePositionAndOrientation BaseBody
                   (base_position (world s1)) (angle_to_quaternion target)
                 :: ev2).
  unfold run. cbn [log emit set_world set_current_base_yaw].
  rewrite Hl2, Hl1. cbn [log emit]. rewrite <- !app_assoc. reflexivity.
Qed.

(** The log of one pass: the rotation when the base is not yet rotated,
    which is the whole log of that call of [sim_rotate_base]; the
    translation, without a tick; the loop's tick when it is due. *)
Lemma waypoint_step_trace fuel cnt d s s' :
  waypoint_step fuel cnt d s = Some s' ->
  exists rot act,
    log s' = log s ++ rot ++ act ++ tick_events cnt
    /\ filter is_client_run act = []
    /\ (base_rotated s = true -> rot = [])
    /\ (base_rotated s = false ->
        exists yaw s2 sr ev,
          sim_rotate_base fuel yaw true default_step_size s2 = Some sr
          /\ log s2 = log s
          /\ log sr = log s2 ++ rot
          /\ rot = EnterRotateBase yaw true :: ev ++ [ClientRun None])
    /\ base_rotated s' = true.
Proof.
  unfold waypoint_step, tick_events.
  generalize (cnt mod 20 =? 0)%nat. intros due.
  destruct (PIDController.calculate _ d) as [output c].
  set (s2 := set_distance_controller c _).
  assert (Hl2 : log s2 = log s) by reflexivity.
  assert (Hb2 : base_rotated s2 = base_rotated s) by reflexivity.
  rewrite Hb2. set (yaw := atan2 _ _).
  assert (Htick : forall s4 pre evs,
             log s4 = pre ++ evs ->
             log (if due then run None s4 else s4)
             = pre ++ evs ++ (if due then [ClientRun None] else [])).
  { intros s4 pre evs Hl4. destruct due.
    - unfold run. cbn [log emit set_world]. now rewrite Hl4, <- app_assoc.
    - now rewrite app_nil_r. }
  assert (Hframe : forall s4,
             base_rotated (if due then run None s4 else s4) = base_rotated s4).
  { intros s4. now destruct due. }
  destruct (base_rotated s) eqn:Hb; cbn [negb].
  - intros [= <-].
    destruct (sim_action_log (- output) s2) as (act & Hl & _ & Hr & Hbr & _).
    exists [], act. cbn [app]. rewrite Hframe.
    split; [apply Htick; now rewrite Hl, Hl2|].
    split; [exact Hr|]. split; [reflexivity|].
    split; [discriminate | congruence].
  - destruct (sim_rotate_base fuel yaw true default_step_size s2) as [sr|] eqn:Hrot;
      cbn [option_map]; [|discriminate].
    intros [= <-].
    destruct (sim_rotate_base_gradual_log _ _ _ _ _ Hrot) as (ev & Hlr).
    set (s3 := set_base_rotated true sr).
    destruct (sim_action_log (- output) s3) as (act & Hl & _ & Hr & Hba & _).
    exists (EnterRotateBase yaw true :: ev ++ [ClientRun None]), act.
    rewrite Hframe.
    split.
    { rewrite app_assoc. apply Htick. rewrite Hl. unfold s3.
      cbn [log set_base_rotated]. now rewrite Hlr, Hl2. }
    split; [exact Hr|]. split; [discriminate|].
    split; [|rewrite Hba; reflexivity].
    intros _. exists yaw, s2, sr, ev. repeat split; assumption.
Qed.

Lemma passes_log_cons cnt act acts :
  passes_log cnt (act :: acts)
  = act ++ tick_events cnt ++ passes_log (S cnt) acts.
Proof.
  unfold passes_log, tick_events. cbn [length seq combine flat_map fst snd].
  now rewrite <- app_assoc.
Qed.

(** The log of the loop: the rotation of the first pass, then the passes
    in their order. *)
Lemma waypoint_loop_trace fuel :
  forall threshold cnt s s',
    waypoint_loop fuel threshold cnt s = Some s' ->
    exists rot acts,
      log s' = log s ++ rot ++ passes_log cnt acts
      /\ length acts = waypoint_passes fuel threshold cnt s
      /\ Forall (fun act => filter is_client_run act = []) acts
      /\ (base_rotated s = true \/ acts = [] -> rot = [])
      /\ (base_rotated s = false -> acts <> [] ->
          exists fuel' yaw s2 sr ev,
            sim_rotate_base fuel' yaw true default_step_size s2 = Some sr
            /\ log s2 = log s
            /\ log sr = log s2 ++ rot
            /\ rot = EnterRotateBase yaw true :: ev ++ [ClientRun None]).
Proof.
  assert (Hexit : forall s : Sim,
             exists rot acts,
               log s = log s ++ rot ++ passes_log 0 acts
               /\ length acts = 0%nat
               /\ Forall (fun act => filter is_client_run act = []) acts
               /\ rot = [] /\ acts = []).
  { intros s. exists [], []. cbn. rewrite app_nil_r. repeat split.
    constructor. }
  induction fuel as [|fuel IH]; intros threshold cnt s s';
    cbn [waypoint_loop waypoint_passes];
    destruct (ltb (waypoint_distance s) threshold) eqn:Hc;
    try discriminate;
    try (intros [= <-]; exists [], []; cbn; rewrite app_nil_r;
         repeat split; [constructor | congruence]).
  destruct (waypoint_step fuel cnt (waypoint_distance s) s) as [s1|] eqn:Hs;
    [|discriminate].
  intros Hloop.
  destruct (waypoint_step_trace _ _ _ _ _ Hs)
    as (rot & act & Hl1 & Hact & Hrot1 & Hrot0 & Hb1).
  destruct (IH _ _ _ _ Hloop) as (rot' & acts & Hl & Hlen & Hall & Hnil & _).
  rewrite (Hnil (or_introl Hb1)) in Hl. cbn [app] in Hl.
  exists rot, (act :: acts).
  split; [rewrite Hl, Hl1, passes_log_cons, <- !app_assoc; reflexivity|].
  split; [cbn [length]; now rewrite Hlen|].
  split; [now constructor|].
  split.
  - intros [Hb | Hnone]; [now apply Hrot1 | discriminate].
  - intros Hb _. destruct (Hrot0 Hb) as (yaw & s2 & sr & ev & H1 & H2 & H3 & H4).
    exists fuel, yaw, s2, sr, ev. repeat split; assumption.
Qed.

End WaypointClaims.

Section WaypointTheorems.
Context `{Engine}.
Import PyFloat PyFloatFacts.

(** C4, as the code has it: when the loop of [sim_move_base_to_waypoint]
    exits, the distance in the plane from the base to the waypoint is
    strictly below the threshold, and the method ends with one more
    [client.run()] after the loop.  The log of the call is the rotation of
    the first pass followed by the passes in their order, numbered from 1:
    each pass logs its translation, which issues no engine step, and then
    the loop's own [client.run()] exactly when its number is a multiple of
    20.  The rotation is the whole log of the one call of
    [sim_rotate_base]; it is there as soon as the loop makes a pass, and it
    ends with that method's own [client.run()]: engine steps are also
    issued in pass 1. *)
Theorem sim_move_base_to_waypoint_exit_and_ticks
    (fuel : nat) (waypoint : Pose) (threshold : R) (s s'' : Sim) :
  sim_move_base_to_waypoint fuel waypoint threshold s = Some s'' ->
  exists s' rot acts,
    waypoint_loop fuel threshold 1 (waypoint_entry waypoint s) = Some s'
    /\ sqrt ((pose_y waypoint - pose_y (sim_get_current_base_pose s')) ^ 2
             + (pose_x waypoint - pose_x (sim_get_current_base_pose s')) ^ 2)
       < threshold
    /\ s'' = run None s'
    /\ log s'' = log s ++ rot ++ passes_log 1 acts ++ [ClientRun None]
    /\ length acts
       = waypoint_passes fuel threshold 1 (waypoint_entry waypoint s)
    /\ Forall (fun act => filter is_client_run act = []) acts
    /\ (acts = [] -> rot = [])
    /\ (acts <> [] ->
        exists fuel' yaw s2 sr ev,
          sim_rotate_base fuel' yaw true default_step_size s2 = Some sr
          /\ log s2 = log s
          /\ log sr = log s2 ++ rot
          /\ rot = EnterRotateBase yaw true :: ev ++ [ClientRun None]).
Proof.
  intros Hret. unfold sim_move_base_to_waypoint in Hret.
  destruct (waypoint_loop fuel threshold 1 (waypoint_entry waypoint s))
    as [s'|] eqn:Hloop; [|discriminate].
  cbn [option_map] in Hret. injection Hret as <-.
  destruct (waypoint_loop_exit _ _ _ _ _ Hloop) as [Hd Hw].
  destruct (waypoint_loop_trace _ _ _ _ _ Hloop)
    as (rot & acts & Hl & Hlen & Hall & Hnil & Hrot).
  exists s', rot, acts.
  split; [reflexivity|].
  split; [unfold waypoint_distance in Hd; rewrite Hw in Hd; exact Hd|].
  split; [reflexivity|].
  split; [unfold run; cbn [log emit set_world]; rewrite Hl;
          cbn [log waypoint_entry set_base_rotated set_target_distance
               set_next_waypoint];
          rewrite <- !app_assoc; reflexivity|].
  split; [exact Hlen|]. split; [exact Hall|].
  split; [intros Hnone; apply Hnil; now right|].
  intros Hne. exact (Hrot eq_refl Hne).
Qed.

(** C6: a call of [sim_move_base_to_waypoint] enters [sim_rotate_base] at
    most once: never when the loop exits at its first test, once
    otherwise.  The pass that finds the base not yet rotated enters it and
    sets the flag; a pass that finds the flag set is the translation alone
    and leaves the flag set. *)
Theorem sim_move_base_to_waypoint_rotates_once
    (fuel : nat) (waypoint : Pose) (threshold : R) (s s'' : Sim) :
  sim_move_base_to_waypoint fuel waypoint threshold s = Some s'' ->
  rotate_count (log s'')
  = (rotate_count (log s)
     + (if ltb (waypoint_distance (waypoint_entry waypoint s)) threshold
        then 0 else 1))%nat
  /\ (forall fuel' cnt s0 s1,
         base_rotated s0 = false ->
         waypoint_step fuel' cnt (waypoint_distance s0) s0 = Some s1 ->
         rotate_count (log s1) = S (rotate_count (log s0))
         /\ base_rotated s1 = true)
  /\ (forall fuel' cnt s0,
         base_rotated s0 = true ->
         waypoint_step fuel' cnt (waypoint_distance s0) s0
         = Some (translate_only cnt s0)
         /\ rotate_count (log (translate_only cnt s0)) = rotate_count (log s0)
         /\ base_rotated (translate_only cnt s0) = true).
Proof.
  intros Hret. unfold sim_move_base_to_waypoint in Hret.
  destruct (waypoint_loop fuel threshold 1 (waypoint_entry waypoint s))
    as [s'|] eqn:Hloop; [|discriminate].
  cbn [option_map] in Hret. injection Hret as <-.
  assert (Hticks : forall cnt, rotate_count (tick_events cnt) = 0%nat)
    by (intros cnt; unfold tick_events; now destruct (cnt mod 20 =? 0)%nat).
  split; [|split].
  - unfold run. cbn [log emit set_world]. rewrite rotate_count_app.
    rewrite (waypoint_loop_count _ _ _ _ _ Hloop).
    change (rotate_count [ClientRun None]) with 0%nat.
    change (base_rotated (waypoint_entry waypoint s)) with false.
    change (log (waypoint_entry waypoint s)) with (log s).
    cbn [orb]. lia.
  - intros fuel' cnt s0 s1 Hb Hstep.
    destruct (waypoint_step_log _ _ _ _ _ Hstep)
      as (rot & act & Hl & Hcr & _ & Hca & _ & Hb1 & _).
    split; [|exact Hb1].
    rewrite Hb in Hcr. rewrite Hl, !rotate_count_app, Hcr, Hca, Hticks. lia.
  - intros fuel' cnt s0 Hb.
    pose proof (waypoint_step_rotated fuel' cnt s0 Hb) as Hstep.
    destruct (waypoint_step_log _ _ _ _ _ Hstep)
      as (rot & act & Hl & Hcr & _ & Hca & _ & Hb1 & _).
    split; [exact Hstep | split; [|exact Hb1]].
    rewrite Hb in Hcr. rewrite Hl, !rotate_count_app, Hcr, Hca, Hticks. lia.
Qed.

End WaypointTheorems.

(** *** A run of one pass *)

Section WaypointWitnesses.
#[local] Existing Instance planar_engine.
Import PyFloat PyFloatFacts.

Lemma atan2_east y x : y = 0 -> 0 < x -> atan2 y x = 0.
Proof.
  intros -> Hx. unfold atan2. destruct (Rlt_dec 0 x); [|contradiction].
  replace (0 / x) with 0 by (field; lra). apply atan_0.
Qed.

Lemma waypoint_distance_after_action output s :
  waypoint_distance (sim_action output s)
  = sqrt ((pose_y (next_waypoint s)
           - (v1 (base_position (world s))
              + output * sin (v2 (getEulerFromQuaternion
                                    (base_orientation (world s)))))) ^ 2
          + (pose_x (next_waypoint s)
             - (v0 (base_position (world s))
                + output * cos (v2 (getEulerFromQuaternion
                                      (base_orientation (world s)))))) ^ 2).
Proof.
  unfold waypoint_distance, sim_get_current_base_pose, pose_x, pose_y, sim_action.
  set (s1 := resetBasePositionAndOrientation BaseBody _ _ s).
  destruct (world_sync s1) as [-> _]. rewrite next_waypoint_sync.
  reflexivity.
Qed.

Lemma east_distance_at_entry :
  waypoint_distance (waypoint_entry east_waypoint origin_sim) = 1.
Proof.
  unfold waypoint_distance, pose_x, pose_y. cbn -[pow].
  replace ((0 - 0) ^ 2 + (1 - 0) ^ 2) with 1 by ring. apply sqrt_1.
Qed.

(** The distance left after the proportional step along the heading. *)
Lemma east_distance_after_pass :
  sqrt ((0 - (0 + - (1 * (0 - 1) + 0 * (0 + (0 - 1)) + 0 * (0 - 1 - 0))
                   * sin (2 * atan2 (sin (0 / 2)) (cos (0 / 2))))) ^ 2
        + (1 - (0 + - (1 * (0 - 1) + 0 * (0 + (0 - 1)) + 0 * (0 - 1 - 0))
                     * cos (2 * atan2 (sin (0 / 2)) (cos (0 / 2))))) ^ 2)
  = 0.
Proof.
  replace (0 / 2) with 0 by field.
  rewrite sin_0, cos_0, (atan2_east 0 1) by lra.
  replace (2 * 0) with 0 by ring. rewrite sin_0, cos_0.
  match goal with |- sqrt ?e = 0 => replace e with 0 by ring end.
  apply sqrt_0.
Qed.

(** From the origin, with gains (1, 0, 0), the waypoint one unit ahead is
    reached in one pass: the loop exits at its second test. *)
Lemma east_waypoint_one_pass :
  exists s',
    sim_move_base_to_waypoint 1 east_waypoint (1 / 100) origin_sim = Some s'.
Proof.
  unfold sim_move_base_to_waypoint.
  cbn [waypoint_loop]. rewrite east_distance_at_entry.
  assert (Hc0 : ltb 1 (1 / 100) = false) by (apply ltb_false; lra).
  rewrite Hc0.
  unfold waypoint_step.
  cbn -[IZR Rabs atan2 ltb pow sqrt sin cos Rdiv shortest_angular_distance
        Nat.modulo].
  rewrite (atan2_east (0 - 0) (1 - 0)) by lra.
  rewrite sad_refl, Rabs_R0.
  assert (Hc1 : ltb default_step_size 0 = false)
    by (apply ltb_false; unfold default_step_size; lra).
  rewrite Hc1.
  cbn [option_map].
  change (1 mod 20 =? 0)%nat with false. cbv iota.
  rewrite waypoint_distance_after_action.
  set (sr := set_base_rotated true _).
  change (next_waypoint sr) with east_waypoint.
  change (base_position (world sr)) with (mkVec3 0 0 0).
  change (base_orientation (world sr)) with (angle_to_quaternion 0).
  unfold pose_x, pose_y, east_waypoint, angle_to_quaternion.
  cbn [getEulerFromQuaternion planar_engine position v0 v1 v2 q2 q3].
  rewrite east_distance_after_pass.
  assert (Hc2 : ltb 0 (1 / 100) = true) by (apply ltb_true; lra).
  rewrite Hc2. cbn [option_map]. eexists. reflexivity.
Qed.

(** C4 as worded fails in the first pass: the run from the origin to the
    waypoint one unit ahead makes one pass, numbered 1, and its log has
    two engine steps, the one after the loop and one issued inside the
    pass by [sim_rotate_base]. *)
Lemma sim_move_base_to_waypoint_first_pass_ticks :
  exists s'',
    sim_move_base_to_waypoint 1 east_waypoint (1 / 100) origin_sim = Some s''
    /\ log origin_sim = []
    /\ waypoint_passes 1 (1 / 100) 1 (waypoint_entry east_waypoint origin_sim)
       = 1%nat
    /\ (1 mod 20 =? 0)%nat = false
    /\ (2 <= length (filter is_client_run (log s'')))%nat.
Proof.
  destruct east_waypoint_one_pass as [s'' Hret].
  exists s''. split; [exact Hret|]. split; [reflexivity|].
  unfold sim_move_base_to_waypoint in Hret.
  destruct (waypoint_loop 1 (1 / 100) 1 (waypoint_entry east_waypoint origin_sim))
    as [s'|] eqn:Hloop; [|discriminate].
  cbn [option_map] in Hret. injection Hret as <-.
  assert (Hpasses : waypoint_passes 1 (1 / 100) 1
                      (waypoint_entry east_waypoint origin_sim) = 1%nat).
  { revert Hloop. cbn [waypoint_loop waypoint_passes].
    rewrite east_distance_at_entry.
    assert (Hc0 : ltb 1 (1 / 100) = false) by (apply ltb_false; lra).
    rewrite Hc0.
    destruct (waypoint_step 0 1 1 (waypoint_entry east_waypoint origin_sim));
      [|discriminate].
    now destruct (ltb (waypoint_distance s) (1 / 100)). }
  split; [exact Hpasses|]. split; [reflexivity|].
  destruct (waypoint_loop_trace _ _ _ _ _ Hloop)
    as (rot & acts & Hl & Hlen & _ & _ & Hrot).
  rewrite Hpasses in Hlen.
  destruct (Hrot eq_refl) as (_ & yaw & _ & _ & ev & _ & _ & _ & ->);
    [now destruct acts|].
  unfold run. cbn [log emit set_world]. rewrite Hl.
  cbn [log waypoint_entry set_base_rotated set_target_distance
       set_next_waypoint origin_sim app].
  cbn [filter is_client_run].
  rewrite !filter_app, !length_app. cbn [filter is_client_run length]. lia.
Qed.

Lemma sim_move_base_to_waypoint_rotates_once_witness :
  exists s'',
    sim_move_base_to_waypoint 1 east_waypoint (1 / 100) origin_sim = Some s''
    /\ rotate_count (log s'') = 1%nat.
Proof.
  destruct east_waypoint_one_pass as [s'' Hret].
  exists s''. split; [exact Hret|].
  rewrite (proj1 (sim_move_base_to_waypoint_rotates_once
                    1 east_waypoint (1 / 100) origin_sim s'' Hret)).
  rewrite east_distance_at_entry.
  assert (Hc0 : ltb 1 (1 / 100) = false) by (apply ltb_false; lra).
  rewrite Hc0. reflexivity.
Defined.

End WaypointWitnesses.

(** ** Arm *)

Section Arm.
Context `{Engine}.
Import PyFloat PyFloatFacts.

(** C1 fails on the code: with an empty trajectory the loop issues no
    motor command and the 40 ticks are run, but the comparison with
    [trajectory[-1]] that follows indexes the empty list and raises
    [IndexError]; the method does not complete and prints nothing. *)
Theorem sim_execute_trajectory_empty
    (threshold : R) (enable_plot : bool) (s : Sim) :
  sim_execute_trajectory [] threshold enable_plot s
  = Raised IndexError (run (Some 40%nat) s)
  /\ log (run (Some 40%nat) s) = log s ++ [ClientRun (Some 40%nat)].
Proof. split; reflexivity. Qed.

Lemma linspace_length start stop num :
  length (PySeq.linspace start stop num) = num.
Proof.
  unfold PySeq.linspace.
  destruct (1 <? num)%nat eqn:Hn.
  - apply Nat.ltb_lt in Hn.
    rewrite length_app, removelast_firstn_len, length_firstn, length_map,
      length_seq. cbn. lia.
  - now rewrite length_map, length_seq.
Qed.

Lemma linspace_first start stop num :
  (2 <= num)%nat ->
  nth_error (PySeq.linspace start stop num) 0 = Some start.
Proof.
  intros Hn. unfold PySeq.linspace.
  assert (Hb : (1 <? num)%nat = true) by (apply Nat.ltb_lt; lia).
  rewrite Hb.
  destruct num as [|[|n]]; try lia.
  cbn [seq map]. cbn [removelast]. cbn [app nth_error].
  f_equal. cbn [INR]. lra.
Qed.

Lemma linspace_last start stop num :
  (2 <= num)%nat ->
  nth_error (PySeq.linspace start stop num) (num - 1) = Some stop.
Proof.
  intros Hn. unfold PySeq.linspace.
  assert (Hb : (1 <? num)%nat = true) by (apply Nat.ltb_lt; lia).
  rewrite Hb.
  set (y := map _ (seq 0 num)).
  assert (Hlen : length (removelast y) = (num - 1)%nat).
  { rewrite removelast_firstn_len, length_firstn.
    unfold y. rewrite length_map, length_seq. lia. }
  rewrite nth_error_app2 by lia.
  rewrite Hlen, Nat.sub_diag. reflexivity.
Qed.

End Arm.

(** ** Interpolation of the end-effector path *)

Section Interpolation.
Context `{Engine}.

Lemma lerp_start a b : lerp a b 0 = a.
Proof. destruct a as [x y z]. unfold lerp. cbn. f_equal; ring. Qed.

Lemma lerp_end a b : lerp a b 1 = b.
Proof. destruct b as [x y z]. unfold lerp. cbn. f_equal; ring. Qed.

End Interpolation.

Lemma planar_slerp_start a b : @getQuaternionSlerp planar_engine a b 0 = a.
Proof. destruct a as [x y z w]. cbn. f_equal; ring. Qed.

Lemma planar_slerp_end a b : @getQuaternionSlerp planar_engine a b 1 = b.
Proof. destruct b as [x y z w]. cbn. f_equal; ring. Qed.

(** ** Navigation along a path *)

Section Navigation.
Context `{Engine}.
Import PyFloat PyFloatFacts.

Lemma index_nat {A : Type} (l : list A) (i : nat) :
  PySeq.index l (Z.of_nat i) = nth_error l i.
Proof.
  unfold PySeq.index.
  destruct (0 <=? Z.of_nat i)%Z eqn:Hi.
  - now rewrite Nat2Z.id.
  - apply Z.leb_gt in Hi. lia.
Qed.

Lemma index_pred {A : Type} (l : list A) (i : nat) :
  i <> 0%nat -> PySeq.index l (Z.of_nat i - 1) = nth_error l (i - 1).
Proof.
  intros Hi. replace (Z.of_nat i - 1)%Z with (Z.of_nat (i - 1)) by lia.
  apply index_nat.
Qed.

Lemma log_navigate_report goal threshold s :
  log (navigate_report goal threshold s)
  = log s ++ ClientRun (Some 10%nat)
      :: (if leb threshold
                (sim_calculate_nav_error goal (run (Some 10%nat) s))
          then [Print (NavWarning
                         (sim_calculate_nav_error goal (run (Some 10%nat) s)))]
          else [])
      ++ [Print NavDone].
Proof.
  unfold navigate_report.
  destruct (leb threshold _); cbn [log emit run set_world];
    rewrite <- ?app_assoc; reflexivity.
Qed.

(** C5: once the path is walked and the final rotation done,
    [sim_navigate_base] returns whatever the final error: the log ends with
    the ten ticks, the warning exactly when the error is at least the
    threshold, and the closing line; the method returns no value, so the
    two cases differ only in the printed warning.  The final error exists
    only once the moves along the path and the final rotation have
    completed; what those may raise is not part of the statement. *)
Theorem sim_navigate_base_warns_and_returns
    (fuel : nat) (goal_base_pose : Pose) (path : list (list R))
    (threshold : R) (enable_plot : bool) (s : Sim) :
  forall s1 s2,
    navigate_loop fuel goal_base_pose path enable_plot
      (seq 0 (length path)) s = Returned s1 ->
    sim_rotate_base fuel (v2 (get_orientation_euler goal_base_pose))
      true default_step_size s1 = Some s2 ->
    let ik_error :=
      sim_calculate_nav_error goal_base_pose (run (Some 10%nat) s2) in
    exists s',
      sim_navigate_base fuel goal_base_pose path threshold enable_plot s
      = Returned s'
      /\ log s' = log s2 ++ ClientRun (Some 10%nat)
                    :: (if leb threshold ik_error
                        then [Print (NavWarning ik_error)] else [])
                    ++ [Print NavDone].
Proof.
  intros s1 s2 Hloop Hrot ik_error. unfold sim_navigate_base.
  rewrite Hloop. cbn [bind]. rewrite Hrot. cbn [of_option bind].
  eexists. split; [reflexivity|]. apply log_navigate_report.
Qed.

End Navigation.

(** *** A run that ends far from the goal *)

Section NavigationWitnesses.
#[local] Existing Instance planar_engine.
Import PyFloat PyFloatFacts.

Lemma rotate_loop_exit_now fuel target step d s :
  ltb step (Rabs d) = false -> rotate_loop fuel target step d s = Some s.
Proof. intros Hc. destruct fuel; cbn [rotate_loop]; now rewrite Hc. Qed.

Lemma here_path_loop :
  navigate_loop 0 far_goal [[0; 0]] false (seq 0 1) origin_sim
  = Returned after_here_path.
Proof.
  cbn [seq navigate_loop]. unfold navigate_step.
  rewrite index_nat. cbn [nth_error].
  change (PySeq.index [0; 0] 0) with (Some 0).
  change (PySeq.index [0; 0] 1) with (Some 0).
  cbv iota.
  unfold sim_move_base_to_waypoint. cbn [waypoint_loop].
  set (s0 := waypoint_entry _ origin_sim).
  assert (Hd : waypoint_distance s0 = 0).
  { unfold waypoint_distance, pose_x, pose_y, s0. cbn -[pow].
    replace ((0 - 0) ^ 2 + (0 - 0) ^ 2) with 0 by ring. apply sqrt_0. }
  rewrite Hd.
  assert (Hc : ltb 0 default_waypoint_threshold = true)
    by (apply ltb_true; unfold default_waypoint_threshold; lra).
  rewrite Hc. reflexivity.
Qed.

Lemma far_goal_yaw : v2 (get_orientation_euler far_goal) = 0.
Proof.
  unfold get_orientation_euler, far_goal. cbn [orientation getEulerFromQuaternion planar_engine v2 q2 q3].
  rewrite (atan2_east 0 1) by lra. ring.
Qed.

Lemma here_path_rotation :
  exists s2,
    sim_rotate_base 0 0 true default_step_size after_here_path = Some s2
    /\ base_position (world s2) = mkVec3 0 0 0.
Proof.
  unfold sim_rotate_base.
  change (current_base_yaw (emit (EnterRotateBase 0 true) after_here_path)) with 0.
  rewrite rotate_loop_exit_now.
  - eexists. split; [reflexivity|]. reflexivity.
  - rewrite sad_refl, Rabs_R0. apply ltb_false. unfold default_step_size. lra.
Qed.

Lemma far_goal_error s2 :
  base_position (world s2) = mkVec3 0 0 0 ->
  sim_calculate_nav_error far_goal (run (Some 10%nat) s2) = 5.
Proof.
  intros Hpos. unfold sim_calculate_nav_error, sim_get_current_base_pose, run.
  cbn [world emit set_world get_position position client_run planar_engine].
  rewrite Hpos. unfold norm_diff, far_goal, get_position. cbn [position v0 v1 v2].
  match goal with |- sqrt ?e = 5 => replace e with (5 * 5) by ring end.
  apply sqrt_square. lra.
Qed.

Lemma sim_navigate_base_warns_and_returns_witness :
  exists s2 s',
    sim_navigate_base 0 far_goal [[0; 0]] (5 / 100) false origin_sim
    = Returned s'
    /\ log s' = log s2 ++ [ClientRun (Some 10%nat); Print (NavWarning 5);
                           Print NavDone].
Proof.
  destruct here_path_rotation as (s2 & Hrot & Hpos).
  rewrite <- far_goal_yaw in Hrot.
  destruct (sim_navigate_base_warns_and_returns 0 far_goal [[0; 0]]
              (5 / 100) false origin_sim
              after_here_path s2 here_path_loop Hrot) as (s' & Hret & Hlog).
  exists s2, s'. split; [exact Hret|].
  rewrite Hlog, (far_goal_error s2 Hpos).
  assert (Hc : leb (5 / 100) 5 = true) by (apply leb_true; lra).
  rewrite Hc. reflexivity.
Defined.

End NavigationWitnesses.

(* ================================================================== *)
(** * Further properties of the base *)

Section BaseAlignment.
Context `{Engine}.
Import PyFloat PyFloatFacts.

Lemma sync_aligns s :
  arm_id s <> None -> arm_aligned (sim_sync_base_arm_pose s).
Proof.
  intros Harm. unfold sim_sync_base_arm_pose, arm_aligned.
  destruct (arm_id s); [|contradiction]. split; reflexivity.
Qed.

Lemma sync_without_arm s :
  arm_id s = None -> sim_sync_base_arm_pose s = s.
Proof. intros Harm. unfold sim_sync_base_arm_pose. now rewrite Harm. Qed.

Lemma sync_frame s :
  arm_id (sim_sync_base_arm_pose s) = arm_id s
  /\ arm_place_height (sim_sync_base_arm_pose s) = arm_place_height s.
Proof.
  unfold sim_sync_base_arm_pose.
  destruct (arm_id s) eqn:Harm; split; cbn; congruence.
Qed.

(** After [sim_action] an arm that is present sits above the moved base at
    its mounting height with the base's orientation; without an arm
    ([arm_id] is None) the arm pose in the engine is not touched. *)
Theorem sim_action_keeps_arm_aligned (output : R) (s : Sim) :
  match arm_id s with
  | Some _ => arm_aligned (sim_action output s)
  | None =>
      arm_position (world (sim_action output s)) = arm_position (world s)
      /\ arm_orientation (world (sim_action output s))
         = arm_orientation (world s)
  end.
Proof.
  unfold sim_action.
  set (s1 := resetBasePositionAndOrientation BaseBody _ _ s).
  assert (Hid : arm_id s1 = arm_id s) by reflexivity.
  destruct (arm_id s) as [a|] eqn:Harm.
  - apply sync_aligns. rewrite Hid. discriminate.
  - rewrite (sync_without_arm s1 Hid). split; reflexivity.
Qed.

Lemma apply_base_orientation_world q s :
  base_position (world (apply_base_orientation q s)) = base_position (world s)
  /\ base_orientation (world (apply_base_orientation q s)) = q
  /\ arm_id (apply_base_orientation q s) = arm_id s
  /\ arm_place_height (apply_base_orientation q s) = arm_place_height s
  /\ (arm_id s <> None -> arm_aligned (apply_base_orientation q s)).
Proof.
  unfold apply_base_orientation.
  set (s1 := resetBasePositionAndOrientation BaseBody _ _ s).
  destruct (world_sync s1) as [Hp Ho]. destruct (sync_frame s1) as [Hid Hh].
  rewrite Hp, Ho, Hid, Hh. do 4 (split; [reflexivity|]).
  intros Harm. now apply sync_aligns.
Qed.

Lemma run_fixed ticks s :
  fixed_bodies ->
  base_position (world (run ticks s)) = base_position (world s)
  /\ base_orientation (world (run ticks s)) = base_orientation (world s)
  /\ (arm_aligned s -> arm_aligned (run ticks s)).
Proof.
  intros Hfixed. unfold run, arm_aligned. cbn [world emit set_world arm_place_height].
  destruct (Hfixed ticks (world s)) as (Hp & Ho & Hap & Hao).
  rewrite Hp, Ho, Hap, Hao. repeat split; tauto.
Qed.

Lemma rotate_loop_fixed fuel :
  fixed_bodies ->
  forall target step d s s',
    rotate_loop fuel target step d s = Some s' ->
    base_position (world s') = base_position (world s)
    /\ arm_id s' = arm_id s
    /\ arm_place_height s' = arm_place_height s.
Proof.
  intros Hfixed.
  induction fuel as [|fuel IH]; intros target step d s s'; cbn [rotate_loop];
    destruct (ltb step (Rabs d)); try discriminate;
    try (intros [= <-]; now repeat split).
  unfold rotate_step.
  set (s2 := set_current_base_yaw (py_mod _ _ - PI) _).
  assert (Hw2 : world s2 = world s /\ arm_id s2 = arm_id s
                /\ arm_place_height s2 = arm_place_height s)
    by (unfold s2; destruct (ltb 0 d); repeat split).
  destruct Hw2 as (Hw2 & Hid2 & Hh2).
  intros Hloop. destruct (IH _ _ _ _ _ Hloop) as (Hp & Hid & Hh).
  destruct (apply_base_orientation_world
              (angle_to_quaternion (current_base_yaw s2)) s2)
    as (Hap & _ & Haid & Hah & _).
  destruct (run_fixed None
              (apply_base_orientation
                 (angle_to_quaternion (current_base_yaw s2)) s2) Hfixed)
    as (Hrp & _ & _).
  repeat split.
  - rewrite Hp, Hrp, Hap, Hw2. reflexivity.
  - rewrite Hid. cbn [arm_id run emit set_world]. congruence.
  - rewrite Hh. cbn [arm_place_height run emit set_world]. congruence.
Qed.

(** With an engine whose ticks leave the fixed bodies where they are, a
    rotation of the base, gradual or instant, never moves the base: when
    it returns the base is at the position it had, its orientation is the
    quaternion of the target yaw, and an arm that is present is aligned
    with it. *)
Theorem sim_rotate_base_turns_in_place
    (fuel : nat) (target_yaw : R) (gradual : bool) (step_size : R)
    (s s' : Sim) :
  fixed_bodies ->
  sim_rotate_base fuel target_yaw gradual step_size s = Some s' ->
  base_position (world s') = base_position (world s)
  /\ base_orientation (world s') = angle_to_quaternion target_yaw
  /\ (arm_id s <> None -> arm_aligned s').
Proof.
  intros Hfixed. unfold sim_rotate_base. destruct gradual.
  - destruct (rotate_loop _ _ _ _ _) as [s1|] eqn:Hloop; [|discriminate].
    intros [= <-].
    destruct (rotate_loop_fixed fuel Hfixed _ _ _ _ _ Hloop) as (Hp & Hid & Hh).
    destruct (apply_base_orientation_world (angle_to_quaternion target_yaw) s1)
      as (Hap & Hao & _ & _ & Hal).
    set (s3 := set_current_base_yaw target_yaw _).
    destruct (run_fixed None s3 Hfixed) as (Hrp & Hro & Hra).
    rewrite Hrp, Hro. unfold s3. cbn [world set_current_base_yaw].
    rewrite Hap, Hao, Hp. do 2 (split; [reflexivity|]).
    intros Harm. apply Hra. apply Hal. now rewrite Hid.
  - intros [= <-].
    set (s0 := emit (EnterRotateBase target_yaw false) s).
    destruct (apply_base_orientation_world (angle_to_quaternion target_yaw) s0)
      as (Hap & Hao & _ & _ & Hal).
    destruct (run_fixed (Some 5%nat)
                (apply_base_orientation (angle_to_quaternion target_yaw) s0)
                Hfixed) as (Hrp & Hro & Hra).
    rewrite Hrp, Hro, Hap, Hao. do 2 (split; [reflexivity|]).
    intros Harm. apply Hra. now apply Hal.
Qed.

End BaseAlignment.

Lemma planar_engine_fixed : @fixed_bodies planar_engine.
Proof. intros ticks w. repeat split. Qed.

Lemma sim_rotate_base_turns_in_place_witness :
  @fixed_bodies planar_engine
  /\ exists s',
       @sim_rotate_base planar_engine 0 1 false (1 / 2) origin_sim = Some s'
       /\ base_position (world s') = base_position (world origin_sim)
       /\ base_orientation (world s') = angle_to_quaternion 1
       /\ (arm_id origin_sim <> None -> @arm_aligned s').
Proof.
  split; [exact planar_engine_fixed|].
  eexists. split; [reflexivity|].
  exact (@sim_rotate_base_turns_in_place planar_engine 0 1 false (1 / 2)
           origin_sim _ planar_engine_fixed eq_refl).
Defined.

Section BaseEdgeCases.
Context `{Engine}.
Import PyFloat PyFloatFacts.

Lemma waypoint_distance_nonneg s : 0 <= waypoint_distance s.
Proof. unfold waypoint_distance. apply sqrt_pos. Qed.

(** With a threshold that is not positive the loop of
    [sim_move_base_to_waypoint] has no exit: the distance is never below
    it, and the method does not return whatever the number of passes. *)
Theorem sim_move_base_to_waypoint_needs_positive_threshold
    (fuel : nat) (waypoint : Pose) (threshold : R) (s : Sim) :
  threshold <= 0 ->
  sim_move_base_to_waypoint fuel waypoint threshold s = None.
Proof.
  intros Hthr. unfold sim_move_base_to_waypoint.
  assert (Hloop : forall fuel cnt s0,
             waypoint_loop fuel threshold cnt s0 = None).
  { clear fuel. induction fuel as [|fuel IH]; intros cnt s0; cbn [waypoint_loop];
      (assert (Hc : ltb (waypoint_distance s0) threshold = false)
        by (apply ltb_false; pose proof (waypoint_distance_nonneg s0); lra));
      rewrite Hc; [reflexivity|].
    destruct (waypoint_step _ _ _ _); [apply IH | reflexivity]. }
  now rewrite Hloop.
Qed.

(** A base that is already within the threshold of the waypoint is not
    moved: no rotation, no reset, no controller update; the method records
    the waypoint, clears its flags and issues its closing tick. *)
Theorem sim_move_base_to_waypoint_when_there
    (fuel : nat) (waypoint : Pose) (threshold : R) (s : Sim) :
  sqrt ((pose_y waypoint - v1 (base_position (world s))) ^ 2
        + (pose_x waypoint - v0 (base_position (world s))) ^ 2) < threshold ->
  exists s',
    sim_move_base_to_waypoint fuel waypoint threshold s = Some s'
    /\ log s' = log s ++ [ClientRun None]
    /\ world s' = client_run None (world s)
    /\ distance_controller s' = distance_controller s
    /\ current_base_yaw s' = current_base_yaw s
    /\ base_rotated s' = false.
Proof.
  intros Hd. unfold sim_move_base_to_waypoint.
  assert (Hc : ltb (waypoint_distance (waypoint_entry waypoint s)) threshold
               = true) by (apply ltb_true; exact Hd).
  assert (Hloop : waypoint_loop fuel threshold 1 (waypoint_entry waypoint s)
                  = Some (waypoint_entry waypoint s))
    by (destruct fuel; cbn [waypoint_loop]; now rewrite Hc).
  rewrite Hloop. eexists. split; [reflexivity|]. repeat split.
Qed.

(** The [threshold] of [sim_navigate_base] takes no part in the motion: two
    calls that differ only in it end the same way, and when they return
    they leave the same world, stored yaw and controller; only the printed
    warning can differ. *)
Theorem sim_navigate_base_threshold_only_reports
    (fuel : nat) (goal_base_pose : Pose) (path : list (list R))
    (threshold1 threshold2 : R) (enable_plot : bool) (s : Sim) :
  match sim_navigate_base fuel goal_base_pose path threshold1 enable_plot s,
        sim_navigate_base fuel goal_base_pose path threshold2 enable_plot s
  with
  | Returned s1, Returned s2 =>
      world s1 = world s2
      /\ current_base_yaw s1 = current_base_yaw s2
      /\ distance_controller s1 = distance_controller s2
      /\ base_rotated s1 = base_rotated s2
  | Raised e1 s1, Raised e2 s2 => e1 = e2 /\ s1 = s2
  | OutOfFuel, OutOfFuel => True
  | _, _ => False
  end.
Proof.
  unfold sim_navigate_base.
  destruct (navigate_loop _ _ _ _ _ s) as [s1|e1 s1|]; cbn [bind];
    [|now split|exact I].
  destruct (sim_rotate_base _ _ _ _ s1) as [s2|]; cbn [of_option bind];
    [|exact I].
  unfold navigate_report.
  destruct (leb threshold1 _), (leb threshold2 _); repeat split.
Qed.

(** The final error of a navigation is measured in space, not in the
    plane: it is never below the height difference between base and goal,
    so a goal pose given at another height than the base's is reported with
    the warning as soon as that difference reaches the threshold, wherever
    the base stands. *)
Theorem sim_navigate_base_error_counts_height
    (goal_base_pose : Pose) (threshold : R) (s : Sim) :
  let s1 := run (Some 10%nat) s in
  let dz := Rabs (v2 (base_position (world s1))
                  - v2 (get_position goal_base_pose)) in
  dz <= sim_calculate_nav_error goal_base_pose s1
  /\ (threshold <= dz ->
      log (navigate_report goal_base_pose threshold s)
      = log s ++ [ClientRun (Some 10%nat);
                  Print (NavWarning (sim_calculate_nav_error goal_base_pose s1));
                  Print NavDone]).
Proof.
  cbv zeta.
  set (s1 := run (Some 10%nat) s).
  assert (Hdz : Rabs (v2 (base_position (world s1))
                      - v2 (get_position goal_base_pose))
                <= sim_calculate_nav_error goal_base_pose s1).
  { unfold sim_calculate_nav_error, norm_diff, sim_get_current_base_pose,
      get_position. cbn [position].
    set (dx := v0 (base_position (world s1)) - v0 (position goal_base_pose)).
    set (dy := v1 (base_position (world s1)) - v1 (position goal_base_pose)).
    set (dz := v2 (base_position (world s1)) - v2 (position goal_base_pose)).
    rewrite <- (sqrt_Rsqr_abs dz). apply sqrt_le_1_alt.
    unfold Rsqr. nra. }
  split; [exact Hdz|].
  intros Hthr. rewrite log_navigate_report. fold s1.
  assert (Hc : leb threshold (sim_calculate_nav_error goal_base_pose s1) = true)
    by (apply leb_true; lra).
  now rewrite Hc.
Qed.

End BaseEdgeCases.

Section BaseEdgeWitnesses.
#[local] Existing Instance planar_engine.
Import PyFloat PyFloatFacts.

Lemma sim_move_base_to_waypoint_needs_positive_threshold_witness :
  0 <= 0
  /\ sim_move_base_to_waypoint 7 east_waypoint 0 origin_sim = None.
Proof.
  split; [lra|].
  apply sim_move_base_to_waypoint_needs_positive_threshold. lra.
Defined.

Lemma here_waypoint_distance :
  sqrt ((pose_y here_waypoint - v1 (base_position (world origin_sim))) ^ 2
        + (pose_x here_waypoint - v0 (base_position (world origin_sim))) ^ 2)
  < 1 / 100.
Proof.
  unfold pose_x, pose_y. cbn -[pow].
  replace ((0 - 0) ^ 2 + (0 - 0) ^ 2) with 0 by ring. rewrite sqrt_0. lra.
Qed.

Lemma sim_move_base_to_waypoint_when_there_witness :
  exists s',
    sim_move_base_to_waypoint 0 here_waypoint (1 / 100) origin_sim = Some s'
    /\ log s' = log origin_sim ++ [ClientRun None]
    /\ world s' = client_run None (world origin_sim)
    /\ distance_controller s' = distance_controller origin_sim
    /\ current_base_yaw s' = current_base_yaw origin_sim
    /\ base_rotated s' = false.
Proof.
  exact (sim_move_base_to_waypoint_when_there 0 here_waypoint (1 / 100)
           origin_sim here_waypoint_distance).
Defined.

Lemma raised_goal_height :
  1 / 2 <= Rabs (v2 (base_position (world (run (Some 10%nat) origin_sim)))
                 - v2 (get_position raised_goal)).
Proof.
  cbn [run emit set_world world client_run planar_engine origin_sim
       origin_world base_position get_position raised_goal position v2].
  replace (0 - 1) with (- (1)) by ring. rewrite Rabs_Ropp, Rabs_R1. lra.
Qed.

Lemma sim_navigate_base_error_counts_height_witness :
  log (navigate_report raised_goal (1 / 2) origin_sim)
  = log origin_sim
    ++ [ClientRun (Some 10%nat);
        Print (NavWarning (sim_calculate_nav_error raised_goal
                             (run (Some 10%nat) origin_sim)));
        Print NavDone].
Proof.
  exact (proj2 (sim_navigate_base_error_counts_height raised_goal (1 / 2)
                  origin_sim) raised_goal_height).
Defined.

End BaseEdgeWitnesses.

(* ================================================================== *)
(** * Further properties of the arm *)

Section ArmJoints.
Context `{Engine}.
Import PyFloat PyFloatFacts.

Lemma reset_joints_frame pairs :
  forall s, arm_joints_idx (reset_joints pairs s) = arm_joints_idx s
            /\ log (reset_joints pairs s) = log s.
Proof.
  unfold reset_joints.
  induction pairs as [|[j v] pairs IH]; intros s; cbn [fold_left fst snd].
  - split; reflexivity.
  - destruct (IH (resetJointState j v s)) as [Ha Hl]. rewrite Ha, Hl.
    split; reflexivity.
Qed.

Lemma reset_joints_other pairs :
  forall s j,
    ~ In j (map fst pairs) ->
    joint_angle (world (reset_joints pairs s)) j = joint_angle (world s) j.
Proof.
  unfold reset_joints.
  induction pairs as [|[j0 v0] pairs IH]; intros s j Hnin;
    cbn [fold_left fst snd].
  - reflexivity.
  - cbn [map fst In] in Hnin. rewrite IH by tauto.
    unfold resetJointState. cbn [world set_world joint_angle].
    destruct (j =? j0)%nat eqn:Hj; [|reflexivity].
    apply Nat.eqb_eq in Hj. subst. tauto.
Qed.

Lemma reset_joints_set pairs :
  forall s i j v,
    NoDup (map fst pairs) ->
    nth_error pairs i = Some (j, v) ->
    joint_angle (world (reset_joints pairs s)) j = v.
Proof.
  induction pairs as [|[j0 v0] pairs IH]; intros s i j v Hnd Hi.
  - destruct i; discriminate.
  - cbn [map fst] in Hnd. inversion Hnd as [|? ? Hnin Hnd']; subst.
    destruct i as [|i]; cbn [nth_error] in Hi.
    + injection Hi as -> ->.
      change (reset_joints ((j, v) :: pairs) s)
        with (reset_joints pairs (resetJointState j v s)).
      rewrite reset_joints_other by exact Hnin.
      unfold resetJointState. cbn [world set_world joint_angle].
      now rewrite Nat.eqb_refl.
    + change (reset_joints ((j0, v0) :: pairs) s)
        with (reset_joints pairs (resetJointState j0 v0 s)).
      apply (IH _ i); assumption.
Qed.

Lemma map_fst_zip {A B : Type} (a : list A) (b : list B) :
  map fst (PySeq.zip a b) = firstn (length b) a.
Proof.
  unfold PySeq.zip. revert b.
  induction a as [|x a IH]; intros [|y b]; cbn; try reflexivity.
  now rewrite IH.
Qed.

Lemma in_firstn {A : Type} (n : nat) (l : list A) (x : A) :
  In x (firstn n l) -> In x l.
Proof.
  revert n. induction l as [|y l IH]; intros [|n]; cbn; try tauto.
  intros [-> | Hin]; [now left | right; now apply (IH n)].
Qed.

Lemma NoDup_firstn {A : Type} (n : nat) (l : list A) :
  NoDup l -> NoDup (firstn n l).
Proof.
  revert n. induction l as [|x l IH]; intros [|n] Hnd; cbn; try constructor.
  - inversion Hnd as [|? ? Hnin Hnd']; subst.
    intros Hin. apply Hnin. now apply (in_firstn n).
  - inversion Hnd; subst. now apply IH.
Qed.

(** [sim_set_arm_to_joint_values] pairs joints and values position by
    position and stops at the shorter list.  With distinct joint indices,
    right after the resets every paired joint reads the value it was given
    and every other joint reads what it read before; nothing is logged but
    the ten ticks that follow. *)
Theorem sim_set_arm_to_joint_values_pairs
    (joint_values : list R) (s : Sim) :
  NoDup (arm_joints_idx s) ->
  let s1 := reset_joints (PySeq.zip (arm_joints_idx s) joint_values) s in
  sim_set_arm_to_joint_values joint_values s = run (Some 10%nat) s1
  /\ log (sim_set_arm_to_joint_values joint_values s)
     = log s ++ [ClientRun (Some 10%nat)]
  /\ (forall i joint value,
         nth_error (arm_joints_idx s) i = Some joint ->
         nth_error joint_values i = Some value ->
         joint_angle (world s1) joint = value)
  /\ (forall joint,
         ~ In joint (firstn (length joint_values) (arm_joints_idx s)) ->
         joint_angle (world s1) joint = joint_angle (world s) joint).
Proof.
  intros Hnd s1. split; [reflexivity|]. split; [|split].
  - unfold sim_set_arm_to_joint_values, run. cbn [log emit set_world].
    now destruct (reset_joints_frame
                    (PySeq.zip (arm_joints_idx s) joint_values) s) as [_ ->].
  - intros i joint value Hj Hv. unfold s1.
    apply (reset_joints_set _ s i).
    + rewrite map_fst_zip. now apply NoDup_firstn.
    + unfold PySeq.zip. clear -Hj Hv. revert i Hj Hv.
      generalize (arm_joints_idx s) as idx. revert joint_values.
      induction joint_values as [|v vs IH]; intros idx i Hj Hv.
      * destruct i; discriminate.
      * destruct idx as [|j idx]; [destruct i; discriminate|].
        destruct i as [|i]; cbn in *.
        -- now injection Hj as ->; injection Hv as ->.
        -- now apply IH.
  - intros joint Hnin. unfold s1. apply reset_joints_other.
    now rewrite map_fst_zip.
Qed.

(** Setting as many values as there are joints and reading the joints
    back returns the values, on an engine whose ticks hold the joints
    where a reset put them. *)
Theorem sim_set_then_get_joint_values (joint_values : list R) (s : Sim) :
  (forall ticks w j, joint_angle (client_run ticks w) j = joint_angle w j) ->
  NoDup (arm_joints_idx s) ->
  length joint_values = length (arm_joints_idx s) ->
  sim_get_current_joint_values (sim_set_arm_to_joint_values joint_values s)
  = joint_values.
Proof.
  intros Hhold Hnd Hlen.
  destruct (sim_set_arm_to_joint_values_pairs joint_values s Hnd)
    as (-> & _ & Hset & _).
  unfold sim_get_current_joint_values, run.
  cbn [world emit set_world arm_joints_idx].
  destruct (reset_joints_frame (PySeq.zip (arm_joints_idx s) joint_values) s)
    as [-> _].
  apply nth_error_ext. intros i.
  rewrite nth_error_map.
  destruct (nth_error (arm_joints_idx s) i) as [joint|] eqn:Hj; cbn [option_map].
  - destruct (nth_error joint_values i) as [value|] eqn:Hv.
    + rewrite Hhold. f_equal. now apply (Hset i).
    + apply nth_error_None in Hv.
      assert (i < length (arm_joints_idx s))%nat
        by (apply nth_error_Some; congruence).
      lia.
  - symmetry. apply nth_error_None. apply nth_error_None in Hj. lia.
Qed.

End ArmJoints.

Section ArmMotion.
Context `{Engine}.
Import PyFloat PyFloatFacts.

Lemma motor_commands_app l1 l2 :
  motor_commands (l1 ++ l2) = motor_commands l1 ++ motor_commands l2.
Proof. unfold motor_commands. apply flat_map_app. Qed.

Lemma move_arm_log joint_values s :
  log (sim_move_arm_to_joint_values joint_values s)
  = log s ++ [SetJointMotorControlArray (arm_joints_idx s) joint_values;
              ClientRun (Some 40%nat)]
  /\ arm_joints_idx (sim_move_arm_to_joint_values joint_values s)
     = arm_joints_idx s.
Proof.
  unfold sim_move_arm_to_joint_values, run, setJointMotorControlArray.
  cbn [log emit set_world arm_joints_idx]. rewrite <- app_assoc.
  split; reflexivity.
Qed.

(** One pass of the trajectory loop inside the range never raises, when
    the local [front_point] is bound from the second pass on. *)
Lemma trajectory_loop_returns trajectory enable_plot n :
  forall k front s,
    (k + n <= length trajectory)%nat ->
    (k <> 0%nat -> front <> None) ->
    exists s',
      trajectory_loop trajectory enable_plot (seq k n) (front, s) = Returned s'
      /\ motor_commands (log s')
         = motor_commands (log s) ++ firstn n (skipn k trajectory)
      /\ arm_joints_idx s' = arm_joints_idx s.
Proof.
  induction n as [|n IH]; intros k front s Hlen Hfront.
  - exists s. cbn. now rewrite app_nil_r.
  - cbn [seq trajectory_loop]. unfold trajectory_step.
    rewrite index_nat.
    destruct (nth_error trajectory k) as [joint_values|] eqn:Hk;
      [|apply nth_error_None in Hk; lia].
    destruct (move_arm_log joint_values s) as [Hlog Hidx].
    set (s1 := sim_move_arm_to_joint_values joint_values s) in *.
    assert (Hskip : firstn (S n) (skipn k trajectory)
                    = joint_values :: firstn n (skipn (S k) trajectory)).
    { clear -Hk. revert k Hk.
      induction trajectory as [|t trajectory IHt]; intros [|k] Hk;
        try discriminate.
      - cbn in Hk. injection Hk as ->. reflexivity.
      - cbn [skipn]. cbn [nth_error] in Hk. rewrite (IHt k Hk). reflexivity. }
    assert (Hcmd : motor_commands (log s1)
                   = motor_commands (log s) ++ [joint_values]).
    { rewrite Hlog, motor_commands_app. reflexivity. }
    destruct (negb (k =? 0)%nat && enable_plot) eqn:Hplot.
    + apply andb_prop in Hplot as [Hk0 _].
      apply negb_true_iff, Nat.eqb_neq in Hk0.
      destruct front as [fp|]; [|now destruct (Hfront Hk0)].
      set (s2 := emit (AddUserDebugLine fp _) s1).
      destruct (IH (S k)
                  (Some (get_position (sim_get_current_end_effector_pose s1)))
                  s2) as (s' & Hret & Hc & Hi); [lia|discriminate|].
      exists s'. split; [exact Hret|]. split.
      * rewrite Hc, Hskip. unfold s2. cbn [log emit].
        rewrite motor_commands_app, Hcmd. cbn [motor_commands flat_map app].
        rewrite app_nil_r, <- app_assoc. reflexivity.
      * rewrite Hi. unfold s2. cbn [arm_joints_idx emit]. exact Hidx.
    + destruct (IH (S k)
                  (Some (get_position (sim_get_current_end_effector_pose s1)))
                  s1) as (s' & Hret & Hc & Hi); [lia|discriminate|].
      exists s'. split; [exact Hret|]. split.
      * rewrite Hc, Hskip, Hcmd, <- app_assoc. reflexivity.
      * now rewrite Hi.
Qed.

(** A trajectory that is not empty, each entry of which has one target
    per arm joint (the engine refuses a command of another length), is
    executed without an exception, plotting or not: the motor is commanded
    once per entry, with the entries in their order, and the method ends
    with its closing line. *)
Theorem sim_execute_trajectory_nonempty
    (trajectory : list (list R)) (threshold : R) (enable_plot : bool)
    (s : Sim) :
  trajectory <> [] ->
  Forall (fun joint_values =>
            length joint_values = length (arm_joints_idx s)) trajectory ->
  exists s' pre,
    sim_execute_trajectory trajectory threshold enable_plot s = Returned s'
    /\ motor_commands (log s') = motor_commands (log s) ++ trajectory
    /\ Forall (fun targets => length targets = length (arm_joints_idx s))
              (skipn (length (motor_commands (log s)))
                     (motor_commands (log s')))
    /\ log s' = pre ++ [Print TrajectoryDone].
Proof.
  intros Hne Hlen.
  assert (Hsk : forall l : list (list R), skipn (length l) (l ++ trajectory)
                                          = trajectory).
  { intros l. induction l as [|x l IHl]; [reflexivity | exact IHl]. }
  cut (exists s' pre,
          sim_execute_trajectory trajectory threshold enable_plot s
          = Returned s'
          /\ motor_commands (log s') = motor_commands (log s) ++ trajectory
          /\ log s' = pre ++ [Print TrajectoryDone]).
  { intros (s' & pre & Hret & Hcmd & Hlog). exists s', pre.
    split; [exact Hret|]. split; [exact Hcmd|]. split; [|exact Hlog].
    rewrite Hcmd, Hsk. exact Hlen. }
  unfold sim_execute_trajectory.
  destruct (trajectory_loop_returns trajectory enable_plot (length trajectory)
              0 None s) as (s1 & Hloop & Hcmd & _); [lia|congruence|].
  rewrite Hloop. cbn [bind].
  cbn [skipn] in Hcmd. rewrite firstn_all in Hcmd.
  assert (Hlast : exists last_values,
             PySeq.index trajectory (-1) = Some last_values).
  { unfold PySeq.index. cbn [Z.leb Z.compare].
    destruct trajectory as [|t trajectory]; [congruence|].
    assert (Hn : (0 <=? Z.of_nat (length (t :: trajectory)) + -1)%Z = true)
      by (apply Z.leb_le; cbn [length]; lia).
    rewrite Hn.
    destruct (nth_error (t :: trajectory)
                (Z.to_nat (Z.of_nat (length (t :: trajectory)) + -1)))
      eqn:Hnth; [eauto|].
    apply nth_error_None in Hnth. cbn [length] in Hnth. lia. }
  destruct Hlast as [last_values ->].
  set (s2 := run (Some 40%nat) s1).
  assert (Hcmd2 : motor_commands (log s2) = motor_commands (log s) ++ trajectory).
  { unfold s2, run. cbn [log emit set_world].
    rewrite motor_commands_app, Hcmd. cbn. now rewrite app_nil_r. }
  destruct (0 <? length _)%nat; eexists; eexists;
    (split; [reflexivity|]); cbn [log emit]; split; try reflexivity.
  - rewrite !motor_commands_app, Hcmd2. cbn. now rewrite !app_nil_r.
  - rewrite motor_commands_app, Hcmd2. cbn. now rewrite app_nil_r.
Qed.

Lemma end_effector_fold start goal samples :
  forall s,
    exists cmds,
      motor_commands
        (log (fold_left (end_effector_step start goal) samples s))
      = motor_commands (log s) ++ cmds
      /\ length cmds = length samples
      /\ Forall (fun c => (length c <= length (arm_joints_idx s))%nat) cmds
      /\ arm_joints_idx (fold_left (end_effector_step start goal) samples s)
         = arm_joints_idx s.
Proof.
  induction samples as [|t samples IH]; intros s; cbn [fold_left].
  - exists []. rewrite app_nil_r. repeat split. constructor.
  - unfold end_effector_step at 2 4.
    set (jv := sim_cartesian_to_joints (interpolated_pose start goal t) s).
    destruct (move_arm_log jv s) as [Hlog Hidx].
    destruct (IH (sim_move_arm_to_joint_values jv s))
      as (cmds & Hc & Hl & Hall & Hi).
    exists (jv :: cmds). rewrite Hc, Hlog, motor_commands_app.
    cbn [motor_commands flat_map app]. rewrite <- app_assoc.
    split; [reflexivity|]. split; [cbn; now rewrite Hl|]. split.
    + constructor.
      * unfold jv, sim_cartesian_to_joints. rewrite length_firstn. lia.
      * now rewrite Hidx in Hall.
    + now rewrite Hi.
Qed.


(** With a single step the only sample is 0: on an engine whose
    quaternion interpolation returns its first argument at 0, the one
    command sent is the solution for the pose the end effector already
    has, and the goal pose is never commanded. *)
Theorem sim_move_end_effector_single_step
    (goal : Pose) (threshold : R) (s : Sim) :
  (forall a b, getQuaternionSlerp a b 0 = a) ->
  motor_commands (log (sim_move_end_effector_to_goal_pose goal 1 threshold s))
  = motor_commands (log s)
    ++ [sim_cartesian_to_joints (sim_get_current_end_effector_pose s) s].
Proof.
  intros Hslerp. unfold sim_move_end_effector_to_goal_pose.
  change (PySeq.linspace 0 1 1) with [INR 0 * ((1 - 0) / INR 0) + 0].
  cbn [fold_left]. unfold end_effector_step.
  assert (Ht : INR 0 * ((1 - 0) / INR 0) + 0 = 0) by (cbn [INR]; ring).
  rewrite Ht.
  assert (Hpose : interpolated_pose (sim_get_current_end_effector_pose s) goal 0
                  = sim_get_current_end_effector_pose s).
  { unfold interpolated_pose, get_position, get_orientation.
    rewrite lerp_start, Hslerp.
    now destruct (sim_get_current_end_effector_pose s). }
  rewrite Hpose.
  set (jv := sim_cartesian_to_joints _ s).
  destruct (move_arm_log jv s) as [Hlog _].
  destruct (leb threshold _); cbn [log emit];
    rewrite ?motor_commands_app, Hlog, motor_commands_app; cbn;
    now rewrite ?app_nil_r.
Qed.

End ArmMotion.

(** ** The endpoints of the end-effector path *)

Section InterpolationEndpoints.
Context `{Engine}.
Import PyFloat PyFloatFacts.

Lemma end_effector_fold_commands start goal samples :
  forall s,
    motor_commands (log (fold_left (end_effector_step start goal) samples s))
    = motor_commands (log s) ++ end_effector_commands start goal samples s.
Proof.
  induction samples as [|t samples IH]; intros s;
    cbn [fold_left end_effector_commands].
  - now rewrite app_nil_r.
  - rewrite IH.
    change (end_effector_step start goal s t)
      with (sim_move_arm_to_joint_values
              (sim_cartesian_to_joints (interpolated_pose start goal t) s) s).
    destruct (move_arm_log
                (sim_cartesian_to_joints (interpolated_pose start goal t) s) s)
      as [Hlog _].
    rewrite Hlog, motor_commands_app. cbn [motor_commands flat_map app].
    now rewrite <- app_assoc.
Qed.

Lemma end_effector_commands_length start goal samples :
  forall s, length (end_effector_commands start goal samples s)
            = length samples.
Proof.
  induction samples as [|t samples IH]; intros s; cbn; [reflexivity|].
  now rewrite IH.
Qed.

Lemma end_effector_commands_last start goal samples t :
  forall s,
    end_effector_commands start goal (samples ++ [t]) s
    = end_effector_commands start goal samples s
      ++ [sim_cartesian_to_joints (interpolated_pose start goal t)
            (fold_left (end_effector_step start goal) samples s)].
Proof.
  induction samples as [|t0 samples IH]; intros s;
    cbn [app end_effector_commands fold_left]; [reflexivity|].
  now rewrite IH.
Qed.


End InterpolationEndpoints.




Section EndEffectorRotation.
Context `{Engine}.
Import PyFloat PyFloatFacts.

Lemma all_close_true current target range :
  all_close current target range = Some true ->
  forall i, In i range ->
    exists c t,
      nth_error current i = Some c /\ nth_error target i = Some t
      /\ Rabs (c - t) < 1 / 100.
Proof.
  induction range as [|i0 range IH]; intros Hall i Hin; [destruct Hin|].
  cbn [all_close] in Hall. rewrite !index_nat in Hall.
  destruct (nth_error current i0) as [c|] eqn:Hc; [|discriminate].
  destruct (nth_error target i0) as [t|] eqn:Ht; [|discriminate].
  destruct (ltb (Rabs (c - t)) (1 / 100)) eqn:Hclose; [|discriminate].
  destruct Hin as [<- | Hin].
  - exists c, t. repeat split; try assumption. now apply ltb_true.
  - now apply IH.
Qed.

Lemma rotate_end_effector_loop_exit fuel target :
  forall s s',
    rotate_end_effector_loop fuel target s = Returned s' ->
    all_close (map (joint_angle (world s')) (arm_joints_idx s')) target
              (seq 0 (length (arm_joints_idx s'))) = Some true
    /\ arm_joints_idx s' = arm_joints_idx s
    /\ motor_commands (log s') = motor_commands (log s).
Proof.
  induction fuel as [|fuel IH]; intros s s'; cbn [rotate_end_effector_loop];
    destruct (all_close _ target _) as [[|]|] eqn:Hall; try discriminate;
    try (intros [= <-]; now repeat split).
  intros Hloop. destruct (IH _ _ Hloop) as (Hc & Hi & Hm).
  split; [exact Hc|]. split; [exact Hi|].
  rewrite Hm. unfold run. cbn [log emit set_world].
  rewrite motor_commands_app. cbn. now rewrite app_nil_r.
Qed.

(** When [sim_rotate_end_effector] returns, the motor has been commanded
    once, with the joint angles read at entry and [angle] added to the last
    one; every joint of the arm is then within 0.01 of its commanded value,
    and the closing line has been printed. *)
Theorem sim_rotate_end_effector_reaches
    (fuel : nat) (angle : R) (s s' : Sim) (printed : list rotate_message) :
  sim_rotate_end_effector fuel angle s = (Returned s', printed) ->
  printed = [RotateEndEffectorCompleted]
  /\ exists targets,
       add_to_last (map (joint_angle (world s)) (arm_joints_idx s)) angle
       = Some targets
       /\ motor_commands (log s') = motor_commands (log s) ++ [targets]
       /\ forall i joint,
            nth_error (arm_joints_idx s) i = Some joint ->
            exists t,
              nth_error targets i = Some t
              /\ Rabs (joint_angle (world s') joint - t) < 1 / 100.
Proof.
  unfold sim_rotate_end_effector.
  destruct (add_to_last _ angle) as [targets|]; [|discriminate].
  destruct (move_arm_log targets s) as [Hlog Hidx].
  destruct (rotate_end_effector_loop fuel targets _) as [s2|e s2|] eqn:Hloop;
    try discriminate.
  intros [= <- <-]. split; [reflexivity|].
  destruct (rotate_end_effector_loop_exit _ _ _ _ Hloop) as (Hall & Hi & Hm).
  exists targets. split; [reflexivity|]. split.
  - rewrite Hm, Hlog, motor_commands_app. reflexivity.
  - intros i joint Hj. rewrite Hi, Hidx in Hall.
    assert (Hin : In i (seq 0 (length (arm_joints_idx s)))).
    { apply in_seq. split; [lia|]. cbn. apply nth_error_Some. congruence. }
    destruct (all_close_true _ _ _ Hall i Hin) as (c & t & Hc & Ht & Hclose).
    rewrite nth_error_map, Hj in Hc. cbn in Hc. injection Hc as <-.
    exists t. split; assumption.
Qed.

End EndEffectorRotation.

Section ArmWitnesses.
#[local] Existing Instance planar_engine.
Import PyFloat PyFloatFacts.

Lemma origin_joints_distinct : NoDup (arm_joints_idx origin_sim).
Proof.
  cbn [arm_joints_idx origin_sim].
  repeat constructor; cbn; intuition lia.
Qed.

Lemma planar_engine_holds_joints :
  forall ticks w j, joint_angle (client_run ticks w) j = joint_angle w j.
Proof. reflexivity. Qed.

Lemma sim_set_arm_to_joint_values_pairs_witness :
  NoDup (arm_joints_idx origin_sim)
  /\ joint_angle
       (world (reset_joints (PySeq.zip (arm_joints_idx origin_sim) [1; 2])
                            origin_sim)) 1%nat = 2
  /\ joint_angle
       (world (reset_joints (PySeq.zip (arm_joints_idx origin_sim) [1; 2])
                            origin_sim)) 2%nat
     = joint_angle (world origin_sim) 2%nat.
Proof.
  split; [exact origin_joints_distinct|].
  destruct (sim_set_arm_to_joint_values_pairs [1; 2] origin_sim
              origin_joints_distinct) as (_ & _ & Hset & Hother).
  split.
  - exact (Hset 1%nat 1%nat 2 eq_refl eq_refl).
  - apply Hother. cbn. intuition lia.
Defined.

Lemma sim_set_then_get_joint_values_witness :
  sim_get_current_joint_values
    (sim_set_arm_to_joint_values [1; 2; 3] origin_sim) = [1; 2; 3].
Proof.
  exact (sim_set_then_get_joint_values [1; 2; 3] origin_sim
           planar_engine_holds_joints origin_joints_distinct eq_refl).
Defined.

Lemma sim_execute_trajectory_nonempty_witness :
  [[0; 0; 0]; [1; 0; 0]] <> []
  /\ Forall (fun joint_values =>
               length joint_values = length (arm_joints_idx origin_sim))
            [[0; 0; 0]; [1; 0; 0]]
  /\ exists s' pre,
       sim_execute_trajectory [[0; 0; 0]; [1; 0; 0]] (1 / 10) true origin_sim
       = Returned s'
       /\ motor_commands (log s')
          = motor_commands (log origin_sim) ++ [[0; 0; 0]; [1; 0; 0]]
       /\ Forall (fun targets =>
                    length targets = length (arm_joints_idx origin_sim))
                 (skipn (length (motor_commands (log origin_sim)))
                        (motor_commands (log s')))
       /\ log s' = pre ++ [Print TrajectoryDone].
Proof.
  assert (Hne : [[0; 0; 0]; [1; 0; 0]] <> ([] : list (list R)))
    by discriminate.
  assert (Hlen : Forall (fun joint_values =>
                           length joint_values
                           = length (arm_joints_idx origin_sim))
                        [[0; 0; 0]; [1; 0; 0]])
    by (repeat constructor).
  split; [exact Hne|]. split; [exact Hlen|].
  exact (sim_execute_trajectory_nonempty [[0; 0; 0]; [1; 0; 0]] (1 / 10) true
           origin_sim Hne Hlen).
Defined.

Lemma sim_move_end_effector_single_step_witness :
  motor_commands
    (log (sim_move_end_effector_to_goal_pose tool_goal_pose 1 (1 / 10)
            origin_sim))
  = motor_commands (log origin_sim)
    ++ [sim_cartesian_to_joints (sim_get_current_end_effector_pose origin_sim)
                                origin_sim].
Proof.
  exact (sim_move_end_effector_single_step tool_goal_pose (1 / 10) origin_sim
           planar_slerp_start).
Defined.

Lemma small_turn_close :
  all_close [0; 0; 0] [0; 0; 0 + 1 / 1000] (seq 0 3) = Some true.
Proof.
  assert (H0 : ltb (Rabs (0 - 0)) (1 / 100) = true).
  { apply ltb_true. replace (0 - 0) with 0 by ring. rewrite Rabs_R0. lra. }
  assert (H1 : ltb (Rabs (0 - (0 + 1 / 1000))) (1 / 100) = true).
  { apply ltb_true. replace (0 - (0 + 1 / 1000)) with (- (1 / 1000)) by field.
    rewrite Rabs_Ropp, Rabs_right; lra. }
  cbn [seq all_close]. rewrite !index_nat. cbn [nth_error].
  now rewrite H0, H1.
Qed.

Lemma small_turn_returns :
  exists s',
    sim_rotate_end_effector 0 (1 / 1000) origin_sim
    = (Returned s', [RotateEndEffectorCompleted]).
Proof.
  unfold sim_rotate_end_effector.
  change (map (joint_angle (world origin_sim)) (arm_joints_idx origin_sim))
    with [0; 0; 0].
  change (add_to_last [0; 0; 0] (1 / 1000)) with (Some [0; 0; 0 + 1 / 1000]).
  cbv iota. cbn [rotate_end_effector_loop].
  set (s1 := sim_move_arm_to_joint_values _ origin_sim).
  change (map (joint_angle (world s1)) (arm_joints_idx s1)) with [0; 0; 0].
  change (length (arm_joints_idx s1)) with 3%nat.
  rewrite small_turn_close. eexists. reflexivity.
Qed.

Lemma sim_rotate_end_effector_reaches_witness :
  exists s' targets,
    sim_rotate_end_effector 0 (1 / 1000) origin_sim
    = (Returned s', [RotateEndEffectorCompleted])
    /\ add_to_last (map (joint_angle (world origin_sim))
                        (arm_joints_idx origin_sim)) (1 / 1000)
       = Some targets
    /\ motor_commands (log s') = motor_commands (log origin_sim) ++ [targets].
Proof.
  destruct small_turn_returns as [s' Hret].
  destruct (sim_rotate_end_effector_reaches 0 (1 / 1000) origin_sim s' _ Hret)
    as (_ & targets & Htargets & Hcmd & _).
  exists s', targets. repeat split; assumption.
Defined.

End ArmWitnesses.

(* ================================================================== *)
(** * Properties of the kitchen fixtures *)

Module KitchenFacts.
Import String Kitchen.

Lemma commands_app l1 l2 : commands (l1 ++ l2) = commands l1 ++ commands l2.
Proof. unfold commands. apply flat_map_app. Qed.

Lemma ticks_app l1 l2 : ticks (l1 ++ l2) = (ticks l1 + ticks l2)%nat.
Proof.
  unfold ticks. induction l1 as [|e l1 IH]; cbn [app fold_right].
  - reflexivity.
  - rewrite IH. destruct e; lia.
Qed.

(** Case analysis on an element name, as the [if]/[elif] chain does it. *)
Ltac by_element name :=
  destruct (String.eqb name "elementA"%string) eqn:?;
  [|destruct (String.eqb name "elementC"%string) eqn:?;
    [|destruct (String.eqb name "elementD"%string) eqn:?;
      [|destruct (String.eqb name "elementE"%string) eqn:?]]].

(** A key outside a table misses every entry. *)
Ltac miss_all d :=
  cbn [dict_get];
  repeat match goal with
         | |- context [(?k =? d)%Z] =>
             destruct (Z.eqb_spec k d); [lia|]
         end.

(** A drawer inside a range is one of its numbers. *)
Ltac each_drawer d :=
  let H1 := fresh "Hd" in
  assert (H1 : (d = 1 \/ d = 2 \/ d = 3 \/ d = 4 \/ d = 5 \/ d = 6 \/ d = 7
                \/ d = 8 \/ d = 9 \/ d = 10 \/ d = 11)%Z) by lia;
  repeat (destruct H1 as [H1|H1]); subst d; try lia.

Lemma drive_missing body ids limits side label d log :
  dict_get ids d = None -> drive body ids limits side label d log = KeyError log.
Proof. intros Hmiss. unfold drive. now rewrite Hmiss. Qed.

(** A drawer number that an element does not have makes both methods
    raise [KeyError] at the first table lookup: nothing is printed, no
    motor is commanded and the client is not ticked. *)
Theorem drawer_out_of_table (elementName : String.string) (drawer_id : Z)
    (log : list event) :
  known_element elementName = true ->
  has_drawer elementName drawer_id = false ->
  open_drawer elementName drawer_id log = KeyError log
  /\ close_drawer elementName drawer_id log = KeyError log.
Proof.
  unfold known_element, has_drawer, open_drawer, close_drawer.
  by_element elementName; cbn [orb]; intros Hk Hout; try discriminate.
  - apply andb_false_iff in Hout.
    rewrite Z.leb_gt, Z.leb_gt in Hout.
    rewrite !drive_missing;
      [split; reflexivity| |]; unfold elementA_drawer_to_joint_id;
      miss_all drawer_id; reflexivity.
  - apply andb_false_iff in Hout.
    rewrite Z.leb_gt, Z.leb_gt in Hout.
    rewrite !drive_missing;
      [split; reflexivity| |]; unfold elementC_drawer_to_joint_id;
      miss_all drawer_id; reflexivity.
  - apply Z.eqb_neq in Hout.
    rewrite !drive_missing;
      [split; reflexivity| |]; unfold elementD_drawer_to_joint_id;
      miss_all drawer_id; reflexivity.
  - apply andb_false_iff in Hout.
    rewrite Z.leb_gt, Z.leb_gt in Hout.
    rewrite !drive_missing;
      [split; reflexivity| |]; unfold elementE_drawer_to_joint_id;
      miss_all drawer_id; reflexivity.
Qed.

(** An element name outside the four the methods test for (the sink
    unit "elementB" among them) is no error: nothing is commanded, and the
    client is still ticked 1200 times. *)
Theorem unknown_element_only_ticks (elementName : String.string)
    (drawer_id : Z) (log : list event) :
  known_element elementName = false ->
  open_drawer elementName drawer_id log = Returned (log ++ [Run 1200])
  /\ close_drawer elementName drawer_id log = Returned (log ++ [Run 1200]).
Proof.
  unfold known_element, open_drawer, close_drawer.
  by_element elementName; cbn [orb]; intros Hk; try discriminate.
  split; reflexivity.
Qed.

(** Reading a table at a key: every entry is tried in turn. *)
Ltac hit_some d H :=
  cbn [dict_get] in H;
  repeat match type of H with
         | context [(?k =? d)%Z] =>
             destruct (Z.eqb_spec k d); [injection H as H; subst|]
         end;
  try discriminate H.

(** For a drawer the element has, both methods return; opening commands
    the joint the table gives for the drawer with a non-zero angle, and
    closing after it commands the same joint of the same body back to
    angle 0. *)
Theorem open_then_close_same_joint (elementName : String.string)
    (drawer_id : Z) (log : list event) :
  has_drawer elementName drawer_id = true ->
  exists body joint_ids joint_id angle log1 log2,
    tables_of elementName = Some (body, joint_ids)
    /\ dict_get joint_ids drawer_id = Some joint_id
    /\ open_drawer elementName drawer_id log = Returned log1
    /\ commands log1 = commands log ++ [(body, joint_id, angle)]
    /\ angle <> 0
    /\ close_drawer elementName drawer_id log1 = Returned log2
    /\ commands log2 = commands log1 ++ [(body, joint_id, 0)].
Proof.
  unfold has_drawer, tables_of, open_drawer, close_drawer.
  by_element elementName; intros Hin; try discriminate;
    try (apply andb_prop in Hin; rewrite !Z.leb_le in Hin);
    try (apply Z.eqb_eq in Hin;
         assert (Hr : (1 <= drawer_id <= 1)%Z) by lia; clear Hin);
    each_drawer drawer_id;
    unfold drive, elementA_drawer_to_joint_id, elementA_drawer_to_joint_limits,
      elementC_drawer_to_joint_id, elementC_drawer_to_joint_limits,
      elementD_drawer_to_joint_id, elementD_drawer_to_joint_limits,
      elementE_drawer_to_joint_id, elementE_drawer_to_joint_limits;
    cbn [dict_get Z.eqb Pos.eqb fst snd run];
    do 6 eexists;
    (split; [reflexivity|]); (split; [reflexivity|]);
    (split; [reflexivity|]);
    (split; [rewrite !commands_app; cbn [commands flat_map app];
             rewrite ?app_nil_r; reflexivity|]);
    (split; [lra|]); (split; [reflexivity|]);
    rewrite !commands_app; cbn [commands flat_map app];
    rewrite ?app_nil_r; reflexivity.
Qed.

(** [close_drawer] ticks the client twice for the dishwasher
    ("elementC"), 2400 ticks in all, and once, 1200 ticks, for every other
    element; [open_drawer] always ticks once. *)
Theorem close_drawer_ticks (elementName : String.string) (drawer_id : Z)
    (log : list event) :
  has_drawer elementName drawer_id = true ->
  exists log1 log2,
    open_drawer elementName drawer_id log = Returned log1
    /\ ticks log1 = (ticks log + 1200)%nat
    /\ close_drawer elementName drawer_id log = Returned log2
    /\ ticks log2
       = (ticks log
          + (if String.eqb elementName "elementC"%string then 2400 else 1200))%nat.
Proof.
  unfold has_drawer, open_drawer, close_drawer.
  by_element elementName; intros Hin; try discriminate;
    try match goal with
        | H : String.eqb elementName "elementA"%string = true |- _ =>
            apply String.eqb_eq in H; subst elementName;
            simpl (String.eqb _ _)
        end;
    try (apply andb_prop in Hin; rewrite !Z.leb_le in Hin);
    try (apply Z.eqb_eq in Hin;
         assert (Hr : (1 <= drawer_id <= 1)%Z) by lia; clear Hin);
    each_drawer drawer_id;
    unfold drive, elementA_drawer_to_joint_id, elementA_drawer_to_joint_limits,
      elementC_drawer_to_joint_id, elementC_drawer_to_joint_limits,
      elementD_drawer_to_joint_id, elementD_drawer_to_joint_limits,
      elementE_drawer_to_joint_id, elementE_drawer_to_joint_limits;
    cbn [dict_get Z.eqb Pos.eqb fst snd run];
    do 2 eexists;
    (split; [reflexivity|]);
    (split; [rewrite !ticks_app; cbn [ticks fold_right]; lia|]);
    (split; [reflexivity|]);
    rewrite !ticks_app; cbn [ticks fold_right]; lia.
Qed.

(** Within an element, different drawers are driven through different
    joints. *)
Theorem drawers_have_own_joints (elementName : String.string)
    (body : element) (joint_ids : list (Z * Z)) (d1 d2 j1 j2 : Z) :
  tables_of elementName = Some (body, joint_ids) ->
  dict_get joint_ids d1 = Some j1 ->
  dict_get joint_ids d2 = Some j2 ->
  d1 <> d2 -> j1 <> j2.
Proof.
  unfold tables_of.
  by_element elementName; intros Htab; try discriminate;
    injection Htab as <- <-; intros H1 H2 Hne;
    unfold elementA_drawer_to_joint_id, elementC_drawer_to_joint_id,
      elementD_drawer_to_joint_id, elementE_drawer_to_joint_id in H1, H2;
    hit_some d1 H1; hit_some d2 H2; lia.
Qed.

Lemma drawer_out_of_table_witness :
  known_element "elementC"%string = true
  /\ has_drawer "elementC"%string 4 = false
  /\ open_drawer "elementC"%string 4 [] = KeyError []
  /\ close_drawer "elementC"%string 4 [] = KeyError [].
Proof.
  split; [reflexivity|]. split; [reflexivity|].
  exact (drawer_out_of_table "elementC"%string 4 [] eq_refl eq_refl).
Defined.

Lemma unknown_element_only_ticks_witness :
  known_element "elementB"%string = false
  /\ open_drawer "elementB"%string 1 [] = Returned ([] ++ [Run 1200])
  /\ close_drawer "elementB"%string 1 [] = Returned ([] ++ [Run 1200]).
Proof.
  split; [reflexivity|].
  exact (unknown_element_only_ticks "elementB"%string 1 [] eq_refl).
Defined.

Lemma open_then_close_same_joint_witness :
  has_drawer "elementA"%string 11 = true
  /\ exists body joint_ids joint_id angle log1 log2,
       tables_of "elementA"%string = Some (body, joint_ids)
       /\ dict_get joint_ids 11 = Some joint_id
       /\ open_drawer "elementA"%string 11 [] = Returned log1
       /\ commands log1 = commands [] ++ [(body, joint_id, angle)]
       /\ angle <> 0
       /\ close_drawer "elementA"%string 11 log1 = Returned log2
       /\ commands log2 = commands log1 ++ [(body, joint_id, 0)].
Proof.
  split; [reflexivity|].
  exact (open_then_close_same_joint "elementA"%string 11 [] eq_refl).
Defined.

Lemma close_drawer_ticks_witness :
  has_drawer "elementC"%string 2 = true
  /\ exists log1 log2,
       open_drawer "elementC"%string 2 [] = Returned log1
       /\ ticks log1 = (ticks [] + 1200)%nat
       /\ close_drawer "elementC"%string 2 [] = Returned log2
       /\ ticks log2
          = (ticks []
             + (if String.eqb "elementC" "elementC" then 2400 else 1200))%nat.
Proof.
  split; [reflexivity|].
  exact (close_drawer_ticks "elementC"%string 2 [] eq_refl).
Defined.

Lemma drawers_have_own_joints_witness :
  tables_of "elementA"%string = Some (ElementA, elementA_drawer_to_joint_id)
  /\ dict_get elementA_drawer_to_joint_id 10 = Some 57%Z
  /\ dict_get elementA_drawer_to_joint_id 11 = Some 13%Z
  /\ 10%Z <> 11%Z
  /\ 57%Z <> 13%Z.
Proof.
  assert (Hne : 10%Z <> 11%Z) by lia.
  repeat (split; [first [reflexivity | exact Hne]|]).
  exact (drawers_have_own_joints "elementA"%string ElementA
           elementA_drawer_to_joint_id 10 11 57 13 eq_refl eq_refl eq_refl Hne).
Defined.

End KitchenFacts.

(* ================================================================== *)
(** * Properties of the keyframe recorder *)

Module PyBulletRecorderFacts.
Import String PyBulletRecorder.

Lemma dict_get_set {V : Type} (d : list (string * V)) (k k' : string) (v : V) :
  dict_get (dict_set d k v) k'
  = if String.eqb k k' then Some v else dict_get d k'.
Proof.
  induction d as [|[k0 v0] d IH]; cbn [dict_set dict_get].
  - reflexivity.
  - destruct (String.eqb_spec k0 k) as [->|Hk0]; cbn [dict_get].
    + now destruct (String.eqb k k').
    + destruct (String.eqb_spec k0 k') as [->|Hk0'].
      * destruct (String.eqb_spec k k'); [congruence|reflexivity].
      * exact IH.
Qed.

Lemma find_app {A : Type} (p : A -> bool) (l1 l2 : list A) :
  find p (l1 ++ l2)
  = match find p l1 with Some x => Some x | None => find p l2 end.
Proof.
  induction l1 as [|x l1 IH]; cbn [app find]; [reflexivity|].
  now destruct (p x).
Qed.

(** Filling a dict from a list of links: a name reads the value of the
    last link that has it, and what the dict held before otherwise. *)
Lemma fold_dict_set {V : Type} (value : LinkTracker -> V) (n : string)
    (ls : list LinkTracker) :
  forall d,
    dict_get (fold_left (fun d l => dict_set d (name l) (value l)) ls d) n
    = match last_named n ls with
      | Some l => Some (value l)
      | None => dict_get d n
      end.
Proof.
  unfold last_named.
  induction ls as [|l ls IH]; intros d; cbn [fold_left rev find].
  - reflexivity.
  - rewrite IH, find_app. cbn [find].
    destruct (find _ (rev ls)); [reflexivity|].
    rewrite dict_get_set. now destruct (String.eqb (name l) n).
Qed.

Lemma last_named_some (n : string) (ls : list LinkTracker) (l : LinkTracker) :
  last_named n ls = Some l -> In l ls /\ name l = n.
Proof.
  unfold last_named. intros Hf. apply find_some in Hf as [Hin Hn].
  split; [now apply in_rev | now apply String.eqb_eq].
Qed.

Lemma last_named_in (ls : list LinkTracker) (l : LinkTracker) :
  In l ls -> exists l', last_named (name l) ls = Some l'.
Proof.
  unfold last_named. intros Hin.
  destruct (find _ (rev ls)) as [l'|] eqn:Hf; [eauto|].
  pose proof (find_none _ _ Hf l (proj1 (in_rev _ _) Hin)) as Hfalse.
  cbn beta in Hfalse. rewrite String.eqb_refl in Hfalse. discriminate.
Qed.

Section Facts.
Context {W : Type} `{Bullet W}.

(** A name maps, in the output, to the data of the last link registered
    under it (so a link whose name repeats an earlier one replaces it), and
    names no link has are absent; the printed count is that of the
    retained keyframes. *)
Theorem get_formatted_output_last_link_wins (r : t) (link_name : string) :
  dict_get (fst (get_formatted_output r)) link_name
  = option_map (entry_of (states r)) (last_named link_name (links r))
  /\ snd (get_formatted_output r) = [PrintFramesNum (List.length (states r))].
Proof.
  split; [|reflexivity].
  unfold get_formatted_output. cbn [fst].
  rewrite (fold_dict_set (entry_of (states r))).
  now destruct (last_named link_name (links r)).
Qed.

Lemma current_state_get (w : W) (r : t) (n : string) :
  dict_get (fold_left (fun cs l => dict_set cs (name l)
                                            (get_keyframe w l (frame_cnt r)))
                      (links r) []) n
  = option_map (fun l => get_keyframe w l (frame_cnt r))
               (last_named n (links r)).
Proof.
  rewrite (fold_dict_set (fun l => get_keyframe w l (frame_cnt r))).
  now destruct (last_named n (links r)).
Qed.

Lemma frame_get_keyframe (w : W) (l : LinkTracker) (k : nat) :
  frame (get_keyframe w l k) = k.
Proof.
  unfold get_keyframe.
  destruct (link_id l =? -1)%Z;
    [destruct (getBasePositionAndOrientation w (body_id l))
    |destruct (getLinkState w (body_id l) (link_id l))];
    now destruct (transform l _ _).
Qed.

Lemma numbered_add_keyframe (w : W) (r : t) :
  numbered r -> numbered (add_keyframe w r).
Proof.
  intros [Hlen Hnum]. unfold numbered, add_keyframe.
  cbn [states frame_cnt]. rewrite length_app. cbn [List.length].
  split; [lia|].
  intros k state n f Hk Hf.
  destruct (Nat.lt_ge_cases k (List.length (states r))) as [Hlt|Hge].
  - rewrite nth_error_app1 in Hk by exact Hlt.
    rewrite (Hnum k state n f Hk Hf). lia.
  - rewrite nth_error_app2 in Hk by exact Hge.
    destruct (k - List.length (states r))%nat as [|m] eqn:Hm;
      [|destruct m; discriminate].
    cbn [nth_error] in Hk. injection Hk as <-.
    rewrite current_state_get in Hf.
    destruct (last_named n (links r)) as [l|]; [|discriminate].
    cbn [option_map] in Hf. injection Hf as <-.
    rewrite frame_get_keyframe. lia.
Qed.

(** The numbering of the retained keyframes is an invariant of the
    recorder: it holds when the recorder is created and is kept by
    [add_keyframe] and by [reset]; the frames of the retained keyframes
    carry consecutive numbers that end just below [frame_cnt]. *)
Theorem recorder_keeps_numbering :
  numbered init
  /\ forall r,
       numbered r ->
       (forall w, numbered (add_keyframe w r)) /\ numbered (reset r).
Proof.
  split.
  - split; [cbn; lia|]. intros [|k] state n f Hk; discriminate.
  - intros r Hr. split.
    + intros w. now apply numbered_add_keyframe.
    + destruct Hr as [Hlen _]. split; [cbn; lia|].
      intros [|k] state n f Hk; discriminate.
Qed.

(** [reset] drops the keyframes but not the counter: the first keyframe
    taken after a reset is the only one retained, and each of its frames
    carries the number of keyframes taken since the recorder was created,
    not 0. *)
Theorem reset_keeps_counting (w : W) (r : t) :
  exists state,
    states (add_keyframe w (reset r)) = [state]
    /\ frame_cnt (add_keyframe w (reset r)) = S (frame_cnt r)
    /\ forall link_name f,
         dict_get state link_name = Some f -> frame f = frame_cnt r.
Proof.
  eexists. split; [reflexivity|]. split; [reflexivity|].
  intros n f Hf.
  change (frame_cnt r) with (frame_cnt (reset r)) at 1.
  rewrite (current_state_get w (reset r)) in Hf.
  destruct (last_named n (links (reset r))) as [l|]; [|discriminate].
  cbn [option_map] in Hf. injection Hf as <-. apply frame_get_keyframe.
Qed.

Lemma add_keyframes_frame (ws : list W) :
  forall r,
    links (add_keyframes ws r) = links r
    /\ frame_cnt (add_keyframes ws r) = (frame_cnt r + List.length ws)%nat
    /\ List.length (states (add_keyframes ws r))
       = (List.length (states r) + List.length ws)%nat
    /\ (numbered r -> numbered (add_keyframes ws r))
    /\ forall state,
         In state (states (add_keyframes ws r)) ->
         In state (states r)
         \/ forall l, In l (links r) -> dict_get state (name l) <> None.
Proof.
  unfold add_keyframes.
  induction ws as [|w ws IH]; intros r; cbn [fold_left List.length].
  - split; [reflexivity|]. split; [lia|]. split; [lia|].
    split; [tauto|]. intros state Hstate. now left.
  - destruct (IH (add_keyframe w r)) as (Hl & Hc & Hs & Hn & Hin).
    rewrite Hl, Hc, Hs. cbn [links frame_cnt states add_keyframe].
    rewrite length_app. cbn [List.length].
    split; [reflexivity|]. split; [lia|]. split; [lia|]. split.
    + intros Hr. apply Hn. now apply numbered_add_keyframe.
    + intros state Hstate. destruct (Hin state Hstate) as [Hold | Hnew].
      * cbn [states add_keyframe] in Hold. apply in_app_or in Hold.
        destruct Hold as [Hold | [<- | []]]; [now left|].
        right. intros l Hl'. rewrite current_state_get.
        destruct (last_named_in (links r) l Hl') as [l' ->]. discriminate.
      * right. exact Hnew.
Qed.

Lemma frames_of_all (n : string) (sts : list (list (string * Frame))) :
  (forall state, In state sts -> dict_get state n <> None) ->
  List.length (frames_of n sts) = List.length sts
  /\ forall k f,
       nth_error (frames_of n sts) k = Some f ->
       exists state, nth_error sts k = Some state /\ dict_get state n = Some f.
Proof.
  unfold frames_of.
  induction sts as [|st sts IH]; intros Hall; cbn [flat_map List.length].
  - split; [reflexivity|]. intros [|k] f Hk; discriminate.
  - destruct (dict_get st n) as [f0|] eqn:Hst;
      [|now destruct (Hall st (or_introl eq_refl))].
    destruct IH as [Hlen Hnth]; [intros s Hs; apply Hall; now right|].
    cbn [app List.length]. split; [now rewrite Hlen|].
    intros [|k] f Hk; cbn [nth_error] in *.
    + injection Hk as <-. eauto.
    + now apply Hnth.
Qed.

(** Keyframes taken with the same links registered, starting from a
    recorder that retains none: in the output every registered link has an
    entry with exactly one frame per keyframe, numbered consecutively from
    the count the recorder started with. *)
Theorem every_link_gets_every_keyframe
    (ws : list W) (r0 : t) (l : LinkTracker) :
  states r0 = [] ->
  In l (links r0) ->
  exists e,
    dict_get (fst (get_formatted_output (add_keyframes ws r0))) (name l)
    = Some e
    /\ List.length (frames e) = List.length ws
    /\ (forall k f,
          nth_error (frames e) k = Some f -> frame f = (frame_cnt r0 + k)%nat)
    /\ snd (get_formatted_output (add_keyframes ws r0))
       = [PrintFramesNum (List.length ws)].
Proof.
  intros Hempty Hl.
  destruct (add_keyframes_frame ws r0) as (Hlinks & Hcnt & Hlen & Hnum & Hin).
  rewrite Hempty in Hlen. cbn [List.length] in Hlen.
  destruct (get_formatted_output_last_link_wins (add_keyframes ws r0) (name l))
    as [Hget Hprint].
  rewrite Hlinks in Hget.
  destruct (last_named_in (links r0) l Hl) as [l' Hl'].
  rewrite Hl' in Hget. cbn [option_map] in Hget.
  destruct (last_named_some _ _ _ Hl') as [_ Hname].
  exists (entry_of (states (add_keyframes ws r0)) l').
  split; [exact Hget|].
  unfold entry_of. cbn [frames]. rewrite Hname.
  destruct (frames_of_all (name l) (states (add_keyframes ws r0)))
    as [Hflen Hfnth].
  { intros state Hstate. destruct (Hin state Hstate) as [Hold | Hnew].
    - rewrite Hempty in Hold. destruct Hold.
    - now apply Hnew. }
  split; [now rewrite Hflen, Hlen|]. split.
  - intros k f Hk. destruct (Hfnth k f Hk) as (state & Hstate & Hf).
    destruct Hnum as [_ Hnumbered].
    { split; [rewrite Hempty; cbn; lia|].
      rewrite Hempty. intros [|k'] ? ? ? Hk'; discriminate. }
    rewrite (Hnumbered k state (name l) f Hstate Hf), Hcnt, Hlen. lia.
  - now rewrite Hprint, Hlen.
Qed.

End Facts.

Lemma recorder_keeps_numbering_witness :
  numbered init
  /\ numbered (@add_keyframe unit still_bullet tt init)
  /\ numbered (reset init).
Proof.
  destruct (@recorder_keeps_numbering unit still_bullet) as [Hinit Hstep].
  split; [exact Hinit|].
  destruct (Hstep init Hinit) as [Hadd Hreset].
  split; [exact (Hadd tt) | exact Hreset].
Defined.

Lemma every_link_gets_every_keyframe_witness :
  states used_recorder = []
  /\ In hand_tracker (links used_recorder)
  /\ exists e,
       dict_get (fst (@get_formatted_output
                        (@add_keyframes unit still_bullet [tt; tt; tt]
                                        used_recorder)))
                (name hand_tracker) = Some e
       /\ List.length (frames e) = 3%nat
       /\ (forall k f,
             nth_error (frames e) k = Some f -> frame f = (5 + k)%nat)
       /\ snd (@get_formatted_output
                 (@add_keyframes unit still_bullet [tt; tt; tt] used_recorder))
          = [PrintFramesNum 3].
Proof.
  assert (Hin : In hand_tracker (links used_recorder)) by (right; now left).
  split; [reflexivity|]. split; [exact Hin|].
  exact (@every_link_gets_every_keyframe unit still_bullet [tt; tt; tt]
           used_recorder hand_tracker eq_refl Hin).
Defined.

End PyBulletRecorderFacts.

(* ================================================================== *)
(** * Convergence of the proportional base controller *)

Section Polar.
Import PyFloat PyFloatFacts.

Lemma atan_polar x y :
  x <> 0 ->
  let d := sqrt (y ^ 2 + x ^ 2) in
  Rabs x = d * cos (atan (y / x))
  /\ y * (Rabs x / x) = d * sin (atan (y / x)).
Proof.
  intros Hx d.
  assert (Hd2 : 0 < y ^ 2 + x ^ 2) by nra.
  assert (Hd : 0 < d) by (apply sqrt_lt_R0; exact Hd2).
  assert (Hax : 0 < Rabs x) by (now apply Rabs_pos_lt).
  assert (Hroot : sqrt (1 + (y / x)²) = d / Rabs x).
  { rewrite <- (sqrt_Rsqr (d / Rabs x)).
    - f_equal. unfold Rsqr, d.
      replace (sqrt (y ^ 2 + x ^ 2) / Rabs x * (sqrt (y ^ 2 + x ^ 2) / Rabs x))
        with (sqrt (y ^ 2 + x ^ 2) * sqrt (y ^ 2 + x ^ 2) / (Rabs x * Rabs x))
        by (field; lra).
      rewrite sqrt_sqrt by lra.
      replace (Rabs x * Rabs x) with (x * x)
        by (unfold Rabs; destruct (Rcase_abs x); ring).
      field. exact Hx.
    - apply Rlt_le. apply Rdiv_lt_0_compat; assumption. }
  rewrite cos_atan, sin_atan, Hroot. split; field; split; lra.
Qed.

(** [math.atan2] gives the polar angle: a vector that is not null is its
    length times the cosine and sine of its [atan2]. *)
Lemma atan2_polar y x :
  x <> 0 \/ y <> 0 ->
  let d := sqrt (y ^ 2 + x ^ 2) in
  x = d * cos (atan2 y x) /\ y = d * sin (atan2 y x).
Proof.
  intros Hnz d. unfold atan2.
  destruct (Rlt_dec 0 x) as [Hpos|Hnpos].
  - destruct (atan_polar x y) as [Hc Hs]; [lra|].
    fold d in Hc, Hs. rewrite Rabs_right in Hc, Hs by lra.
    split; [exact Hc|]. rewrite <- Hs. field. lra.
  - destruct (Rlt_dec x 0) as [Hneg|Hnneg].
    + destruct (atan_polar x y) as [Hc Hs]; [lra|].
      fold d in Hc, Hs. rewrite Rabs_left in Hc, Hs by lra.
      assert (Hs' : - y = d * sin (atan (y / x))) by (rewrite <- Hs; field; lra).
      destruct (Rle_dec 0 y).
      * rewrite neg_cos, neg_sin. split; lra.
      * replace (atan (y / x) - PI) with (- (- atan (y / x) + PI)) by ring.
        rewrite cos_neg, sin_neg, neg_cos, neg_sin, cos_neg, sin_neg.
        split; lra.
    + assert (Hx : x = 0) by lra. subst x.
      assert (Hy : y <> 0) by (destruct Hnz; [lra|assumption]).
      assert (Hd : d = Rabs y).
      { unfold d. replace (y ^ 2 + 0 ^ 2) with (Rsqr y) by (unfold Rsqr; ring).
        apply sqrt_Rsqr_abs. }
      destruct (Rlt_dec 0 y).
      * rewrite cos_PI2, sin_PI2, Hd, Rabs_right by lra. split; ring.
      * destruct (Rlt_dec y 0); [|lra].
        rewrite cos_neg, sin_neg, cos_PI2, sin_PI2, Hd, Rabs_left by lra.
        split; ring.
Qed.

(** The stand-in engine reads back the yaw it is given. *)
Lemma planar_engine_readback : @yaw_readback planar_engine.
Proof.
  intros yaw. unfold angle_to_quaternion.
  cbn [getEulerFromQuaternion planar_engine v2 q2 q3].
  set (h := yaw / 2).
  destruct (atan2_polar (sin h) (cos h)) as [Hc Hs].
  { destruct (Req_dec (cos h) 0) as [Hz|Hnz]; [right|now left].
    intros Hs0. pose proof (sin2_cos2 h) as H1. unfold Rsqr in H1.
    rewrite Hz, Hs0 in H1. lra. }
  assert (Hone : sqrt (sin h ^ 2 + cos h ^ 2) = 1).
  { replace (sin h ^ 2 + cos h ^ 2) with ((sin h)² + (cos h)²)
      by (unfold Rsqr; ring).
    rewrite sin2_cos2. apply sqrt_1. }
  rewrite Hone, Rmult_1_l in Hc, Hs.
  replace yaw with (2 * h) by (unfold h; field).
  rewrite !cos_2a, !sin_2a, <- Hc, <- Hs. split; reflexivity.
Qed.

End Polar.

Section ProportionalControl.
Context `{Engine}.
Import PyFloat PyFloatFacts.

Lemma same_attributes_refl s : same_attributes s s.
Proof. repeat split. Qed.

Lemma same_attributes_trans s1 s2 s3 :
  same_attributes s1 s2 -> same_attributes s2 s3 -> same_attributes s1 s3.
Proof.
  unfold same_attributes. intros (?&?&?&?&?&?) (?&?&?&?&?&?).
  repeat split; congruence.
Qed.

Lemma same_attributes_sync s : same_attributes s (sim_sync_base_arm_pose s).
Proof.
  unfold sim_sync_base_arm_pose.
  destruct (arm_id s) eqn:Harm; repeat split; cbn; congruence.
Qed.

Lemma same_attributes_apply q s :
  same_attributes s (apply_base_orientation q s).
Proof.
  unfold apply_base_orientation.
  apply (same_attributes_trans _ (resetBasePositionAndOrientation BaseBody
                                    (base_position (world s)) q s)).
  - repeat split.
  - apply same_attributes_sync.
Qed.

Lemma same_attributes_rotate_loop fuel :
  forall target step d s s',
    rotate_loop fuel target step d s = Some s' -> same_attributes s s'.
Proof.
  induction fuel as [|fuel IH]; intros target step d s s'; cbn [rotate_loop];
    destruct (ltb step (Rabs d)); try discriminate;
    try (intros [= <-]; apply same_attributes_refl).
  unfold rotate_step.
  set (s2 := set_current_base_yaw (py_mod _ _ - PI) _).
  intros Hloop. apply IH in Hloop.
  apply (same_attributes_trans _ s2);
    [unfold s2; destruct (ltb 0 d); repeat split|].
  eapply same_attributes_trans; [|exact Hloop].
  eapply same_attributes_trans; [apply same_attributes_apply|].
  repeat split.
Qed.

(** A gradual rotation on fixed bodies: it returns with enough fuel, turns
    the base in place and leaves the other attributes alone. *)
Lemma rotate_gradual_in_place target step s fuel :
  fixed_bodies ->
  0 < step ->
  (rotate_fuel step (shortest_angular_distance (current_base_yaw s) target)
   <= fuel)%nat ->
  exists s',
    sim_rotate_base fuel target true step s = Some s'
    /\ base_position (world s') = base_position (world s)
    /\ base_orientation (world s') = angle_to_quaternion target
    /\ same_attributes s s'.
Proof.
  intros Hfixed Hstep Hfuel.
  destruct (sim_rotate_base_gradual_returns target step s fuel Hstep Hfuel)
    as (s1 & Hloop & _ & Hret).
  eexists. split; [exact Hret|].
  destruct (rotate_loop_fixed fuel Hfixed _ _ _ _ _ Hloop) as (Hp & _ & _).
  destruct (apply_base_orientation_world (angle_to_quaternion target) s1)
    as (Hap & Hao & _ & _ & _).
  set (s3 := set_current_base_yaw target _).
  destruct (run_fixed None s3 Hfixed) as (Hrp & Hro & _).
  rewrite Hrp, Hro. unfold s3. cbn [world set_current_base_yaw].
  rewrite Hap, Hao, Hp. do 2 (split; [reflexivity|]).
  apply (same_attributes_trans _ s1).
  - apply (same_attributes_trans _ (emit (EnterRotateBase target true) s));
      [repeat split|].
    exact (same_attributes_rotate_loop _ _ _ _ _ _ Hloop).
  - eapply same_attributes_trans; [apply same_attributes_apply|].
    repeat split.
Qed.

Lemma distance_along_heading yaw r s :
  heading_to_waypoint yaw r s -> waypoint_distance s = r.
Proof.
  intros (_ & Hx & Hy & Hr).
  unfold waypoint_distance, sim_get_current_base_pose.
  unfold pose_x at 2, pose_y at 2. cbn [position].
  rewrite Hx, Hy.
  replace ((r * sin yaw) ^ 2 + (r * cos yaw) ^ 2)
    with (r ^ 2 * ((sin yaw)² + (cos yaw)²)) by (unfold Rsqr; ring).
  rewrite sin2_cos2, Rmult_1_r. now apply sqrt_pow2.
Qed.

(** The translation of one pass: moving [k * r] along the heading leaves
    the waypoint [(1 - k) * r] ahead on the same heading. *)
Lemma action_along_heading (tick : bool) yaw r k s :
  fixed_bodies -> yaw_readback ->
  heading_to_waypoint yaw r s ->
  0 <= k <= 1 ->
  let s4 := sim_action (k * r) s in
  let s' := if tick then run None s4 else s4 in
  heading_to_waypoint yaw ((1 - k) * r) s'
  /\ same_attributes s s'
  /\ distance_controller s' = distance_controller s.
Proof.
  intros Hfixed Hread (Ho & Hx & Hy & Hr) Hk s4 s'.
  assert (H4 : heading_to_waypoint yaw ((1 - k) * r) s4
               /\ same_attributes s s4).
  { unfold s4, sim_action.
    set (s1 := resetBasePositionAndOrientation BaseBody _ _ s).
    destruct (world_sync s1) as [Hp1 Ho1].
    pose proof (same_attributes_sync s1) as Hattr.
    destruct (Hread yaw) as [Hcos Hsin].
    split.
    - unfold heading_to_waypoint.
      destruct Hattr as (_ & _ & _ & _ & _ & Hw). rewrite Hw, Hp1, Ho1.
      unfold s1. cbn [world resetBasePositionAndOrientation emit set_world
                      base_position base_orientation next_waypoint v0 v1].
      rewrite Ho, Hcos, Hsin.
      split; [reflexivity|]. split; [lra|]. split; [lra|]. nra.
    - apply (same_attributes_trans _ s1); [repeat split | exact Hattr]. }
  destruct H4 as [Hhead4 Hattr4].
  unfold s'. destruct tick.
  - destruct (run_fixed None s4 Hfixed) as (Hrp & Hro & _).
    destruct Hhead4 as (Ho4 & Hx4 & Hy4 & Hr4).
    split; [|split].
    + unfold heading_to_waypoint. rewrite Hrp, Hro.
      cbn [next_waypoint run emit set_world]. repeat split; assumption.
    + apply (same_attributes_trans _ s4); [exact Hattr4 | repeat split].
    + cbn [distance_controller run emit set_world].
      now destruct Hattr4 as (_ & _ & _ & -> & _).
  - split; [exact Hhead4|]. split; [exact Hattr4|].
    now destruct Hattr4 as (_ & _ & _ & -> & _).
Qed.

Lemma translate_only_pass cnt k yaw r s :
  fixed_bodies -> yaw_readback ->
  proportional k s ->
  heading_to_waypoint yaw r s ->
  0 <= k <= 1 ->
  heading_to_waypoint yaw ((1 - k) * r) (translate_only cnt s)
  /\ proportional k (translate_only cnt s)
  /\ base_rotated (translate_only cnt s) = base_rotated s.
Proof.
  intros Hfixed Hread (HKp & HKi & HKd & Htd) Hhead Hk.
  unfold translate_only.
  rewrite (distance_along_heading yaw r s Hhead).
  set (c0 := PIDController.set_goal (distance_controller s) (target_distance s)).
  set (res := PIDController.calculate c0 r).
  assert (Hout : - fst res = k * r).
  { unfold res, c0, PIDController.calculate, PIDController.set_goal.
    cbn [fst PIDController.Kp PIDController.Ki PIDController.Kd
         PIDController.setpoint PIDController.integral
         PIDController.previous_error].
    rewrite HKp, HKi, HKd, Htd. ring. }
  rewrite Hout.
  set (sc := set_distance_controller (snd res) s).
  assert (Hheadc : heading_to_waypoint yaw r sc) by exact Hhead.
  destruct (action_along_heading (cnt mod 20 =? 0)%nat yaw r k sc
              Hfixed Hread Hheadc Hk) as (Hh & Hattr & Hdc).
  cbv zeta in Hh, Hattr, Hdc.
  split; [exact Hh|]. split.
  - unfold proportional. rewrite Hdc.
    destruct Hattr as (_ & _ & Htd' & _). rewrite Htd'.
    unfold sc, res, c0, PIDController.calculate, PIDController.set_goal.
    cbn. repeat split; assumption.
  - now destruct Hattr as (_ & _ & _ & _ & -> & _).
Qed.

(** The pass that rotates: with fuel for the rotation, it turns the base
    towards the waypoint and moves it [k] times the distance along that
    heading. *)
Lemma first_pass_contracts fuel cnt k s :
  fixed_bodies -> yaw_readback -> 0 <= k <= 1 ->
  base_rotated s = false ->
  proportional k s ->
  0 < waypoint_distance s ->
  (rotate_fuel default_step_size
     (shortest_angular_distance (current_base_yaw s)
        (atan2 (pose_y (next_waypoint s) - v1 (base_position (world s)))
               (pose_x (next_waypoint s) - v0 (base_position (world s)))))
   <= fuel)%nat ->
  exists yaw s',
    waypoint_step fuel cnt (waypoint_distance s) s = Some s'
    /\ heading_to_waypoint yaw ((1 - k) * waypoint_distance s) s'
    /\ proportional k s'
    /\ base_rotated s' = true
    /\ next_waypoint s' = next_waypoint s.
Proof.
  intros Hfixed Hread Hk Hrot (HKp & HKi & HKd & Htd) Hpos Hfuel.
  set (dx := pose_x (next_waypoint s) - v0 (base_position (world s))) in *.
  set (dy := pose_y (next_waypoint s) - v1 (base_position (world s))) in *.
  set (d := waypoint_distance s) in *.
  assert (Hd : d = sqrt (dy ^ 2 + dx ^ 2)) by reflexivity.
  assert (Hnz : dx <> 0 \/ dy <> 0).
  { destruct (Req_dec dx 0) as [Hx0|]; [right|now left].
    intros Hy0. rewrite Hd, Hx0, Hy0 in Hpos.
    replace (0 ^ 2 + 0 ^ 2) with 0 in Hpos by ring. rewrite sqrt_0 in Hpos. lra. }
  destruct (atan2_polar dy dx Hnz) as [Hcx Hsy]. rewrite <- Hd in Hcx, Hsy.
  set (yaw := atan2 dy dx) in *.
  unfold waypoint_step.
  set (c0 := PIDController.set_goal (distance_controller s) (target_distance s)).
  cbn [distance_controller set_distance_controller].
  destruct (PIDController.calculate c0 d) as [output c] eqn:Hcalc.
  assert (Hout : - output = k * d).
  { unfold c0, PIDController.calculate, PIDController.set_goal in Hcalc.
    cbn [PIDController.Kp PIDController.Ki PIDController.Kd
         PIDController.setpoint PIDController.integral
         PIDController.previous_error] in Hcalc.
    injection Hcalc as Ho _. rewrite <- Ho, HKp, HKi, HKd, Htd. ring. }
  assert (Hc : PIDController.Kp c = k /\ PIDController.Ki c = 0
               /\ PIDController.Kd c = 0).
  { unfold c0, PIDController.calculate, PIDController.set_goal in Hcalc.
    injection Hcalc as _ Hc. rewrite <- Hc. cbn. repeat split; assumption. }
  set (s2 := set_distance_controller c (set_distance_controller c0 s)).
  change (base_rotated s2) with (base_rotated s). rewrite Hrot. cbn [negb].
  change (pose_y (next_waypoint s) - pose_y (sim_get_current_base_pose s))
    with dy.
  change (pose_x (next_waypoint s) - pose_x (sim_get_current_base_pose s))
    with dx.
  fold yaw.
  destruct (rotate_gradual_in_place yaw default_step_size s2 fuel Hfixed)
    as (sr & Hret & Hp & Ho & Hattr);
    [unfold default_step_size; lra | exact Hfuel |].
  rewrite Hret. cbn [option_map]. rewrite Hout.
  set (s3 := set_base_rotated true sr).
  assert (Hhead3 : heading_to_waypoint yaw d s3).
  { unfold heading_to_waypoint, s3.
    cbn [world next_waypoint set_base_rotated].
    destruct Hattr as (_ & _ & _ & _ & _ & Hw). rewrite Ho, Hp, Hw.
    unfold s2. cbn [world next_waypoint set_distance_controller].
    fold dx dy. split; [reflexivity|]. split; [lra|]. split; [lra|]. lra. }
  destruct (action_along_heading (cnt mod 20 =? 0)%nat yaw d k s3
              Hfixed Hread Hhead3 Hk) as (Hh & Hattr4 & Hdc).
  cbv zeta in Hh, Hattr4, Hdc.
  exists yaw. eexists. split; [reflexivity|]. split; [exact Hh|].
  destruct Hattr as (_ & _ & Htd2 & Hdc2 & _ & Hw2).
  destruct Hattr4 as (_ & _ & Htd4 & _ & Hb4 & Hw4).
  split; [|split].
  - unfold proportional. rewrite Hdc, Htd4. unfold s3.
    cbn [distance_controller target_distance set_base_rotated].
    rewrite Hdc2, Htd2. unfold s2.
    cbn [distance_controller target_distance set_distance_controller].
    destruct Hc as (? & ? & ?). repeat split; assumption.
  - rewrite Hb4. reflexivity.
  - rewrite Hw4. unfold s3. cbn [next_waypoint set_base_rotated].
    rewrite Hw2. reflexivity.
Qed.

(** From a state in which the base faces the waypoint, the loop makes
    exactly [m] passes when [m] is the first number of passes that brings
    the distance below the threshold. *)
Lemma waypoint_loop_passes k threshold :
  fixed_bodies -> yaw_readback -> 0 <= k <= 1 ->
  forall m fuel cnt yaw r s,
    (m <= fuel)%nat ->
    base_rotated s = true ->
    proportional k s ->
    heading_to_waypoint yaw r s ->
    (1 - k) ^ m * r < threshold ->
    (forall j, (j < m)%nat -> threshold <= (1 - k) ^ j * r) ->
    (exists s', waypoint_loop fuel threshold cnt s = Some s')
    /\ waypoint_passes fuel threshold cnt s = m.
Proof.
  intros Hfixed Hread Hk.
  induction m as [|m IH]; intros fuel cnt yaw r s Hfuel Hrot Hprop Hhead Hlt Hge;
    pose proof (distance_along_heading yaw r s Hhead) as Hd.
  - assert (Hc : ltb (waypoint_distance s) threshold = true)
      by (apply ltb_true; rewrite Hd; cbn [pow] in Hlt; lra).
    destruct fuel; cbn [waypoint_loop waypoint_passes]; rewrite Hc; eauto.
  - assert (Hc : ltb (waypoint_distance s) threshold = false).
    { apply ltb_false. rewrite Hd.
      specialize (Hge 0%nat (Nat.lt_0_succ m)). cbn [pow] in Hge. lra. }
    destruct fuel as [|fuel]; [lia|].
    cbn [waypoint_loop waypoint_passes]. rewrite Hc.
    rewrite (waypoint_step_rotated fuel cnt s Hrot).
    destruct (translate_only_pass cnt k yaw r s Hfixed Hread Hprop Hhead Hk)
      as (Hhead' & Hprop' & Hrot').
    destruct (IH fuel (S cnt) yaw ((1 - k) * r) (translate_only cnt s))
      as (Hloop & Hpasses);
      [lia | congruence | exact Hprop' | exact Hhead'
      | cbn [pow] in Hlt; lra | |].
    + intros j Hj. specialize (Hge (S j) (proj1 (Nat.succ_lt_mono j m) Hj)).
      cbn [pow] in Hge. lra.
    + split; [exact Hloop | now rewrite Hpasses].
Qed.

End ProportionalControl.

(** *** A run of twenty-two passes *)

Section SlowWaypointRun.
#[local] Existing Instance planar_engine.
Import PyFloat PyFloatFacts.

Lemma slow_distance_at_entry :
  waypoint_distance (waypoint_entry east_waypoint slow_sim) = 1.
Proof.
  unfold waypoint_distance, pose_x, pose_y. cbn -[pow].
  replace ((0 - 0) ^ 2 + (1 - 0) ^ 2) with 1 by ring. apply sqrt_1.
Qed.

(** With gain 1/10 and threshold 1/10 the waypoint one unit ahead takes 22
    passes: the distance left after pass [j] is [(9/10)^j]. *)
Lemma slow_waypoint_run :
  exists fuel s'',
    sim_move_base_to_waypoint fuel east_waypoint (1 / 10) slow_sim = Some s''
    /\ waypoint_passes fuel (1 / 10) 1 (waypoint_entry east_waypoint slow_sim)
       = 22%nat.
Proof.
  set (s0 := waypoint_entry east_waypoint slow_sim).
  assert (Hk : 0 <= 1 / 10 <= 1) by lra.
  assert (Hprop0 : proportional (1 / 10) s0) by (repeat split).
  set (fuel := (21 + rotate_fuel default_step_size
                       (shortest_angular_distance (current_base_yaw s0)
                          (atan2 (pose_y (next_waypoint s0)
                                  - v1 (base_position (world s0)))
                                 (pose_x (next_waypoint s0)
                                  - v0 (base_position (world s0))))))%nat).
  destruct (first_pass_contracts fuel 1 (1 / 10) s0
              planar_engine_fixed planar_engine_readback Hk eq_refl Hprop0)
    as (yaw & s1 & Hstep & Hhead1 & Hprop1 & Hrot1 & _);
    [unfold s0; rewrite slow_distance_at_entry; lra | unfold fuel; lia |].
  unfold s0 in Hstep, Hhead1. rewrite slow_distance_at_entry in Hstep, Hhead1.
  destruct (waypoint_loop_passes (1 / 10) (1 / 10)
              planar_engine_fixed planar_engine_readback Hk
              21 fuel 2%nat yaw ((1 - 1 / 10) * 1) s1)
    as ((s' & Hloop) & Hpasses);
    [unfold fuel; lia | exact Hrot1 | exact Hprop1 | exact Hhead1
    | cbn [pow]; lra | |].
  { intros j Hj.
    do 21 (destruct j as [|j]; [cbn [pow]; lra|]). lia. }
  assert (Hc0 : ltb 1 (1 / 10) = false) by (apply ltb_false; lra).
  exists (S fuel), (run None s'). split.
  - unfold sim_move_base_to_waypoint. cbn [waypoint_loop].
    rewrite slow_distance_at_entry, Hc0, Hstep, Hloop. reflexivity.
  - unfold s0. cbn [waypoint_passes].
    rewrite slow_distance_at_entry, Hc0, Hstep, Hpasses. reflexivity.
Qed.

Lemma sim_move_base_to_waypoint_exit_and_ticks_witness :
  exists fuel s'',
    sim_move_base_to_waypoint fuel east_waypoint (1 / 10) slow_sim = Some s''
    /\ exists s' rot acts,
         waypoint_loop fuel (1 / 10) 1 (waypoint_entry east_waypoint slow_sim)
         = Some s'
         /\ sqrt ((pose_y east_waypoint
                   - pose_y (sim_get_current_base_pose s')) ^ 2
                  + (pose_x east_waypoint
                     - pose_x (sim_get_current_base_pose s')) ^ 2)
            < 1 / 10
         /\ s'' = run None s'
         /\ log s'' = log slow_sim ++ rot ++ passes_log 1 acts
                       ++ [ClientRun None]
         /\ length acts = 22%nat
         /\ Forall (fun act => filter is_client_run act = []) acts
         /\ (acts = [] -> rot = [])
         /\ (acts <> [] ->
             exists fuel' yaw s2 sr ev,
               sim_rotate_base fuel' yaw true default_step_size s2 = Some sr
               /\ log s2 = log slow_sim
               /\ log sr = log s2 ++ rot
               /\ rot = EnterRotateBase yaw true :: ev ++ [ClientRun None]).
Proof.
  destruct slow_waypoint_run as (fuel & s'' & Hret & Hpasses).
  exists fuel, s''. split; [exact Hret|].
  rewrite <- Hpasses.
  exact (sim_move_base_to_waypoint_exit_and_ticks fuel east_waypoint (1 / 10)
           slow_sim s'' Hret).
Defined.

End SlowWaypointRun.

(* ================================================================== *)
(** * The base rotation in floating point *)

Lemma Rabs_bounds x b : Rabs x <= b -> - b <= x <= b.
Proof. unfold Rabs. destruct (Rcase_abs x); lra. Qed.

Lemma Rabs_diff a b : Rabs (a - b) <= Rabs a + Rabs b.
Proof. unfold Rabs. repeat destruct Rcase_abs; lra. Qed.

Section RoundedMethods.
Context `{Engine}.
Import PyFloat PyFloatFacts.
Variable A : PyArith.Arith R.

Lemma rotate_step_yaw target step d s :
  fst (Rounded.rotate_step A target step d s)
  = fst (PyArith.rotate_yaw_step A target step d (current_base_yaw s))
  /\ current_base_yaw (snd (Rounded.rotate_step A target step d s))
     = snd (PyArith.rotate_yaw_step A target step d (current_base_yaw s)).
Proof.
  unfold Rounded.rotate_step, PyArith.rotate_yaw_step,
    Rounded.shortest_angular_distance.
  cbn [fst snd]. unfold run. cbn [current_base_yaw emit set_world].
  rewrite yaw_apply.
  destruct (PyArith.ltb A (PyArith.zero A) d); split; reflexivity.
Qed.

(** The loop on the object follows the loop on its two variables. *)
Lemma rotate_loop_yaw fuel :
  forall target step d s,
    option_map current_base_yaw (Rounded.rotate_loop A fuel target step d s)
    = PyArith.rotate_yaw_loop A fuel target step d (current_base_yaw s).
Proof.
  induction fuel as [|fuel IH]; intros target step d s;
    cbn [Rounded.rotate_loop PyArith.rotate_yaw_loop];
    destruct (PyArith.ltb A step (PyArith.abs A d)); try reflexivity.
  destruct (rotate_step_yaw target step d s) as [Hd Hy].
  destruct (Rounded.rotate_step A target step d s) as [d' s'].
  destruct (PyArith.rotate_yaw_step A target step d (current_base_yaw s))
    as [d'' y'].
  cbn [fst snd] in Hd, Hy. subst d'' y'. apply IH.
Qed.

Lemma rounded_gradual_tail fuel target step s s1 :
  Rounded.rotate_loop A fuel target step
    (Rounded.shortest_angular_distance A (current_base_yaw s) target)
    (emit (EnterRotateBase target true) s) = Some s1 ->
  Rounded.sim_rotate_base A fuel target true step s
  = Some (run None (set_current_base_yaw target
                      (apply_base_orientation (angle_to_quaternion target) s1))).
Proof.
  intros Hloop. unfold Rounded.sim_rotate_base.
  cbn [current_base_yaw emit]. now rewrite Hloop.
Qed.

Lemma sim_rotate_base_returns_iff fuel target step s :
  (exists s', Rounded.sim_rotate_base A fuel target true step s = Some s')
  <-> (exists yaw,
          PyArith.rotate_yaw_loop A fuel target step
            (PyArith.shortest_angular_distance A (current_base_yaw s) target)
            (current_base_yaw s) = Some yaw).
Proof.
  pose proof (rotate_loop_yaw fuel target step
                (PyArith.shortest_angular_distance A (current_base_yaw s)
                                                   target)
                (emit (EnterRotateBase target true) s)) as Hyaw.
  cbn [current_base_yaw emit] in Hyaw. rewrite <- Hyaw.
  unfold Rounded.sim_rotate_base, Rounded.shortest_angular_distance.
  cbn [current_base_yaw emit].
  destruct (Rounded.rotate_loop _ _ _ _ _ _) as [s1|]; cbn [option_map];
    split; intros [x Hx]; try discriminate; eauto.
Qed.

End RoundedMethods.

(** Whether the gradual branch returns is decided by its angle arithmetic
    alone: two robots with the same stored yaw, on any two engines and in
    any two worlds, return or loop together. *)
Theorem sim_rotate_base_exit_ignores_engine
    (E1 E2 : Engine) (A : PyArith.Arith R) (fuel : nat)
    (target_yaw step_size : R) (s t : Sim) :
  current_base_yaw s = current_base_yaw t ->
  (exists s', @Rounded.sim_rotate_base E1 A fuel target_yaw true step_size s
              = Some s')
  <-> (exists t', @Rounded.sim_rotate_base E2 A fuel target_yaw true step_size t
                  = Some t').
Proof.
  intros Hyaw.
  rewrite (@sim_rotate_base_returns_iff E1 A), (@sim_rotate_base_returns_iff E2 A).
  now rewrite Hyaw.
Qed.

Lemma sim_rotate_base_exit_ignores_engine_witness :
  current_base_yaw origin_sim = current_base_yaw slow_sim
  /\ ((exists s', @Rounded.sim_rotate_base planar_engine
                    (PyArith.rounded PyArith.grid_round PyArith.grid_pi)
                    7 1 true (1 / 2) origin_sim = Some s')
      <-> (exists t', @Rounded.sim_rotate_base bullet_engine
                        (PyArith.rounded PyArith.grid_round PyArith.grid_pi)
                        7 1 true (1 / 2) slow_sim = Some t')).
Proof.
  split; [reflexivity|].
  exact (sim_rotate_base_exit_ignores_engine planar_engine bullet_engine
           (PyArith.rounded PyArith.grid_round PyArith.grid_pi) 7 1 (1 / 2)
           origin_sim slow_sim eq_refl).
Defined.


Section RoundedAngles.
Context {engine : Engine}.
Import PyFloat PyFloatFacts.

Variable rnd : R -> R.
Variables P M eta : R.
Hypothesis rounding : PyArith.nearest rnd P M eta.

Let rnd_mono :
  forall x y, Rabs x <= M -> Rabs y <= M -> x <= y -> rnd x <= rnd y :=
  proj1 rounding.
Let rnd_err : forall x, Rabs x <= M -> Rabs (rnd x - x) <= eta :=
  proj1 (proj2 rounding).
Let rnd_zero : rnd 0 = 0 := proj1 (proj2 (proj2 rounding)).
Let rnd_pi : rnd P = P := proj1 (proj2 (proj2 (proj2 rounding))).
Let rnd_neg_pi : rnd (- P) = - P :=
  proj1 (proj2 (proj2 (proj2 (proj2 rounding)))).
Let rnd_two_pi : rnd (2 * P) = 2 * P :=
  proj1 (proj2 (proj2 (proj2 (proj2 (proj2 rounding))))).
Let P_pos : 0 < P :=
  proj1 (proj2 (proj2 (proj2 (proj2 (proj2 (proj2 rounding)))))).
Let P_fits : 2 * P <= M :=
  proj2 (proj2 (proj2 (proj2 (proj2 (proj2 (proj2 rounding)))))).

Local Abbreviation A := (PyArith.rounded rnd P).
Local Abbreviation wrap := (PyArith.wrap A).

Lemma eta_nonneg : 0 <= eta.
Proof.
  pose proof (rnd_err 0) as H. rewrite rnd_zero, Rminus_diag, Rabs_R0 in H.
  apply H. lra.
Qed.

Lemma rnd_near x : Rabs x <= M -> x - eta <= rnd x <= x + eta.
Proof.
  intros Hx. pose proof (rnd_err x Hx) as H.
  apply Rabs_bounds in H. lra.
Qed.

Lemma ceil_floor q : Zceil q = Zfloor q \/ Zceil q = (Zfloor q + 1)%Z.
Proof.
  pose proof (Zfloor_bound q) as Hf. pose proof (Zceil_bound q) as Hc.
  assert (H1 : (Zfloor q <= Zceil q)%Z) by (apply le_IZR; lra).
  assert (H2 : (Zceil q < Zfloor q + 2)%Z)
    by (apply lt_IZR; rewrite plus_IZR; lra).
  lia.
Qed.

(** Python's remainder by [2 * math.pi] is the floored remainder, rounded
    when the dividend is negative. *)
Lemma rem_cases x :
  PyArith.rem_rounded rnd x (2 * P) = py_mod x (2 * P)
  \/ (x < 0 /\ PyArith.rem_rounded rnd x (2 * P) = rnd (py_mod x (2 * P))).
Proof.
  assert (Hm : 0 < 2 * P) by lra.
  pose proof (py_mod_bound x (2 * P) Hm) as Hb.
  assert (Hltm : ltb (2 * P) 0 = false) by (apply ltb_false; lra).
  unfold PyArith.rem_rounded, PyArith.fmod_exact, PyArith.Ztrunc.
  rewrite Hltm.
  destruct (Rlt_dec (x / (2 * P)) 0) as [Hneg|Hpos].
  - assert (Hx : x < 0).
    { replace x with (x / (2 * P) * (2 * P)) by (field; lra). nra. }
    destruct (ceil_floor (x / (2 * P))) as [Hc|Hc]; rewrite Hc.
    + left. change (x - 2 * P * IZR (Zfloor (x / (2 * P))))
        with (py_mod x (2 * P)).
      assert (H0 : py_mod x (2 * P) = 0).
      { pose proof (Zfloor_bound (x / (2 * P))) as Hf.
        pose proof (Zceil_bound (x / (2 * P))) as Hce. rewrite Hc in Hce.
        assert (Hq : x / (2 * P) = IZR (Zfloor (x / (2 * P)))) by lra.
        unfold py_mod. rewrite <- Hq. field. lra. }
      rewrite H0. destruct (Req_dec_T 0 0); [reflexivity|congruence].
    + right. split; [exact Hx|].
      rewrite plus_IZR.
      replace (x - 2 * P * (IZR (Zfloor (x / (2 * P))) + 1))
        with (py_mod x (2 * P) - 2 * P) by (unfold py_mod; ring).
      destruct (Req_dec_T (py_mod x (2 * P) - 2 * P) 0) as [H0|_]; [lra|].
      assert (Hlt : ltb (py_mod x (2 * P) - 2 * P) 0 = true)
        by (apply ltb_true; lra).
      rewrite Hlt. cbn [xorb]. f_equal. ring.
  - left. change (x - 2 * P * IZR (Zfloor (x / (2 * P))))
      with (py_mod x (2 * P)).
    destruct (Req_dec_T (py_mod x (2 * P)) 0) as [H0|_]; [now rewrite H0|].
    assert (Hlt : ltb (py_mod x (2 * P)) 0 = false) by (apply ltb_false; lra).
    rewrite Hlt. reflexivity.
Qed.

Lemma rem_range x : 0 <= PyArith.rem_rounded rnd x (2 * P) <= 2 * P.
Proof.
  assert (Hm : 0 < 2 * P) by lra.
  pose proof (py_mod_bound x (2 * P) Hm) as Hb.
  destruct (rem_cases x) as [-> | [_ ->]]; [lra|].
  rewrite <- rnd_zero at 1. rewrite <- rnd_two_pi at 3.
  split; apply rnd_mono; rewrite ?Rabs_R0, ?Rabs_right; lra.
Qed.

Lemma rem_decomp x :
  exists k : Z,
    x - 2 * P * IZR k - eta <= PyArith.rem_rounded rnd x (2 * P)
    <= x - 2 * P * IZR k + eta.
Proof.
  assert (Hm : 0 < 2 * P) by lra.
  pose proof (py_mod_bound x (2 * P) Hm) as Hb.
  pose proof eta_nonneg as He.
  exists (Zfloor (x / (2 * P))).
  change (x - 2 * P * IZR (Zfloor (x / (2 * P)))) with (py_mod x (2 * P)).
  destruct (rem_cases x) as [-> | [_ ->]]; [lra|].
  apply rnd_near. rewrite Rabs_right; lra.
Qed.

Lemma wrap_unfold v :
  wrap v = rnd (PyArith.rem_rounded rnd (rnd (v + P)) (2 * P) - P).
Proof. unfold PyArith.wrap. cbn. now rewrite rnd_two_pi. Qed.

Lemma wrap_range v : - P <= wrap v <= P.
Proof.
  rewrite wrap_unfold.
  pose proof (rem_range (rnd (v + P))) as Hr.
  split.
  - apply Rle_trans with (rnd (- P)); [rewrite rnd_neg_pi; lra|].
    apply rnd_mono; try (apply Rabs_le; lra); lra.
  - apply Rle_trans with (rnd P); [|rewrite rnd_pi; lra].
    apply rnd_mono; try (apply Rabs_le; lra); lra.
Qed.

Lemma wrap_spec v :
  Rabs (v + P) <= M ->
  exists k : Z,
    v - 2 * P * IZR k - 3 * eta <= wrap v <= v - 2 * P * IZR k + 3 * eta.
Proof.
  intros Hv. rewrite wrap_unfold.
  pose proof (rnd_near (v + P) Hv) as H1.
  pose proof (rem_range (rnd (v + P))) as Hr.
  destruct (rem_decomp (rnd (v + P))) as [k Hk].
  assert (H3 : Rabs (PyArith.rem_rounded rnd (rnd (v + P)) (2 * P) - P) <= M)
    by (apply Rabs_le; lra).
  pose proof (rnd_near _ H3) as H4.
  exists k. lra.
Qed.

Lemma rounded_sad_unfold a b :
  PyArith.shortest_angular_distance A a b = wrap (rnd (b - a)).
Proof. reflexivity. Qed.

Lemma rounded_sad_range a b :
  - P <= PyArith.shortest_angular_distance A a b <= P.
Proof. rewrite rounded_sad_unfold. apply wrap_range. Qed.

Lemma rounded_sad_spec a b :
  Rabs (b - a) + P + eta <= M ->
  exists k : Z,
    b - a - 2 * P * IZR k - 4 * eta
    <= PyArith.shortest_angular_distance A a b
    <= b - a - 2 * P * IZR k + 4 * eta.
Proof.
  intros Hb. rewrite rounded_sad_unfold.
  pose proof eta_nonneg as He.
  assert (Hba : Rabs (b - a) <= M) by lra.
  pose proof (rnd_near (b - a) Hba) as H1.
  assert (H2 : Rabs (rnd (b - a) + P) <= M).
  { apply Rabs_le. pose proof (Rabs_bounds _ _ (Rle_refl (Rabs (b - a)))). lra. }
  destruct (wrap_spec _ H2) as [k Hk]. exists k. lra.
Qed.



(** *** The gradual loop *)

Section Loop.
Variables T h : R.
Hypothesis step_big : 12 * eta < h.
Hypothesis target_fits : Rabs T + h + 2 * P + eta <= M.

Local Abbreviation sad := (PyArith.shortest_angular_distance A).

Local Abbreviation yaw_fits y := (Rabs T + Rabs y + h + P + eta <= M).

Lemma yaw_fits_wrapped y : Rabs y <= P -> yaw_fits y.
Proof. lra. Qed.

Lemma yaw_step_unfold d y :
  PyArith.rotate_yaw_step A T h d y
  = (sad (wrap (if ltb 0 d then rnd (y + h) else rnd (y - h))) T,
     wrap (if ltb 0 d then rnd (y + h) else rnd (y - h))).
Proof.
  unfold PyArith.rotate_yaw_step, PyArith.shortest_angular_distance,
    PyArith.wrap. cbn.
  now destruct (ltb 0 d).
Qed.

(** One pass brings the computed distance within the step or shortens it
    by the step, up to the rounding of the pass. *)
Lemma yaw_step_progress d y :
  yaw_fits y -> d = sad y T -> h < Rabs d ->
  let y' := snd (PyArith.rotate_yaw_step A T h d y) in
  let d' := fst (PyArith.rotate_yaw_step A T h d y) in
  d' = sad y' T
  /\ Rabs y' <= P
  /\ (Rabs d' <= h \/ Rabs d' <= Rabs d - (h - 12 * eta)).
Proof.
  intros Hfit Hd Hbig. rewrite yaw_step_unfold. cbn [fst snd].
  pose proof eta_nonneg as He.
  pose proof (Rabs_bounds _ _ (Rle_refl (Rabs T))) as HT.
  pose proof (Rabs_bounds _ _ (Rle_refl (Rabs y))) as Hy.
  pose proof (rounded_sad_range y T) as Hdr.  rewrite <- Hd in Hdr.
  destruct (rounded_sad_spec y T) as [k Hk]; [pose proof (Rabs_diff T y); lra|].
  rewrite <- Hd in Hk.
  set (y1 := if ltb 0 d then rnd (y + h) else rnd (y - h)).
  assert (Hy1 : if ltb 0 d then y + h - eta <= y1 <= y + h + eta
                else y - h - eta <= y1 <= y - h + eta).
  { unfold y1. destruct (ltb 0 d); apply rnd_near; apply Rabs_le; lra. }
  assert (Hy1M : Rabs (y1 + P) <= M)
    by (apply Rabs_le; destruct (ltb 0 d); lra).
  destruct (wrap_spec y1 Hy1M) as [j Hj].
  pose proof (wrap_range y1) as Hy2.
  set (y2 := wrap y1) in *.
  pose proof (rounded_sad_range y2 T) as Hdr'. 
  destruct (rounded_sad_spec y2 T) as [k' Hk'];
    [pose proof (Rabs_diff T y2);
     assert (Rabs y2 <= P) by (apply Rabs_le; lra); lra|].
  set (d' := sad y2 T) in *.
  split; [reflexivity|]. split; [apply Rabs_le; lra|].
  set (n := (k + j - k')%Z).
  assert (Hn : P * IZR n = P * IZR k + P * IZR j - P * IZR k')
    by (unfold n; rewrite minus_IZR, plus_IZR; ring).
  destruct (ltb 0 d) eqn:Hs.
  - apply ltb_true in Hs. rewrite (Rabs_right d) in * by lra.
    assert (Hlo : d - h + 2 * (P * IZR n) - 12 * eta <= d') by lra.
    assert (Hhi : d' <= d - h + 2 * (P * IZR n) + 12 * eta) by lra.
    assert (Hn0 : n = 0%Z).
    { destruct (Z_lt_le_dec n 0) as [Hneg|Hnn].
      - exfalso. assert (IZR n <= -1) by (apply IZR_le; lia). nra.
      - destruct (Z_lt_le_dec 0 n) as [Hp|Hnp]; [|lia].
        exfalso. assert (1 <= IZR n) by (apply IZR_le; lia). nra. }
    rewrite Hn0, Rmult_0_r in Hlo, Hhi.
    destruct (Rle_dec d' h) as [Hle|Hgt].
    + left. apply Rabs_le. lra.
    + right. rewrite Rabs_right by lra. lra.
  - apply ltb_false in Hs.
    assert (Hdneg : d < - h).
    { unfold Rabs in Hbig. destruct (Rcase_abs d); lra. }
    rewrite (Rabs_left d) in * by lra.
    assert (Hlo : d + h + 2 * (P * IZR n) - 12 * eta <= d') by lra.
    assert (Hhi : d' <= d + h + 2 * (P * IZR n) + 12 * eta) by lra.
    assert (Hn0 : n = 0%Z).
    { destruct (Z_lt_le_dec n 0) as [Hneg|Hnn].
      - exfalso. assert (IZR n <= -1) by (apply IZR_le; lia). nra.
      - destruct (Z_lt_le_dec 0 n) as [Hp|Hnp]; [|lia].
        exfalso. assert (1 <= IZR n) by (apply IZR_le; lia). nra. }
    rewrite Hn0, Rmult_0_r in Hlo, Hhi.
    destruct (Rle_dec (- h) d') as [Hle|Hgt].
    + left. apply Rabs_le. lra.
    + right. rewrite Rabs_left by lra. lra.
Qed.

Lemma yaw_loop_terminates N :
  forall fuel d y,
    (N <= fuel)%nat -> yaw_fits y -> d = sad y T ->
    Rabs d <= h + INR N * (h - 12 * eta) ->
    exists y',
      PyArith.rotate_yaw_loop A fuel T h d y = Some y'
      /\ Rabs (sad y' T) <= h.
Proof.
  induction N as [|N IH]; intros fuel d y Hfuel Hfit Hd Hbound;
    destruct (ltb h (Rabs d)) eqn:Hc.
  - apply ltb_true in Hc. cbn [INR] in Hbound. lra.
  - exists y. apply ltb_false in Hc.
    split; [destruct fuel; cbn [PyArith.rotate_yaw_loop]; cbn; now rewrite
             (proj2 (ltb_false _ _) Hc)|].
    now rewrite <- Hd.
  - apply ltb_true in Hc. destruct fuel as [|fuel]; [lia|].
    cbn [PyArith.rotate_yaw_loop].
    change (PyArith.ltb A h (PyArith.abs A d)) with (ltb h (Rabs d)).
    rewrite (proj2 (ltb_true _ _) Hc).
    destruct (yaw_step_progress d y Hfit Hd Hc) as (Hd' & Hy' & Hprog).
    destruct (PyArith.rotate_yaw_step A T h d y) as [d' y'].
    cbn [fst snd] in *.
    apply IH; [lia | now apply yaw_fits_wrapped | exact Hd' |].
    rewrite S_INR in Hbound. pose proof (pos_INR N). nra.
  - exists y. apply ltb_false in Hc.
    split; [destruct fuel; cbn [PyArith.rotate_yaw_loop]; cbn; now rewrite
             (proj2 (ltb_false _ _) Hc)|].
    now rewrite <- Hd.
Qed.

(** Passes that suffice from any distance. *)
Local Abbreviation rotate_passes := (Z.to_nat (up (P / (h - 12 * eta)))).

Lemma yaw_loop_returns fuel y :
  (rotate_passes <= fuel)%nat -> yaw_fits y ->
  exists y',
    PyArith.rotate_yaw_loop A fuel T h (sad y T) y = Some y'
    /\ Rabs (sad y' T) <= h.
Proof.
  intros Hfuel Hfit.
  apply (yaw_loop_terminates rotate_passes); [exact Hfuel | exact Hfit | reflexivity |].
  pose proof (rounded_sad_range y T) as Hr.
  assert (Hc : 0 < h - 12 * eta) by lra.
  assert (HN : P / (h - 12 * eta) <= INR rotate_passes).
  { rewrite INR_IZR_INZ, Z2Nat.id.
    - destruct (archimed (P / (h - 12 * eta))). lra.
    - apply le_IZR. destruct (archimed (P / (h - 12 * eta))).
      assert (0 < P / (h - 12 * eta)) by (apply Rdiv_lt_0_compat; lra). lra. }
  assert (HP : P <= INR rotate_passes * (h - 12 * eta)).
  { apply (Rmult_le_compat_r (h - 12 * eta)) in HN; [|lra].
    replace (P / (h - 12 * eta) * (h - 12 * eta)) with P in HN by (field; lra).
    exact HN. }
  pose proof eta_nonneg. apply Rabs_le. lra.
Qed.

End Loop.


End RoundedAngles.



(** *** The coarse format satisfies what is asked of a rounding *)

Section Grid.

Lemma grid_round_mono x y : x <= y -> PyArith.grid_round x <= PyArith.grid_round y.
Proof.
  intros Hxy. unfold PyArith.grid_round.
  assert (Hz : (Zfloor (x * 1024 + 1 / 2) <= Zfloor (y * 1024 + 1 / 2))%Z)
    by (apply Zfloor_le; lra).
  apply IZR_le in Hz. lra.
Qed.

Lemma grid_round_near x : Rabs (PyArith.grid_round x - x) <= 1 / 2048.
Proof.
  unfold PyArith.grid_round. pose proof (Zfloor_bound (x * 1024 + 1 / 2)) as Hb.
  apply Rabs_le. lra.
Qed.

Lemma grid_round_fix (z : Z) : PyArith.grid_round (IZR z / 1024) = IZR z / 1024.
Proof.
  unfold PyArith.grid_round. rewrite (Zfloor_eq z); [reflexivity|]. lra.
Qed.

Lemma grid_nearest : PyArith.nearest PyArith.grid_round PyArith.grid_pi 100 (1 / 2048).
Proof.
  unfold PyArith.nearest, PyArith.grid_pi.
  split; [intros x y _ _; apply grid_round_mono|].
  split; [intros x _; apply grid_round_near|].
  split; [replace 0 with (IZR 0 / 1024) by lra; apply grid_round_fix|].
  split; [apply (grid_round_fix 3217)|].
  split; [replace (- (3217 / 1024)) with (IZR (-3217) / 1024) by lra;
          apply grid_round_fix|].
  split; [replace (2 * (3217 / 1024)) with (IZR 6434 / 1024) by lra;
          apply grid_round_fix|].
  lra.
Qed.

End Grid.

Section RoundedWitnesses.
#[local] Existing Instance planar_engine.



End RoundedWitnesses.

(** *** Exact arithmetic is the case without rounding *)

Section ExactArithmetic.
Context {engine : Engine}.
Import PyFloat PyFloatFacts.

Lemma exact_nearest : PyArith.nearest (fun x => x) PI 100 0.
Proof.
  pose proof PI_RGT_0. pose proof PI_4.
  unfold PyArith.nearest.
  split; [intros x y _ _ Hxy; exact Hxy|].
  split; [intros x _; rewrite Rminus_diag, Rabs_R0; lra|].
  repeat split; lra.
Qed.

Lemma exact_rem x : PyArith.rem_rounded (fun x => x) x (2 * PI) = py_mod x (2 * PI).
Proof.
  destruct (rem_cases (fun x => x) PI 100 0 exact_nearest x) as [-> | [_ ->]];
    reflexivity.
Qed.

Lemma exact_shortest_angular_distance a b :
  PyArith.shortest_angular_distance PyArith.exact a b
  = shortest_angular_distance a b.
Proof.
  unfold PyArith.shortest_angular_distance, shortest_angular_distance.
  cbn. now rewrite exact_rem.
Qed.

Lemma exact_rotate_step target step d s :
  Rounded.rotate_step PyArith.exact target step d s
  = rotate_step target step d s.
Proof.
  unfold Rounded.rotate_step, rotate_step, Rounded.shortest_angular_distance.
  rewrite exact_shortest_angular_distance.
  cbn [PyArith.ltb PyArith.zero PyArith.add PyArith.sub PyArith.rem
       PyArith.mul PyArith.two PyArith.math_pi PyArith.exact PyArith.rounded].
  now rewrite !exact_rem.
Qed.

Lemma exact_rotate_loop fuel :
  forall target step d s,
    Rounded.rotate_loop PyArith.exact fuel target step d s
    = rotate_loop fuel target step d s.
Proof.
  induction fuel as [|fuel IH]; intros target step d s;
    cbn [Rounded.rotate_loop rotate_loop];
    change (PyArith.ltb PyArith.exact step (PyArith.abs PyArith.exact d))
      with (ltb step (Rabs d));
    destruct (ltb step (Rabs d)); try reflexivity.
  rewrite exact_rotate_step.
  destruct (rotate_step target step d s) as [d' s']. apply IH.
Qed.

(** Without rounding, and with the number pi for [math.pi], the rounded
    method is [sim_rotate_base]. *)
Lemma exact_sim_rotate_base fuel target gradual step s :
  Rounded.sim_rotate_base PyArith.exact fuel target gradual step s
  = sim_rotate_base fuel target gradual step s.
Proof.
  unfold Rounded.sim_rotate_base, sim_rotate_base,
    Rounded.shortest_angular_distance.
  rewrite exact_shortest_angular_distance, exact_rotate_loop. reflexivity.
Qed.

End ExactArithmetic.

(** ** binary64 *)

Section Binary64Facts.
Import Floats.
Local Open Scope float_scope.

Local Abbreviation sad64 :=
  (PyArith.shortest_angular_distance PyArith.binary64).

(** In binary64 the distance from [math.pi] to the float just below zero
    is [math.pi] itself, the upper end of the interval; and the distances
    between 0.3 and 2.9, in the two directions, are not opposite. *)
Lemma shortest_angular_distance_binary64 :
  sad64 0 PyArith.pi64 = - PyArith.pi64
  /\ sad64 PyArith.pi64 0 = - PyArith.pi64
  /\ sad64 PyArith.pi64 (-0x1p-51) = PyArith.pi64
  /\ sad64 0x1.3333333333333p-2 0x1.7333333333333p+1 = 0x1.4ccccccccccccp+1
  /\ sad64 0x1.7333333333333p+1 0x1.3333333333333p-2 = -0x1.4cccccccccccdp+1.
Proof. repeat split; vm_compute; reflexivity. Qed.


(** In binary64, with the default step 0.02, the loop from the stored yaw
    0 towards the target 1 exits after 50 passes and not before, at the
    yaw 0.9999999999999982. *)
Lemma default_step_run :
  PyArith.rotate_yaw_loop PyArith.binary64 49 1 PyArith.default_step
    (sad64 0 1) 0 = None
  /\ PyArith.rotate_yaw_loop PyArith.binary64 50 1 PyArith.default_step
       (sad64 0 1) 0 = Some 0x1.ffffffffffff0p-1.
Proof. split; vm_compute; reflexivity. Qed.

(** One pass of the gradual loop in binary64 from the stored yaw 0 towards
    the target 2 with the step [1e-17]: the step is lost when the yaw is
    brought back between [-math.pi] and [math.pi], and the pass ends where
    it began. *)
Lemma tiny_step_pass :
  PyArith.ltb PyArith.binary64 PyArith.tiny_step
    (PyArith.abs PyArith.binary64 2) = true
  /\ PyArith.rotate_yaw_step PyArith.binary64 2 PyArith.tiny_step 2 0
     = (2, 0)
  /\ sad64 0 2 = 2.
Proof. repeat split; vm_compute; reflexivity. Qed.


End Binary64Facts.
